(** * nestjs-undici: the request execution pipeline of [HttpService]

    A shallow embedding of [src/http.service.ts] (class [HttpService]) and of
    the interfaces of [src/interfaces/http-module.interface.ts], with the
    properties of the pipeline: URL and query construction, header merging,
    body preparation, status text, the interceptor chains and their error
    routing, and the frame property of a call on the client's configuration.

    Layout: the platform ([Js]: values, [typeof], [JSON.stringify] and
    [JSON.parse], [URLSearchParams]); the service with its effect monad
    ([Http]); the vocabulary of the properties ([Obs]); concrete clients
    and calls ([Scenario]); the pool parameters ([Pool]) and the module
    ([Wiring]); the request chain in the specification's words ([Chain]);
    the executor over conversions that may throw ([General]); then the
    lemmas and theorems. *)

From Stdlib Require Import Ascii DecimalString.
From Stdlib Require DecimalPos DecimalZ.
From stdpp Require Import base numbers strings list sorting gmap.

Local Open Scope Z_scope.
Set Warnings "-register-all".

(* ===================================================================== *)
(** ** The JavaScript platform, as far as the service uses it *)
(* ===================================================================== *)

Module Js.

(** JavaScript strings are modelled as byte strings (their UTF-8 encoding):
    that is the form in which [URLSearchParams] percent-encodes them. *)

(** [s.startsWith(p)] *)
Definition startsWith (s p : string) : bool := String.prefix p s.

(** [s.includes(p)]: [p] occurs in [s] as a substring. *)
Fixpoint includes (s p : string) : bool :=
  String.prefix p s ||
  match s with
  | EmptyString => false
  | String _ s' => includes s' p
  end.

(** [parts.join(sep)] *)
Fixpoint join (sep : string) (parts : list string) : string :=
  match parts with
  | [] => EmptyString
  | [p] => p
  | p :: rest => p +:+ sep +:+ join sep rest
  end.

(** A string is falsy exactly when it is empty. *)
Definition nonempty (s : string) : bool :=
  match s with EmptyString => false | String _ _ => true end.

(** The double quote character, code 34. *)
Definition dquote : ascii := ascii_of_nat 34.
Definition backslash : ascii := ascii_of_nat 92.

(** Values that reach the service as [data], as parameter values or as
    decoded response payloads.  Values are finite trees: there is no
    cyclic object, and no BigInt and no Symbol, the values on which
    [JSON.stringify] or [new URLSearchParams] throw (the module [General]
    below has the two conversions as they are on every value).
    [Number n] is the Number value of the integer [n], that is the double
    nearest to [n]; objects list their own enumerable properties in
    enumeration order.  [Buffer], [Stream] and [FormData] are the host
    objects the service's callers pass as payloads: a byte buffer, a
    readable stream (with whatever own enumerable properties it has) and a
    multipart form. *)
Inductive Value : Type :=
| Undefined
| Null
| Bool (b : bool)
| Number (n : Z)
| Str (s : string)
| Array (items : list Value)
| Object (props : list (string * Value))
| Buffer (bytes : list Byte.byte)
| Stream (props : list (string * Value))
| FormData (entries : list (string * string)).

(** [!v] is [negb (truthy v)]. *)
Definition truthy (v : Value) : bool :=
  match v with
  | Undefined | Null => false
  | Bool b => b
  | Number n => negb (n =? 0)
  | Str s => nonempty s
  | Array _ | Object _ | Buffer _ | Stream _ | FormData _ => true
  end.

(** [typeof v] *)
Definition typeof (v : Value) : string :=
  match v with
  | Undefined => "undefined"
  | Bool _ => "boolean"
  | Number _ => "number"
  | Str _ => "string"
  | Null | Array _ | Object _ | Buffer _ | Stream _ | FormData _ => "object"
  end.

(** [v instanceof FormData] *)
Definition instanceof_FormData (v : Value) : bool :=
  match v with FormData _ => true | _ => false end.

(** *** Numbers *)

(** The decimal digits of an integer. *)
Definition digits (n : Z) : string := NilZero.string_of_int (Z.to_int n).

(** The Number value of a non-negative integer [m]: [m] rounded to 53
    significant bits, to nearest and ties to even.  It is infinite from
    [2 ^ 1024] on. *)
Definition round_double (m : Z) : Z :=
  if m <? 2 ^ 53 then m
  else
    let e := Z.log2 m - 52 in
    let q := Z.shiftr m e in
    let r := m - Z.shiftl q e in
    let half := Z.shiftl 1 (e - 1) in
    let q' := if (half <? r) || ((r =? half) && Z.odd q) then q + 1 else q in
    Z.shiftl q' e.

Definition is_finite (n : Z) : bool := round_double (Z.abs n) <? 2 ^ 1024.

(** The integer with [k] significant decimal digits that stands for the
    Number value [x] of [nd] digits, if there is one: a neighbour of [x] on
    the grid of such integers whose Number value is [x], the closer one of
    two, the even one of two equally close. *)
Definition shortest_at (x : Z) (nd k : nat) : option Z :=
  let p := 10 ^ Z.of_nat (nd - k) in
  let lo := x / p * p in
  let hi := lo + p in
  match round_double lo =? x, round_double hi =? x with
  | true, true =>
      Some (if x - lo <? hi - x then lo
            else if hi - x <? x - lo then hi
            else if Z.even (lo / p) then lo else hi)
  | true, false => Some lo
  | false, true => Some hi
  | false, false => None
  end.

(** The same with as few significant digits as possible, from [k] on. *)
Fixpoint shortest_from (x : Z) (nd k fuel : nat) : Z :=
  match fuel with
  | O => x
  | S fuel =>
      match shortest_at x nd k with
      | Some v => v
      | None => shortest_from x nd (S k) fuel
      end
  end.

(** Seventeen significant digits tell every double from its neighbours. *)
Definition shortest (x : Z) : Z :=
  shortest_from x (String.length (digits x)) 1 17.

(** A digit string without its trailing zeros. *)
Fixpoint strip_zeros (s : string) : string :=
  match s with
  | EmptyString => EmptyString
  | String c s' =>
      match strip_zeros s' with
      | EmptyString =>
          if Ascii.eqb c "0" then EmptyString else String c EmptyString
      | t => String c t
      end
  end.

(** [String(x)] for a non-negative integer: all digits below [2 ^ 53];
    above, the shortest digits that give the same double back, in full up
    to 21 digits and in exponent notation beyond. *)
Definition number_text_nonneg (m : Z) : string :=
  if m <? 2 ^ 53 then digits m
  else
    let x := round_double m in
    if 2 ^ 1024 <=? x then "Infinity"
    else
      let d := digits (shortest x) in
      let n := String.length d in
      if (n <=? 21)%nat then d
      else
        match strip_zeros d with
        | EmptyString => d
        | String c EmptyString =>
            String c ("e+" +:+ digits (Z.of_nat (n - 1)))
        | String c rest =>
            String c ("." +:+ rest +:+ "e+" +:+ digits (Z.of_nat (n - 1)))
        end.

(** [String(n)] *)
Definition number_text (n : Z) : string :=
  if n <? 0 then "-" +:+ number_text_nonneg (- n) else number_text_nonneg n.

Definition hex_digit (upper : bool) (n : nat) : ascii :=
  if (n <? 10)%nat then ascii_of_nat (48 + n)
  else ascii_of_nat ((if upper then 55 else 87) + n).

(** The escape of one character inside a JSON string literal. *)
Definition json_escape (c : ascii) : string :=
  let n := nat_of_ascii c in
  let esc (x : ascii) := String backslash (String x EmptyString) in
  if (n =? 34)%nat then esc dquote
  else if (n =? 92)%nat then esc backslash
  else if (n =? 8)%nat then esc "b"%char
  else if (n =? 9)%nat then esc "t"%char
  else if (n =? 10)%nat then esc "n"%char
  else if (n =? 12)%nat then esc "f"%char
  else if (n =? 13)%nat then esc "r"%char
  else if (n <? 32)%nat then
    String backslash
      (String "u" (String "0" (String "0"
        (String (hex_digit false (n / 16))
          (String (hex_digit false (n mod 16)) EmptyString)))))
  else String c EmptyString.

Fixpoint json_escape_all (s : string) : string :=
  match s with
  | EmptyString => EmptyString
  | String c s' => json_escape c +:+ json_escape_all s'
  end.

Definition json_quote (s : string) : string :=
  String dquote (json_escape_all s +:+ String dquote EmptyString).

Definition byte_text (b : Byte.byte) : string :=
  number_text (Z.of_N (Byte.to_N b)).

(** The JSON text of a value; [None] where [JSON.stringify] yields
    [undefined].  A property whose value has no JSON text is left out of an
    object, and printed as [null] in an array; a [Buffer] prints through its
    [toJSON], the other host objects through their own enumerable
    properties (a [FormData] has none). *)
Fixpoint json_text (v : Value) : option string :=
  let member (kv : string * Value) : option string :=
    match json_text kv.2 with
    | Some t => Some (json_quote kv.1 +:+ ":" +:+ t)
    | None => None
    end in
  let element (x : Value) : string :=
    match json_text x with Some t => t | None => "null" end in
  match v with
  | Undefined => None
  | Null => Some "null"
  | Bool b => Some (if b then "true" else "false")
  | Number n => Some (if is_finite n then number_text n else "null")
  | Str s => Some (json_quote s)
  | Array items => Some ("[" +:+ join "," (map element items) +:+ "]")
  | Object props => Some ("{" +:+ join "," (omap member props) +:+ "}")
  | Buffer bytes =>
      Some ("{" +:+ json_quote "type" +:+ ":" +:+ json_quote "Buffer" +:+ ","
            +:+ json_quote "data" +:+ ":[" +:+ join "," (map byte_text bytes)
            +:+ "]}")
  | Stream props => Some ("{" +:+ join "," (omap member props) +:+ "}")
  | FormData _ => Some "{}"
  end.

(** The text of an array element and of an object member, as [json_text]
    writes them. *)
Definition json_element (x : Value) : string :=
  match json_text x with Some t => t | None => "null" end.

Definition json_member (kv : string * Value) : option string :=
  match json_text kv.2 with
  | Some t => Some (json_quote kv.1 +:+ ":" +:+ t)
  | None => None
  end.

(** [JSON.stringify(v)] as a value: a string, or [undefined]. *)
Definition JSON_stringify (v : Value) : Value :=
  match json_text v with
  | Some t => Str t
  | None => Undefined
  end.

(** *** [buffer.toString()] *)

(** U+FFFD in UTF-8. *)
Definition replacement : string :=
  String (ascii_of_nat 239)
    (String (ascii_of_nat 191) (String (ascii_of_nat 189) EmptyString)).

(** What a lead byte announces: how many bytes follow, and the range of
    the first of them. *)
Definition utf8_lead (b : nat) : option (nat * nat * nat) :=
  if ((194 <=? b) && (b <=? 223))%nat then Some (1, 128, 191)%nat
  else if ((224 <=? b) && (b <=? 239))%nat then
    Some (2, if (b =? 224)%nat then 160 else 128,
             if (b =? 237)%nat then 159 else 191)%nat
  else if ((240 <=? b) && (b <=? 244))%nat then
    Some (3, if (b =? 240)%nat then 144 else 128,
             if (b =? 244)%nat then 143 else 191)%nat
  else None.

(** The UTF-8 decoder of the encoding standard, writing UTF-8 again: a
    well-formed sequence is kept, every maximal ill-formed part becomes
    one U+FFFD.  [needed] continuation bytes are awaited, the next one in
    [lower..upper]; [pending] holds the bytes of the sequence so far. *)
Fixpoint utf8_text (bytes : list ascii) (needed lower upper : nat)
    (pending : string) : string :=
  match bytes with
  | [] => if (needed =? 0)%nat then EmptyString else replacement
  | c :: rest =>
      let b := nat_of_ascii c in
      let first :=
        if (b <? 128)%nat then String c (utf8_text rest 0 128 191 EmptyString)
        else
          match utf8_lead b with
          | Some (n, lo, hi) => utf8_text rest n lo hi (String c EmptyString)
          | None => replacement +:+ utf8_text rest 0 128 191 EmptyString
          end in
      if (needed =? 0)%nat then first
      else if ((lower <=? b) && (b <=? upper))%nat then
        if (needed =? 1)%nat then
          pending +:+ String c (utf8_text rest 0 128 191 EmptyString)
        else
          utf8_text rest (needed - 1) 128 191
                    (pending +:+ String c EmptyString)
      else replacement +:+ first
  end.

(** [String(buffer)]: the bytes read as UTF-8. *)
Definition bytes_text (bytes : list Byte.byte) : string :=
  utf8_text (map ascii_of_byte bytes) 0 128 191 EmptyString.

(** [String(v)], the conversion [URLSearchParams] applies to each value. *)
Fixpoint to_string (v : Value) : string :=
  let element (x : Value) : string :=
    match x with
    | Undefined | Null => EmptyString
    | _ => to_string x
    end in
  match v with
  | Undefined => "undefined"
  | Null => "null"
  | Bool b => if b then "true" else "false"
  | Number n => number_text n
  | Str s => s
  | Array items => join "," (map element items)
  | Object _ => "[object Object]"
  | Buffer bytes => bytes_text bytes
  | Stream _ => "[object Object]"
  | FormData _ => "[object FormData]"
  end.

(** *** [URLSearchParams] *)

(** Bytes the [application/x-www-form-urlencoded] serializer leaves as they
    are: ASCII letters and digits and the four characters [* - . _]. *)
Definition urlencode_keeps (c : ascii) : bool :=
  let n := nat_of_ascii c in
  ((48 <=? n) && (n <=? 57) || (65 <=? n) && (n <=? 90) ||
   (97 <=? n) && (n <=? 122) ||
   (n =? 42) || (n =? 45) || (n =? 46) || (n =? 95))%nat.

Definition urlencode_byte (c : ascii) : string :=
  let n := nat_of_ascii c in
  if urlencode_keeps c then String c EmptyString
  else if (n =? 32)%nat then "+"
  else String "%" (String (hex_digit true (n / 16))
                     (String (hex_digit true (n mod 16)) EmptyString)).

Fixpoint urlencode (s : string) : string :=
  match s with
  | EmptyString => EmptyString
  | String c s' => urlencode_byte c +:+ urlencode s'
  end.

(** [new URLSearchParams(record)]: one name-value pair per own enumerable
    property, in enumeration order, the value converted with [String]. *)
Definition URLSearchParams (record : list (string * Value))
  : list (string * string) :=
  map (fun kv => (kv.1, to_string kv.2)) record.

Definition urlencode_pair (kv : string * string) : string :=
  urlencode kv.1 +:+ "=" +:+ urlencode kv.2.

(** [params.toString()] *)
Definition URLSearchParams_toString (pairs : list (string * string)) : string :=
  join "&" (map urlencode_pair pairs).

(** The reader of the same format (the URL standard's urlencoded parser),
    used to say which names a query string holds. *)
Definition hex_value (c : ascii) : option nat :=
  let n := nat_of_ascii c in
  if ((48 <=? n) && (n <=? 57))%nat then Some (n - 48)%nat
  else if ((65 <=? n) && (n <=? 70))%nat then Some (n - 55)%nat
  else if ((97 <=? n) && (n <=? 102))%nat then Some (n - 87)%nat
  else None.

Fixpoint urldecode (s : string) : string :=
  match s with
  | EmptyString => EmptyString
  | String c s' =>
      let plain := String (if (nat_of_ascii c =? 43)%nat then " "%char else c)
                          (urldecode s') in
      if (nat_of_ascii c =? 37)%nat then
        match s' with
        | String h (String l rest) =>
            match hex_value h, hex_value l with
            | Some a, Some b =>
                String (ascii_of_nat (16 * a + b)) (urldecode rest)
            | _, _ => plain
            end
        | _ => plain
        end
      else plain
  end.

(** [s] up to the first [c] and what follows it; [None] without a [c]. *)
Fixpoint split_first (c : ascii) (s : string) : option (string * string) :=
  match s with
  | EmptyString => None
  | String a s' =>
      if Ascii.eqb a c then Some (EmptyString, s')
      else match split_first c s' with
           | Some (l, r) => Some (String a l, r)
           | None => None
           end
  end.

(** [s.split(c)] for a one-character separator. *)
Fixpoint split (c : ascii) (s : string) : list string :=
  match s with
  | EmptyString => [EmptyString]
  | String a s' =>
      if Ascii.eqb a c then EmptyString :: split c s'
      else match split c s' with
           | p :: ps => String a p :: ps
           | [] => [String a EmptyString]
           end
  end.

(** One [name=value] sequence of a query string, decoded; a sequence
    without [=] is a name with an empty value. *)
Definition parse_pair (seq : string) : string * string :=
  match split_first "="%char seq with
  | Some (k, v) => (urldecode k, urldecode v)
  | None => (urldecode seq, EmptyString)
  end.

(** The name-value pairs of a query string: the sequences between [&],
    empty ones skipped. *)
Definition parse_query (q : string) : list (string * string) :=
  map parse_pair (filter (fun p => nonempty p = true) (split "&"%char q)).

(** A URL without its fragment: what precedes the first [#]. *)
Definition without_fragment (url : string) : string :=
  match split_first "#"%char url with
  | Some (u, _) => u
  | None => url
  end.

(** The query component of a URL: what follows the first [?] of the URL
    without its fragment.  A [?] after the first [#] belongs to the
    fragment. *)
Definition query_of (url : string) : string :=
  match split_first "?"%char (without_fragment url) with
  | Some (_, q) => q
  | None => EmptyString
  end.

(** *** [JSON.parse]

    A reader of JSON text, to say what a text written by
    [JSON.stringify] holds.  It reads texts without white space whose
    numbers are decimal integers, whose [\u] escapes are below 128 and
    whose objects have distinct names none of which is an array index (an
    object lists such names first, whatever the text's order).  On every
    other text it gives [None], also where [JSON.parse] gives a value; it
    gives no value that [JSON.parse] does not give. *)

Definition is_digit (c : ascii) : bool :=
  let n := nat_of_ascii c in ((48 <=? n) && (n <=? 57))%nat.

(** The digits a string starts with, and what follows them. *)
Fixpoint span_digits (s : string) : string * string :=
  match s with
  | EmptyString => (EmptyString, EmptyString)
  | String c s' =>
      if is_digit c
      then (String c (span_digits s').1, (span_digits s').2)
      else (EmptyString, s)
  end.

(** A fraction or an exponent follows. *)
Definition continues_number (s : string) : bool :=
  match s with
  | EmptyString => false
  | String c _ => Ascii.eqb c "." || Ascii.eqb c "e" || Ascii.eqb c "E"
  end.

(** A number: an optional [-], then digits without a leading zero, that
    is, digits that are the decimal text of their value.  The text [-0] is
    the negative zero, which is no value of the model. *)
Definition parse_number (s : string) : option (Z * string) :=
  let negative :=
    match s with String c _ => Ascii.eqb c "-" | EmptyString => false end in
  let body :=
    match s with String c s' => if negative then s' else s | _ => s end in
  let d := (span_digits body).1 in
  let rest := (span_digits body).2 in
  if continues_number rest then None
  else
    match NilZero.uint_of_string d with
    | Some u =>
        let m := Z.of_uint u in
        if negb (String.eqb (digits m) d) then None
        else if negative && (m =? 0) then None
        else Some (if negative then - m else m, rest)
    | None => None
    end.

Definition hex4 (a b c d : ascii) : option nat :=
  match hex_value a, hex_value b, hex_value c, hex_value d with
  | Some x, Some y, Some z, Some t =>
      Some (((x * 16 + y) * 16 + z) * 16 + t)%nat
  | _, _, _, _ => None
  end.

(** The characters of a string literal after its opening quote, decoded,
    and what follows the closing quote. *)
Fixpoint parse_chars (s : string) : option (string * string) :=
  match s with
  | EmptyString => None
  | String c s' =>
      let n := nat_of_ascii c in
      if (n =? 34)%nat then Some (EmptyString, s')
      else if (n =? 92)%nat then
        match s' with
        | EmptyString => None
        | String e s'' =>
            let keep (x : ascii) :=
              match parse_chars s'' with
              | Some (t, r) => Some (String x t, r)
              | None => None
              end in
            let m := nat_of_ascii e in
            if (m =? 34)%nat then keep dquote
            else if (m =? 92)%nat then keep backslash
            else if (m =? 47)%nat then keep "/"%char
            else if (m =? 98)%nat then keep (ascii_of_nat 8)
            else if (m =? 102)%nat then keep (ascii_of_nat 12)
            else if (m =? 110)%nat then keep (ascii_of_nat 10)
            else if (m =? 114)%nat then keep (ascii_of_nat 13)
            else if (m =? 116)%nat then keep (ascii_of_nat 9)
            else if (m =? 117)%nat then
              match s'' with
              | String a (String b (String c' (String d r))) =>
                  match hex4 a b c' d with
                  | Some code =>
                      if (code <? 128)%nat then
                        match parse_chars r with
                        | Some (t, r') =>
                            Some (String (ascii_of_nat code) t, r')
                        | None => None
                        end
                      else None
                  | None => None
                  end
              | _ => None
              end
            else None
        end
      else if (n <? 32)%nat then None
      else
        match parse_chars s' with
        | Some (t, r) => Some (String c t, r)
        | None => None
        end
  end.

(** [s] without the prefix [p], if it starts with it. *)
Fixpoint drop_prefix (p s : string) : option string :=
  match p, s with
  | EmptyString, _ => Some s
  | String a p', String b s' =>
      if Ascii.eqb a b then drop_prefix p' s' else None
  | String _ _, EmptyString => None
  end.

(** The elements of an array, after its opening bracket or a comma, up to
    the closing bracket; [parse] reads one value. *)
Fixpoint parse_elements (parse : string → option (Value * string))
    (fuel : nat) (s : string) : option (list Value * string) :=
  match fuel with
  | O => None
  | S fuel =>
      match parse s with
      | Some (v, String c rest) =>
          if Ascii.eqb c "," then
            match parse_elements parse fuel rest with
            | Some (vs, r) => Some (v :: vs, r)
            | None => None
            end
          else if Ascii.eqb c "]" then Some ([v], rest)
          else None
      | _ => None
      end
  end.

(** The members of an object, likewise. *)
Fixpoint parse_members (parse : string → option (Value * string))
    (fuel : nat) (s : string) : option (list (string * Value) * string) :=
  match fuel with
  | O => None
  | S fuel =>
      match s with
      | EmptyString => None
      | String q s1 =>
          if Ascii.eqb q dquote then
            match parse_chars s1 with
            | Some (k, String colon s2) =>
                if Ascii.eqb colon ":" then
                  match parse s2 with
                  | Some (v, String c rest) =>
                      if Ascii.eqb c "," then
                        match parse_members parse fuel rest with
                        | Some (ms, r) => Some ((k, v) :: ms, r)
                        | None => None
                        end
                      else if Ascii.eqb c "}" then Some ([(k, v)], rest)
                      else None
                  | _ => None
                  end
                else None
            | _ => None
            end
          else None
      end
  end.

(** A name made of digits: an array index, or close to one. *)
Fixpoint all_digits (s : string) : bool :=
  match s with
  | EmptyString => true
  | String c s' => is_digit c && all_digits s'
  end.

Definition index_like (s : string) : bool := nonempty s && all_digits s.

(** Names an object can list in the order of the text. *)
Definition plain_names (names : list string) : bool :=
  bool_decide (NoDup names) && forallb (λ k, negb (index_like k)) names.

(** One value, and what follows it. *)
Fixpoint parse_value (fuel : nat) (s : string) : option (Value * string) :=
  match fuel with
  | O => None
  | S fuel =>
      match s with
      | EmptyString => None
      | String c s' =>
          if Ascii.eqb c "n" then
            match drop_prefix "ull" s' with
            | Some rest => Some (Null, rest)
            | None => None
            end
          else if Ascii.eqb c "t" then
            match drop_prefix "rue" s' with
            | Some rest => Some (Bool true, rest)
            | None => None
            end
          else if Ascii.eqb c "f" then
            match drop_prefix "alse" s' with
            | Some rest => Some (Bool false, rest)
            | None => None
            end
          else if Ascii.eqb c dquote then
            match parse_chars s' with
            | Some (t, rest) => Some (Str t, rest)
            | None => None
            end
          else if Ascii.eqb c "[" then
            match parse_elements (parse_value fuel) (String.length s') s' with
            | Some (items, rest) => Some (Array items, rest)
            | None =>
                match drop_prefix "]" s' with
                | Some rest => Some (Array [], rest)
                | None => None
                end
            end
          else if Ascii.eqb c "{" then
            match parse_members (parse_value fuel) (String.length s') s' with
            | Some (props, rest) =>
                if plain_names props.*1 then Some (Object props, rest)
                else None
            | None =>
                match drop_prefix "}" s' with
                | Some rest => Some (Object [], rest)
                | None => None
                end
            end
          else
            match parse_number s with
            | Some (n, rest) => Some (Number n, rest)
            | None => None
            end
      end
  end.

(** What can follow a value in a text: nothing, a comma, or a closing
    bracket or brace. *)
Definition closes (s : string) : bool :=
  match s with
  | EmptyString => true
  | String c _ => Ascii.eqb c "," || Ascii.eqb c "]" || Ascii.eqb c "}"
  end.

(** [JSON.parse(text)] *)
Definition JSON_parse (text : string) : option Value :=
  match parse_value (String.length text) text with
  | Some (v, EmptyString) => Some v
  | _ => None
  end.

(** JSON data that a text gives back as it is: [null], booleans, integers
    that are doubles, strings, and arrays and objects of these, the
    objects with names as above. *)
Fixpoint is_json (v : Value) : bool :=
  match v with
  | Null | Bool _ | Str _ => true
  | Number n => (- 2 ^ 53 <? n) && (n <? 2 ^ 53)
  | Array items => forallb is_json items
  | Object props =>
      forallb (λ kv, is_json kv.2) props && plain_names props.*1
  | Undefined | Buffer _ | Stream _ | FormData _ => false
  end.

End Js.

(* ===================================================================== *)
(** ** The service *)
(* ===================================================================== *)

Module Http.

(** A thrown value; the service never inspects it. *)
Record Error : Type := mkError { message : string }.

(** How an awaited call ends: it returns, or it throws (rejects). *)
Inductive Outcome (A : Type) : Type :=
| Returned (a : A)
| Thrown (e : Error).
Arguments Returned {A} a.
Arguments Thrown {A} e.

(** The private state of whatever the service calls into: the interceptor
    instances (a cache, a counter) and the transport behind the agent. *)
Abbreviation World := (gmap string Js.Value).

(** An external asynchronous function: from its argument and the world it
    returns or throws, and leaves a world. *)
Definition Hook (A B : Type) : Type := A → World → Outcome B * World.

Inductive Method : Type := GET | POST | PUT | DELETE | PATCH | HEAD | OPTIONS.

Inductive ResponseType : Type := json | text | stream | arraybuffer.

(** [Record<string, string>] *)
Abbreviation Headers := (gmap string string).

(** A reference to a header object in the store. *)
Abbreviation loc := nat (only parsing).

(** [interface RequestConfig]; a missing [data] is [Js.Undefined].  The
    service only reads a request descriptor, so [headers] is the content of
    the per-call header object. *)
Module RequestConfig.
Record t : Type := mk {
  url : option string;
  method : option Method;
  headers : option Headers;
  params : option (list (string * Js.Value));
  data : Js.Value;
  timeout : option Z;
  responseType : option ResponseType;
}.
(** [{}] *)
Definition empty : t := mk None None None None Js.Undefined None None.
End RequestConfig.

Inductive HeaderValue : Type :=
| Single (v : string)
| Multiple (vs : list string).

(** [interface HttpResponse] *)
Module HttpResponse.
Record t : Type := mk {
  data : Js.Value;
  status : Z;
  statusText : string;
  headers : gmap string HeaderValue;
}.
End HttpResponse.

(** The transport's response object: [statusCode], [headers], and a [body]
    with its reading operations, each of which may reject. *)
Module RawResponse.
Record t : Type := mk {
  statusCode : Z;
  headers : gmap string HeaderValue;
  body_json : Outcome Js.Value;
  body_text : Outcome string;
  body_arrayBuffer : Outcome (list Byte.byte);
  body : Js.Value;
}.
End RawResponse.

(** The options object [performRequest] hands to undici's [request], the
    [dispatcher] apart; [headers] is the content of the header object at the
    time of the call. *)
Module DispatchOptions.
Record t : Type := mk {
  method : Method;
  headers : Headers;
  body : Js.Value;
  bodyTimeout : option Z;
}.
End DispatchOptions.

(** undici's [Agent], seen from the service: what dispatching a request
    through it does. *)
Record Agent : Type := mkAgent {
  dispatch : string → Hook DispatchOptions.t RawResponse.t;
}.

(** [interface RequestInterceptor] and [interface ResponseInterceptor].
    The interface types [onRequest] over [RequestOptions]; the service
    passes it its [RequestConfig] and reads only [RequestConfig] fields of
    what comes back. *)
Module RequestInterceptor.
Record t : Type := mk {
  onRequest : option (Hook RequestConfig.t RequestConfig.t);
  onError : option (Hook Error unit);
}.
End RequestInterceptor.

Module ResponseInterceptor.
Record t : Type := mk {
  onResponse : option (Hook HttpResponse.t HttpResponse.t);
  onError : option (Hook Error unit);
}.
End ResponseInterceptor.

Module Interceptors.
Record t : Type := mk {
  request : option (list RequestInterceptor.t);
  response : option (list ResponseInterceptor.t);
}.
End Interceptors.

(** [interface HttpModuleOptions]; [headers] refers to the caller's header
    object, which the client shares with whoever else holds it. *)
Module HttpModuleOptions.
Record t : Type := mk {
  baseURL : option string;
  headers : option loc;
  timeout : option Z;
  agent : option Agent;
  connections : option Z;
  pipelining : option Z;
  keepAliveTimeout : option Z;
  keepAliveMaxTimeout : option Z;
  connectTimeout : option Z;
  bodyTimeout : option Z;
  headersTimeout : option Z;
  interceptors : option Interceptors.t;
}.
End HttpModuleOptions.

(** The constants [HTTP_DEFAULTS] that [http.service.ts] imports from
    [src/constants/http-module.constant.ts], a file outside the ones
    embedded here. *)
Module HTTP_DEFAULTS.

(** Modelled from the spec: the content type set for a JSON body,
    [application/json] (the test suite expects the same header). *)
Definition DEFAULT_CONTENT_TYPE : string := "application/json".

(** Modelled from the spec: the method of a request that names none.  The
    spec does not give it; [GET] is what the examples assume. *)
Definition DEFAULT_METHOD : Method := GET.

(** Modelled from the spec: the response type when unspecified, [json]. *)
Definition DEFAULT_RESPONSE_TYPE : ResponseType := json.

(** Modelled from the spec: the status whose text is [OK], 200. *)
Definition OK_STATUS : Z := 200.

(** Modelled from the spec: the status text for status 200. *)
Definition OK_STATUS_TEXT : string := "OK".

(** Modelled from the spec: the one generic text for every other status. *)
Definition ERROR_STATUS_TEXT : string := "Error".

End HTTP_DEFAULTS.

(** The fields of [class HttpService]. *)
Record HttpService : Type := mkHttpService {
  options : HttpModuleOptions.t;
  agent : Agent;
  requestInterceptors : list RequestInterceptor.t;
  responseInterceptors : list ResponseInterceptor.t;
}.

(** What a call does that can be observed from outside, in order: each hook
    invocation, with the position of its interceptor in its list and the
    argument it received, and each dispatch to the transport. *)
Inductive Event : Type :=
| OnRequestCalled (i : nat) (config : RequestConfig.t)
| RequestOnErrorCalled (i : nat) (error : Error)
| Dispatched (url : string) (opts : DispatchOptions.t)
| OnResponseCalled (i : nat) (response : HttpResponse.t)
| ResponseOnErrorCalled (i : nat) (error : Error).

(** The state a call runs in: the client object, the store of header
    objects, the world, and the events so far (ghost state). *)
Record State : Type := mkState {
  this : HttpService;
  heap : gmap loc Headers;
  world : World;
  trace : list Event;
}.

(** *** The effect monad: state that survives a throw *)

Definition Eff (A : Type) : Type := State → Outcome A * State.

Definition ret {A} (a : A) : Eff A := λ st, (Returned a, st).

Definition bind {A B} (c : Eff A) (k : A → Eff B) : Eff B :=
  λ st, match c st with
        | (Returned a, st') => k a st'
        | (Thrown e, st') => (Thrown e, st')
        end.

(** [throw e] *)
Definition throw {A} (e : Error) : Eff A := λ st, (Thrown e, st).

(** [try { c } catch (error) { handler(error) }] *)
Definition try_catch {A} (c : Eff A) (handler : Error → Eff A) : Eff A :=
  λ st, match c st with
        | (Returned a, st') => (Returned a, st')
        | (Thrown e, st') => handler e st'
        end.

Definition gets {A} (f : State → A) : Eff A := λ st, (Returned (f st), st).

Declare Scope eff_scope.
Delimit Scope eff_scope with eff.
Bind Scope eff_scope with Eff.
Notation "'let*' x := c 'in' k" := (bind c (λ x, k))
  (at level 10, x binder, c at level 100, k at level 200) : eff_scope.
Local Open Scope eff_scope.

(** An awaited result that is already settled. *)
Definition settle {A} (o : Outcome A) : Eff A := λ st, (o, st).

Definition log (ev : Event) (st : State) : State :=
  mkState (this st) (heap st) (world st) (trace st ++ [ev]).

Definition set_world (w : World) (st : State) : State :=
  mkState (this st) (heap st) w (trace st).

Definition set_heap (h : gmap loc Headers) (st : State) : State :=
  mkState (this st) h (world st) (trace st).

(** [await f(arg)] for an external [f]: the event is recorded, then [f] runs
    on the world. *)
Definition call {A B} (ev : Event) (f : Hook A B) (arg : A) : Eff B :=
  λ st, let st1 := log ev st in
        let r := f arg (world st1) in
        (r.1, set_world r.2 st1).

(** A new header object with content [obj]. *)
Definition alloc (obj : Headers) : Eff loc :=
  λ st, let l := fresh (dom (heap st)) in
        (Returned l, set_heap (<[l := obj]> (heap st)) st).

(** The content of the header object at [l]. *)
Definition read (l : loc) : Eff Headers :=
  gets (λ st, default ∅ (heap st !! l)).

(** [obj[key] = value] on the header object at [l]. *)
Definition write (l : loc) (key value : string) : Eff unit :=
  λ st, (Returned tt,
         set_heap (<[l := <[key := value]> (default ∅ (heap st !! l))]>
                     (heap st)) st).

(** *** The constructor *)

(** [initializeInterceptors()] *)
Definition initializeInterceptors (self : HttpService) : HttpService :=
  match HttpModuleOptions.interceptors (options self) with
  | None => self
  | Some ic =>
      mkHttpService (options self) (agent self)
        (default [] (Interceptors.request ic))
        (default [] (Interceptors.response ic))
  end.

(** [createAgent()]: the configured agent, else a new one; [new_agent] is
    the [Agent] undici builds from the pool parameters. *)
Definition createAgent (opts : HttpModuleOptions.t) (new_agent : Agent)
  : Agent :=
  match HttpModuleOptions.agent opts with
  | Some a => a
  | None => new_agent
  end.

(** [new HttpService(options)] *)
Definition construct (opts : HttpModuleOptions.t) (new_agent : Agent)
  : HttpService :=
  initializeInterceptors
    (mkHttpService opts (createAgent opts new_agent) [] []).

(** *** The request builder *)

(** [a || b] on optional strings: the empty string is falsy. *)
Definition or_string (a : option string) (b : string) : string :=
  match a with
  | Some s => if Js.nonempty s then s else b
  | None => b
  end.

(** [a || b] on optional numbers: zero is falsy. *)
Definition or_number (a b : option Z) : option Z :=
  match a with
  | Some n => if n =? 0 then b else Some n
  | None => b
  end.

(** [`${v}`] for an optional string. *)
Definition template (v : option string) : string :=
  match v with
  | Some s => s
  | None => "undefined"
  end.

(** [shouldPrependBaseUrl(url)] *)
Definition shouldPrependBaseUrl (self : HttpService) (url : string) : bool :=
  match HttpModuleOptions.baseURL (options self) with
  | Some b => Js.nonempty b && negb (Js.startsWith url "http")
  | None => false
  end.

(** [appendQueryParams(url, params)]; on the values of [Js.Value]
    [new URLSearchParams] returns ([General.appendQueryParams] has the
    conversion that may throw). *)
Definition appendQueryParams (url : string)
    (params : option (list (string * Js.Value))) : string :=
  match params with
  | None => url
  | Some params =>
      let queryString :=
        Js.URLSearchParams_toString (Js.URLSearchParams params) in
      let separator := if Js.includes url "?" then "&" else "?" in
      url +:+ separator +:+ queryString
  end.

(** The URL before the query string is appended: [urlWithBase]. *)
Definition urlWithBase (self : HttpService) (config : RequestConfig.t)
  : string :=
  let baseUrl := or_string (RequestConfig.url config) EmptyString in
  if shouldPrependBaseUrl self baseUrl
  then template (HttpModuleOptions.baseURL (options self)) +:+ baseUrl
  else baseUrl.

(** [buildUrl(config)] *)
Definition buildUrl (self : HttpService) (config : RequestConfig.t) : string :=
  appendQueryParams (urlWithBase self config) (RequestConfig.params config).

(** [{ ...target, ...source }], one property at a time. *)
Definition spread (target source : Headers) : Headers :=
  map_fold (λ k v acc, <[k := v]> acc) target source.

(** [mergeHeaders(config)]: a new object. *)
Definition mergeHeaders (config : RequestConfig.t) : Eff loc :=
  let* self := gets this in
  let* defaults :=
    match HttpModuleOptions.headers (options self) with
    | Some l => read l
    | None => ret ∅
    end in
  alloc (spread (spread ∅ defaults)
                (default ∅ (RequestConfig.headers config))).

(** [isJsonSerializable(data)] *)
Definition isJsonSerializable (data : Js.Value) : bool :=
  bool_decide (Js.typeof data = "object") && negb (Js.instanceof_FormData data).

(** [prepareRequestBody(config, headers)]: may write to [headers]; on the
    values of [Js.Value] [JSON.stringify] returns
    ([General.prepareRequestBody] has the conversion that may throw). *)
Definition prepareRequestBody (config : RequestConfig.t) (headers : loc)
  : Eff Js.Value :=
  if negb (Js.truthy (RequestConfig.data config)) then ret Js.Undefined
  else
    let shouldStringify := isJsonSerializable (RequestConfig.data config) in
    if shouldStringify then
      let* hs := read headers in
      let* _ :=
        write headers "Content-Type"
          (or_string (hs !! "Content-Type")
                     HTTP_DEFAULTS.DEFAULT_CONTENT_TYPE) in
      ret (Js.JSON_stringify (RequestConfig.data config))
    else ret (RequestConfig.data config).

(** undici's [request(url, { ..., dispatcher })] *)
Definition undici_request (url : string) (opts : DispatchOptions.t)
    (dispatcher : Agent) : Eff RawResponse.t :=
  call (Dispatched url opts) (dispatch dispatcher url) opts.

(** [performRequest(url, config, headers, body)] *)
Definition performRequest (url : string) (config : RequestConfig.t)
    (headers : loc) (body : Js.Value) : Eff RawResponse.t :=
  let* self := gets this in
  let* hs := read headers in
  undici_request url
    (DispatchOptions.mk
       (default HTTP_DEFAULTS.DEFAULT_METHOD (RequestConfig.method config))
       hs body
       (or_number (RequestConfig.timeout config)
                  (HttpModuleOptions.timeout (options self))))
    (agent self).

(** *** The response decoder *)

Definition map_outcome {A B} (f : A → B) (o : Outcome A) : Outcome B :=
  match o with
  | Returned a => Returned (f a)
  | Thrown e => Thrown e
  end.

(** [parseResponseData(response, config)] *)
Definition parseResponseData (response : RawResponse.t)
    (config : RequestConfig.t) : Eff Js.Value :=
  let responseType :=
    default HTTP_DEFAULTS.DEFAULT_RESPONSE_TYPE
            (RequestConfig.responseType config) in
  match responseType with
  | json => settle (RawResponse.body_json response)
  | text => settle (map_outcome Js.Str (RawResponse.body_text response))
  | arraybuffer =>
      settle (map_outcome Js.Buffer (RawResponse.body_arrayBuffer response))
  | stream => ret (RawResponse.body response)
  end.

(** [getStatusText(statusCode)] *)
Definition getStatusText (statusCode : Z) : string :=
  if bool_decide (statusCode = HTTP_DEFAULTS.OK_STATUS)
  then HTTP_DEFAULTS.OK_STATUS_TEXT
  else HTTP_DEFAULTS.ERROR_STATUS_TEXT.

(** [createHttpResponse(response, data)] *)
Definition createHttpResponse (response : RawResponse.t) (data : Js.Value)
  : HttpResponse.t :=
  HttpResponse.mk data
    (RawResponse.statusCode response)
    (getStatusText (RawResponse.statusCode response))
    (RawResponse.headers response).

(** *** The interceptor chains *)

(** [if (interceptor.onError) await interceptor.onError(error)] *)
Definition notify (ev : Event) (onError : option (Hook Error unit))
    (error : Error) : Eff unit :=
  match onError with
  | Some hook => call ev hook error
  | None => ret tt
  end.

(** One turn of the loop of [applyRequestInterceptors], for the interceptor
    at position [i]. *)
Definition requestTurn (i : nat) (interceptor : RequestInterceptor.t)
    (finalConfig : RequestConfig.t) : Eff RequestConfig.t :=
  match RequestInterceptor.onRequest interceptor with
  | None => ret finalConfig
  | Some onRequest =>
      try_catch
        (call (OnRequestCalled i finalConfig) onRequest finalConfig)
        (λ error,
           let* _ := notify (RequestOnErrorCalled i error)
                            (RequestInterceptor.onError interceptor) error in
           throw error)
  end.

Fixpoint requestLoop (i : nat) (interceptors : list RequestInterceptor.t)
    (finalConfig : RequestConfig.t) : Eff RequestConfig.t :=
  match interceptors with
  | [] => ret finalConfig
  | interceptor :: rest =>
      let* finalConfig := requestTurn i interceptor finalConfig in
      requestLoop (S i) rest finalConfig
  end.

(** [applyRequestInterceptors(config)] *)
Definition applyRequestInterceptors (config : RequestConfig.t)
  : Eff RequestConfig.t :=
  let* interceptors := gets (λ st, requestInterceptors (this st)) in
  requestLoop 0 interceptors config.

(** One turn of the loop of [applyResponseInterceptors]. *)
Definition responseTurn (i : nat) (interceptor : ResponseInterceptor.t)
    (finalResponse : HttpResponse.t) : Eff HttpResponse.t :=
  match ResponseInterceptor.onResponse interceptor with
  | None => ret finalResponse
  | Some onResponse =>
      try_catch
        (call (OnResponseCalled i finalResponse) onResponse finalResponse)
        (λ error,
           let* _ := notify (ResponseOnErrorCalled i error)
                            (ResponseInterceptor.onError interceptor) error in
           throw error)
  end.

Fixpoint responseLoop (i : nat) (interceptors : list ResponseInterceptor.t)
    (finalResponse : HttpResponse.t) : Eff HttpResponse.t :=
  match interceptors with
  | [] => ret finalResponse
  | interceptor :: rest =>
      let* finalResponse := responseTurn i interceptor finalResponse in
      responseLoop (S i) rest finalResponse
  end.

(** [applyResponseInterceptors(response)] *)
Definition applyResponseInterceptors (response : HttpResponse.t)
  : Eff HttpResponse.t :=
  let* interceptors := gets (λ st, responseInterceptors (this st)) in
  responseLoop 0 interceptors response.

Fixpoint errorLoop (i : nat) (interceptors : list ResponseInterceptor.t)
    (error : Error) : Eff unit :=
  match interceptors with
  | [] => ret tt
  | interceptor :: rest =>
      let* _ := notify (ResponseOnErrorCalled i error)
                       (ResponseInterceptor.onError interceptor) error in
      errorLoop (S i) rest error
  end.

(** [handleRequestError(error)] *)
Definition handleRequestError (error : Error) : Eff unit :=
  let* interceptors := gets (λ st, responseInterceptors (this st)) in
  errorLoop 0 interceptors error.

(** *** The executor and the facade *)

(** [executeRequest(config)] *)
Definition executeRequest (config : RequestConfig.t) : Eff HttpResponse.t :=
  let* finalConfig := applyRequestInterceptors config in
  let* self := gets this in
  let url := buildUrl self finalConfig in
  let* headers := mergeHeaders finalConfig in
  let* body := prepareRequestBody finalConfig headers in
  try_catch
    (let* response := performRequest url finalConfig headers body in
     let* data := parseResponseData response finalConfig in
     let httpResponse := createHttpResponse response data in
     applyResponseInterceptors httpResponse)
    (λ error, let* _ := handleRequestError error in throw error).

(** [request(config)]: the promise of [executeRequest] as an observable
    whose error handler throws the error again. *)
Definition request (config : RequestConfig.t) : Eff HttpResponse.t :=
  try_catch (executeRequest config) (λ error, throw error).

(** [{ ...config, url, method }] and [{ ...config, url, method, data }] *)
Definition with_url_method (config : option RequestConfig.t) (url : string)
    (method : Method) : RequestConfig.t :=
  let c := default RequestConfig.empty config in
  RequestConfig.mk (Some url) (Some method) (RequestConfig.headers c)
    (RequestConfig.params c) (RequestConfig.data c) (RequestConfig.timeout c)
    (RequestConfig.responseType c).

Definition with_url_method_data (config : option RequestConfig.t)
    (url : string) (method : Method) (data : Js.Value) : RequestConfig.t :=
  let c := default RequestConfig.empty config in
  RequestConfig.mk (Some url) (Some method) (RequestConfig.headers c)
    (RequestConfig.params c) data (RequestConfig.timeout c)
    (RequestConfig.responseType c).

Definition get (url : string) (config : option RequestConfig.t)
  : Eff HttpResponse.t := request (with_url_method config url GET).

Definition post (url : string) (data : Js.Value)
    (config : option RequestConfig.t) : Eff HttpResponse.t :=
  request (with_url_method_data config url POST data).

Definition put (url : string) (data : Js.Value)
    (config : option RequestConfig.t) : Eff HttpResponse.t :=
  request (with_url_method_data config url PUT data).

Definition delete (url : string) (config : option RequestConfig.t)
  : Eff HttpResponse.t := request (with_url_method config url DELETE).

Definition patch (url : string) (data : Js.Value)
    (config : option RequestConfig.t) : Eff HttpResponse.t :=
  request (with_url_method_data config url PATCH data).

Definition head (url : string) (config : option RequestConfig.t)
  : Eff HttpResponse.t := request (with_url_method config url HEAD).

End Http.

(* ===================================================================== *)
(** ** What a call shows: the vocabulary of the properties *)
(* ===================================================================== *)

Module Obs.
Import Http.

(** The dispatches recorded in a trace: URL and options of each. *)
Definition dispatches (tr : list Event) : list (string * DispatchOptions.t) :=
  omap (λ ev, match ev with
              | Dispatched url opts => Some (url, opts)
              | _ => None
              end) tr.

(** The default headers [D] the client is configured with: the content of
    the header object [options.headers] refers to. *)
Definition defaultHeaders (st : State) : Headers :=
  match HttpModuleOptions.headers (options (this st)) with
  | Some l => default ∅ (heap st !! l)
  | None => ∅
  end.

(** The per-call headers [C] of a request descriptor. *)
Definition perCallHeaders (config : RequestConfig.t) : Headers :=
  default ∅ (RequestConfig.headers config).

(** [D] overlaid by [C]: the union in which [C] wins. *)
Definition overlay (D C : Headers) : Headers := C ∪ D.

(** The payload is present and goes through [JSON.stringify]. *)
Definition stringifies (config : RequestConfig.t) : bool :=
  Js.truthy (RequestConfig.data config) &&
  isJsonSerializable (RequestConfig.data config).

(** Header object, body and options as the transport is to receive them,
    as functions of the final request descriptor; [prepare_run] and
    [performRequest_run] show that [mergeHeaders], [prepareRequestBody] and
    [performRequest] compute exactly these. *)
Definition wireHeaders (st : State) (config : RequestConfig.t) : Headers :=
  let merged := overlay (defaultHeaders st) (perCallHeaders config) in
  if stringifies config
  then <["Content-Type" :=
          or_string (merged !! "Content-Type")
                    HTTP_DEFAULTS.DEFAULT_CONTENT_TYPE]> merged
  else merged.

Definition wireBody (config : RequestConfig.t) : Js.Value :=
  if negb (Js.truthy (RequestConfig.data config)) then Js.Undefined
  else if isJsonSerializable (RequestConfig.data config)
       then Js.JSON_stringify (RequestConfig.data config)
       else RequestConfig.data config.

Definition wireOptions (st : State) (config : RequestConfig.t)
  : DispatchOptions.t :=
  DispatchOptions.mk
    (default HTTP_DEFAULTS.DEFAULT_METHOD (RequestConfig.method config))
    (wireHeaders st config)
    (wireBody config)
    (or_number (RequestConfig.timeout config)
               (HttpModuleOptions.timeout (options (this st)))).

(** The state in which the transport is invoked, the request phase having
    ended in [st1]: the merged header object is in the store. *)
Definition dispatchState (st1 : State) (config : RequestConfig.t) : State :=
  set_heap (<[fresh (dom (heap st1)) := wireHeaders st1 config]> (heap st1))
           st1.

(** A structured payload: a plain object or an array. *)
Definition structured (v : Js.Value) : Prop :=
  match v with
  | Js.Object _ | Js.Array _ => True
  | _ => False
  end.

(** A payload that is no structured value: a primitive, a byte buffer, a
    stream or a multipart form. *)
Definition unstructured (v : Js.Value) : Prop :=
  match v with
  | Js.Object _ | Js.Array _ => False
  | _ => True
  end.

(** The interceptor at position [j] has an [onError] hook. *)
Definition hasOnError (ris : list ResponseInterceptor.t) (j : nat) : bool :=
  match ris !! j with
  | Some ri => bool_decide (is_Some (ResponseInterceptor.onError ri))
  | None => false
  end.

(** The positions with an [onError] hook, in registration order. *)
Definition errorPositions (ris : list ResponseInterceptor.t) : list nat :=
  filter (λ j, hasOnError ris j = true) (seq 0 (length ris)).

(** The events of a broadcast of [e]: one [onError] call per position. *)
Definition broadcast (ris : list ResponseInterceptor.t) (e : Error)
  : list Event :=
  (λ j, ResponseOnErrorCalled j e) <$> errorPositions ris.

(** The same from position [i] on, as the loop runs. *)
Fixpoint broadcastFrom (i : nat) (ris : list ResponseInterceptor.t)
    (e : Error) : list Event :=
  match ris with
  | [] => []
  | ri :: rest =>
      match ResponseInterceptor.onError ri with
      | Some _ => ResponseOnErrorCalled i e :: broadcastFrom (S i) rest e
      | None => broadcastFrom (S i) rest e
      end
  end.

(** No [onError] hook of the list throws on [e]. *)
Definition errorHooksReturn (ris : list ResponseInterceptor.t) (e : Error)
  : Prop :=
  ∀ ri hook w, ri ∈ ris → ResponseInterceptor.onError ri = Some hook →
               (hook e w).1 = Returned tt.

(** A string starts with a URI scheme (RFC 3986): a letter, then letters,
    digits, [+], [-] or [.], then a colon. *)
Definition is_alpha (c : ascii) : bool :=
  let n := nat_of_ascii c in
  ((65 <=? n) && (n <=? 90) || (97 <=? n) && (n <=? 122))%nat.

Definition is_scheme_char (c : ascii) : bool :=
  let n := nat_of_ascii c in
  is_alpha c ||
  ((48 <=? n) && (n <=? 57) || (n =? 43) || (n =? 45) || (n =? 46))%nat.

Fixpoint scheme_rest (s : string) : bool :=
  match s with
  | EmptyString => false
  | String c s' =>
      if (nat_of_ascii c =? 58)%nat then true
      else is_scheme_char c && scheme_rest s'
  end.

Definition starts_with_scheme (s : string) : bool :=
  match s with
  | EmptyString => false
  | String c s' => is_alpha c && scheme_rest s'
  end.

(** [c] occurs in [s]. *)
Fixpoint has_char (c : ascii) (s : string) : bool :=
  match s with
  | EmptyString => false
  | String a s' => Ascii.eqb a c || has_char c s'
  end.


(** The request operations of the facade, with their arguments. *)
Inductive Operation : Type :=
| Request (config : RequestConfig.t)
| Get (url : string) (config : option RequestConfig.t)
| Post (url : string) (data : Js.Value) (config : option RequestConfig.t)
| Put (url : string) (data : Js.Value) (config : option RequestConfig.t)
| Delete (url : string) (config : option RequestConfig.t)
| Patch (url : string) (data : Js.Value) (config : option RequestConfig.t)
| Head (url : string) (config : option RequestConfig.t).

Definition perform (op : Operation) : Eff HttpResponse.t :=
  match op with
  | Request config => request config
  | Get url config => get url config
  | Post url data config => post url data config
  | Put url data config => put url data config
  | Delete url config => delete url config
  | Patch url data config => patch url data config
  | Head url config => head url config
  end.

(** A computation relates every state to the state it leaves by [R]. *)
Definition keeps {A} (R : State → State → Prop) (c : Eff A) : Prop :=
  ∀ st, R st (c st).2.

(** Client and store are the same: only world and trace may differ. *)
Definition sameClient (st st' : State) : Prop :=
  this st' = this st ∧ heap st' = heap st.

(** No dispatch was added. *)
Definition sameDispatches (st st' : State) : Prop :=
  dispatches (trace st') = dispatches (trace st).

(** The client is the same, and so is every header object that existed. *)
Definition frame (st st' : State) : Prop :=
  this st' = this st ∧
  ∀ l, l ∈ dom (heap st) → heap st' !! l = heap st !! l.

End Obs.

(* ===================================================================== *)
(** ** Concrete clients and calls *)
(* ===================================================================== *)

Module Scenario.
Import Http.

(** A transport response with a JSON body. *)
Definition reply (status : Z) (payload : Js.Value) : RawResponse.t :=
  RawResponse.mk status ∅ (Returned payload)
    (Thrown (mkError "body is not text"))
    (Thrown (mkError "body is not binary"))
    (Js.Stream []).

Definition agentReturning (r : RawResponse.t) : Agent :=
  mkAgent (λ _ _ w, (Returned r, w)).

Definition agentFailing (e : Error) : Agent :=
  mkAgent (λ _ _ w, (Thrown e, w)).

Definition user : Js.Value :=
  Js.Object [("id", Js.Number 1); ("name", Js.Str "Test")].

(** The client of the test suite: a base URL and a timeout. *)
Definition testOptions (ic : option Interceptors.t) : HttpModuleOptions.t :=
  HttpModuleOptions.mk (Some "https://api.test.com") None (Some 5000) None
    None None None None None None None ic.

Definition start (self : HttpService) : State := mkState self ∅ ∅ [].

Definition plainClient : HttpService :=
  construct (testOptions None) (agentReturning (reply 200 user)).

Definition plainState : State := start plainClient.

Definition getUser : RequestConfig.t := with_url_method None "/users/1" GET.

(** An [onError] hook that counts its calls under [key] in the world. *)
Definition counting (key : string) : Hook Error unit :=
  λ _ w, (Returned tt,
          <[key := Js.Number (match w !! key with
                              | Some (Js.Number n) => n + 1
                              | _ => 1
                              end)]> w).

Definition networkError : Error := mkError "Network error".
Definition hookError : Error := mkError "interceptor failed".

(** Response interceptors: [failingA] throws in [onResponse] and counts its
    [onError] calls; [observerB] only counts its [onError] calls;
    [brokenA] throws in [onError]. *)
Definition failingA : ResponseInterceptor.t :=
  ResponseInterceptor.mk (Some (λ _ w, (Thrown hookError, w)))
                         (Some (counting "A.onError")).

Definition observerB : ResponseInterceptor.t :=
  ResponseInterceptor.mk None (Some (counting "B.onError")).

Definition brokenA : ResponseInterceptor.t :=
  ResponseInterceptor.mk None (Some (λ _ w, (Thrown hookError, w))).

Definition silentC : ResponseInterceptor.t :=
  ResponseInterceptor.mk (Some (λ r w, (Returned r, w))) None.

Definition withResponse (ris : list ResponseInterceptor.t) (a : Agent)
  : HttpService :=
  construct (testOptions (Some (Interceptors.mk None (Some ris)))) a.

(** Request interceptors: [tagA] adds a header, [rejectB] throws in
    [onRequest] and counts its [onError] calls, [tagC] adds another
    header and counts its [onError] calls. *)
Definition addHeader (key value : string) (config : RequestConfig.t)
  : RequestConfig.t :=
  RequestConfig.mk (RequestConfig.url config) (RequestConfig.method config)
    (Some (<[key := value]> (default ∅ (RequestConfig.headers config))))
    (RequestConfig.params config) (RequestConfig.data config)
    (RequestConfig.timeout config) (RequestConfig.responseType config).

Definition tagA : RequestInterceptor.t :=
  RequestInterceptor.mk (Some (λ c w, (Returned (addHeader "X-A" "1" c), w)))
                        (Some (counting "A.onError")).

Definition rejectB : RequestInterceptor.t :=
  RequestInterceptor.mk (Some (λ _ w, (Thrown hookError, w)))
                        (Some (counting "B.onError")).

Definition tagC : RequestInterceptor.t :=
  RequestInterceptor.mk (Some (λ c w, (Returned (addHeader "X-C" "1" c), w)))
                        (Some (counting "C.onError")).

(** A call whose first response interceptor throws in [onResponse], and a
    call whose transport fails while the first response interceptor throws
    in [onError]. *)
Definition failingRun : Outcome HttpResponse.t * State :=
  get "/users/1" None
    (start (withResponse [failingA; observerB; silentC]
                         (agentReturning (reply 200 user)))).

Definition brokenRun : Outcome HttpResponse.t * State :=
  get "/users/1" None
    (start (withResponse [brokenA; observerB] (agentFailing networkError))).

Definition observedState : State :=
  start (withResponse [failingA; observerB; silentC]
                      (agentFailing networkError)).

Definition withRequest (qis : list RequestInterceptor.t) : HttpService :=
  construct (testOptions (Some (Interceptors.mk (Some qis) None)))
            (agentReturning (reply 200 user)).

Definition rejectingState : State := start (withRequest [tagA; rejectB; tagC]).

(** A client whose default headers live in the store at location 0. *)
Definition sharedDefaults : State :=
  mkState
    (construct
       (HttpModuleOptions.mk (Some "https://api.test.com") (Some 0%nat) None
          None None None None None None None None None)
       (agentReturning (reply 200 user)))
    {[ 0%nat := {[ "User-Agent" := "My-App/1.0" ]} ]} ∅ [].

Definition newUser : Js.Value := Js.Object [("name", Js.Str "New User")].



Definition octets : RequestConfig.t :=
  RequestConfig.mk None None
    (Some {[ "Content-Type" := "application/octet-stream" ]})
    None Js.Undefined None None.

End Scenario.

(* ===================================================================== *)
(** ** The agent's pool parameters *)
(* ===================================================================== *)

Module Pool.
Import Http.

(** The pool constants of [HTTP_DEFAULTS] that [createAgent] falls back
    on.  They are defined in [src/constants/http-module.constant.ts],
    outside the files embedded here, and nothing below depends on their
    values: they are a parameter. *)
Record Defaults : Type := mkDefaults {
  CONNECTION_COUNT : Z;
  PIPELINING_LIMIT : Z;
  KEEP_ALIVE_TIMEOUT : Z;
  KEEP_ALIVE_MAX_TIMEOUT : Z;
  CONNECT_TIMEOUT : Z;
  BODY_TIMEOUT : Z;
  HEADERS_TIMEOUT : Z;
}.

(** The object [createAgent] passes to [new Agent]; [connect_timeout] is
    its [connect.timeout]. *)
Record AgentOptions : Type := mkAgentOptions {
  connections : Z;
  pipelining : Z;
  keepAliveTimeout : Z;
  keepAliveMaxTimeout : Z;
  connect_timeout : Z;
  bodyTimeout : Z;
  headersTimeout : Z;
}.

(** [a || d] for an optional number and a number: zero is falsy. *)
Definition or_default (a : option Z) (d : Z) : Z :=
  match a with
  | Some n => if n =? 0 then d else n
  | None => d
  end.

(** The argument of [new Agent] in [createAgent]. *)
Definition agentOptions (opts : HttpModuleOptions.t) (d : Defaults)
  : AgentOptions :=
  mkAgentOptions
    (or_default (HttpModuleOptions.connections opts) (CONNECTION_COUNT d))
    (or_default (HttpModuleOptions.pipelining opts) (PIPELINING_LIMIT d))
    (or_default (HttpModuleOptions.keepAliveTimeout opts)
                (KEEP_ALIVE_TIMEOUT d))
    (or_default (HttpModuleOptions.keepAliveMaxTimeout opts)
                (KEEP_ALIVE_MAX_TIMEOUT d))
    (or_default (HttpModuleOptions.connectTimeout opts) (CONNECT_TIMEOUT d))
    (or_default (HttpModuleOptions.bodyTimeout opts) (BODY_TIMEOUT d))
    (or_default (HttpModuleOptions.headersTimeout opts) (HEADERS_TIMEOUT d)).

(** [createAgent()], with undici's [new Agent] as [new_Agent]. *)
Definition createAgentWith (opts : HttpModuleOptions.t) (d : Defaults)
    (new_Agent : AgentOptions → Agent) : Agent :=
  createAgent opts (new_Agent (agentOptions opts d)).

(** [new HttpService(options)] *)
Definition constructWith (opts : HttpModuleOptions.t) (d : Defaults)
    (new_Agent : AgentOptions → Agent) : HttpService :=
  construct opts (new_Agent (agentOptions opts d)).

(** The same options with every pool parameter that is [0] left out. *)
Definition unset_zero (a : option Z) : option Z :=
  match a with
  | Some n => if n =? 0 then None else Some n
  | None => None
  end.

Definition unsetZeros (opts : HttpModuleOptions.t) : HttpModuleOptions.t :=
  HttpModuleOptions.mk
    (HttpModuleOptions.baseURL opts) (HttpModuleOptions.headers opts)
    (HttpModuleOptions.timeout opts) (HttpModuleOptions.agent opts)
    (unset_zero (HttpModuleOptions.connections opts))
    (unset_zero (HttpModuleOptions.pipelining opts))
    (unset_zero (HttpModuleOptions.keepAliveTimeout opts))
    (unset_zero (HttpModuleOptions.keepAliveMaxTimeout opts))
    (unset_zero (HttpModuleOptions.connectTimeout opts))
    (unset_zero (HttpModuleOptions.bodyTimeout opts))
    (unset_zero (HttpModuleOptions.headersTimeout opts))
    (HttpModuleOptions.interceptors opts).

(** The pool parameters of the options, in the order of the interface. *)
Definition configured (opts : HttpModuleOptions.t) : list (option Z) :=
  [ HttpModuleOptions.connections opts; HttpModuleOptions.pipelining opts;
    HttpModuleOptions.keepAliveTimeout opts;
    HttpModuleOptions.keepAliveMaxTimeout opts;
    HttpModuleOptions.connectTimeout opts; HttpModuleOptions.bodyTimeout opts;
    HttpModuleOptions.headersTimeout opts ].

Definition defaults (d : Defaults) : list Z :=
  [ CONNECTION_COUNT d; PIPELINING_LIMIT d; KEEP_ALIVE_TIMEOUT d;
    KEEP_ALIVE_MAX_TIMEOUT d; CONNECT_TIMEOUT d; BODY_TIMEOUT d;
    HEADERS_TIMEOUT d ].

Definition chosen (a : AgentOptions) : list Z :=
  [ connections a; pipelining a; keepAliveTimeout a; keepAliveMaxTimeout a;
    connect_timeout a; bodyTimeout a; headersTimeout a ].

End Pool.

(* ===================================================================== *)
(** ** The module wiring of [http.module.ts] *)
(* ===================================================================== *)

Module Wiring.
Import Http.

(** An injection token: a constant of the package, or a class. *)
Inductive Token : Type :=
| Named (key : string)
| Class (name : string).

Global Instance Token_eq_dec : EqDecision Token.
Proof. solve_decision. Defined.

Definition HttpServiceClass : Token := Class "HttpService".
Definition HttpModuleClass : Token := Class "HttpModule".

(** The factory of a factory provider: the caller's [useFactory], or the
    function [createClassProvider] writes,
    [async (optionsFactory) => optionsFactory.createHttpOptions()]. *)
Inductive Factory : Type :=
| UserFactory (f : list Js.Value → Outcome HttpModuleOptions.t)
| CreateHttpOptions.

Inductive Provided : Type :=
| OptionsValue (options : HttpModuleOptions.t)
| StringValue (s : string).

(** Nest's [Provider]: a value, factory or class provider, or a class
    listed as its own provider.  A token position that the code fills from
    an optional field holds [None] when the field is missing. *)
Inductive Provider : Type :=
| ValueProvider (provide : Token) (useValue : Provided)
| FactoryProvider (provide : Token) (useFactory : Factory)
    (inject : list (option Token))
| ClassProvider (provide : option Token) (useClass : option Token)
| TypeProvider (cls : Token).

(** [interface HttpModuleAsyncOptions] *)
Module AsyncOptions.
Record t : Type := mk {
  imports : option (list string);
  useExisting : option Token;
  useClass : option Token;
  useFactory : option (list Js.Value → Outcome HttpModuleOptions.t);
  inject : option (list Token);
  extraProviders : option (list Provider);
}.
End AsyncOptions.

(** Nest's [DynamicModule], with the keys the module sets. *)
Module DynamicModule.
Record t : Type := mk {
  module : Token;
  imports : option (list string);
  providers : list Provider;
  exports : list Token;
  global : option bool;
}.
End DynamicModule.

(** The token a provider provides. *)
Definition provides (p : Provider) : option Token :=
  match p with
  | ValueProvider t _ => Some t
  | FactoryProvider t _ _ => Some t
  | ClassProvider t _ => t
  | TypeProvider t => Some t
  end.

Section Tokens.

(** The tokens [HTTP_MODULE_OPTIONS] and [HTTP_MODULE_ID] of
    [src/constants/http-module.constant.ts]. *)
Context (HTTP_MODULE_OPTIONS HTTP_MODULE_ID : Token).

(** [createOptionsProvider(options)] *)
Definition createOptionsProvider (options : HttpModuleOptions.t) : Provider :=
  ValueProvider HTTP_MODULE_OPTIONS (OptionsValue options).

(** [createModuleIdProvider()]; [id] is what [randomStringGenerator()]
    returned. *)
Definition createModuleIdProvider (id : string) : Provider :=
  ValueProvider HTTP_MODULE_ID (StringValue id).

(** [createProviders(options)] *)
Definition createProviders (options : HttpModuleOptions.t) (id : string)
  : list Provider :=
  [ createOptionsProvider options;
    TypeProvider HttpServiceClass;
    createModuleIdProvider id ].

(** [register(options)] *)
Definition register (options : HttpModuleOptions.t) (id : string)
  : DynamicModule.t :=
  let providers := createProviders options id in
  DynamicModule.mk HttpModuleClass None providers [HttpServiceClass] None.

(** [shouldUseOptionsProviderOnly(options)] *)
Definition shouldUseOptionsProviderOnly (options : AsyncOptions.t) : bool :=
  bool_decide (is_Some (AsyncOptions.useExisting options)) ||
  bool_decide (is_Some (AsyncOptions.useFactory options)).

(** [createFactoryProvider(options)], reached with [useFactory] present. *)
Definition createFactoryProvider (options : AsyncOptions.t)
    (useFactory : list Js.Value → Outcome HttpModuleOptions.t) : Provider :=
  FactoryProvider HTTP_MODULE_OPTIONS (UserFactory useFactory)
    (Some <$> default [] (AsyncOptions.inject options)).

(** [a || b] on optional tokens. *)
Definition or_token (a b : option Token) : option Token :=
  match a with
  | Some t => Some t
  | None => b
  end.

(** [createClassProvider(options)] *)
Definition createClassProvider (options : AsyncOptions.t) : Provider :=
  FactoryProvider HTTP_MODULE_OPTIONS CreateHttpOptions
    [ or_token (AsyncOptions.useExisting options)
               (AsyncOptions.useClass options) ].

(** [createAsyncOptionsProvider(options)] *)
Definition createAsyncOptionsProvider (options : AsyncOptions.t) : Provider :=
  match AsyncOptions.useFactory options with
  | Some f => createFactoryProvider options f
  | None => createClassProvider options
  end.

(** [createAsyncProviders(options)] *)
Definition createAsyncProviders (options : AsyncOptions.t) : list Provider :=
  let optionsProvider := createAsyncOptionsProvider options in
  if shouldUseOptionsProviderOnly options then [optionsProvider]
  else
    let classProvider :=
      ClassProvider (AsyncOptions.useClass options)
                    (AsyncOptions.useClass options) in
    [optionsProvider; classProvider].

(** [registerAsync(options)] *)
Definition registerAsync (options : AsyncOptions.t) (id : string)
  : DynamicModule.t :=
  DynamicModule.mk HttpModuleClass
    (Some (default [] (AsyncOptions.imports options)))
    (createAsyncProviders options ++
     [ TypeProvider HttpServiceClass;
       ValueProvider HTTP_MODULE_ID (StringValue id) ] ++
     default [] (AsyncOptions.extraProviders options))
    [HttpServiceClass] None.

(** [dynamicModule.global = true] *)
Definition set_global (m : DynamicModule.t) : DynamicModule.t :=
  DynamicModule.mk (DynamicModule.module m) (DynamicModule.imports m)
    (DynamicModule.providers m) (DynamicModule.exports m) (Some true).

(** [forRoot(options)] *)
Definition forRoot (options : HttpModuleOptions.t) (id : string)
  : DynamicModule.t :=
  let dynamicModule := register options id in
  set_global dynamicModule.

(** [forRootAsync(options)] *)
Definition forRootAsync (options : AsyncOptions.t) (id : string)
  : DynamicModule.t :=
  let dynamicModule := registerAsync options id in
  set_global dynamicModule.

(** The four static methods that build the module, with their argument. *)
Inductive Registration : Type :=
| Register (options : HttpModuleOptions.t)
| RegisterAsync (options : AsyncOptions.t)
| ForRoot (options : HttpModuleOptions.t)
| ForRootAsync (options : AsyncOptions.t).

Definition build (r : Registration) (id : string) : DynamicModule.t :=
  match r with
  | Register options => register options id
  | RegisterAsync options => registerAsync options id
  | ForRoot options => forRoot options id
  | ForRootAsync options => forRootAsync options id
  end.

(** The provider of the module options a registration lists first. *)
Definition optionsProvider (r : Registration) : Provider :=
  match r with
  | Register options | ForRoot options => createOptionsProvider options
  | RegisterAsync options | ForRootAsync options =>
      createAsyncOptionsProvider options
  end.

End Tokens.

(** The same registration through the method that does not make the module
    global. *)
Definition scoped (r : Registration) : Registration :=
  match r with
  | ForRoot options => Register options
  | ForRootAsync options => RegisterAsync options
  | _ => r
  end.

Definition isRoot (r : Registration) : bool :=
  match r with
  | ForRoot _ | ForRootAsync _ => true
  | _ => false
  end.

(** What the caller of an asynchronous registration supplies besides the
    source of the options. *)
Definition asyncOptionsOf (r : Registration) : option AsyncOptions.t :=
  match r with
  | RegisterAsync options | ForRootAsync options => Some options
  | _ => None
  end.

End Wiring.

(* ===================================================================== *)
(** ** More vocabulary *)
(* ===================================================================== *)

Module More.
Import Http Obs.

(** The request descriptor an operation of the facade passes to
    [request]. *)
Definition configOf (op : Operation) : RequestConfig.t :=
  match op with
  | Request config => config
  | Get url config => with_url_method config url GET
  | Post url data config => with_url_method_data config url POST data
  | Put url data config => with_url_method_data config url PUT data
  | Delete url config => with_url_method config url DELETE
  | Patch url data config => with_url_method_data config url PATCH data
  | Head url config => with_url_method config url HEAD
  end.

(** The method an operation stands for. *)
Definition verbOf (op : Operation) : option Method :=
  match op with
  | Request config => RequestConfig.method config
  | Get _ _ => Some GET
  | Post _ _ _ => Some POST
  | Put _ _ _ => Some PUT
  | Delete _ _ => Some DELETE
  | Patch _ _ _ => Some PATCH
  | Head _ _ => Some HEAD
  end.

(** The URL argument of an operation. *)
Definition targetOf (op : Operation) : option string :=
  match op with
  | Request config => RequestConfig.url config
  | Get url _ | Post url _ _ | Put url _ _ | Delete url _ | Patch url _ _
  | Head url _ => Some url
  end.

(** The rest of the descriptor an operation was given. *)
Definition givenOf (op : Operation) : RequestConfig.t :=
  match op with
  | Request config => config
  | Get _ config | Post _ _ config | Put _ _ config | Delete _ config
  | Patch _ _ config | Head _ config => default RequestConfig.empty config
  end.

(** The payload of an operation: the [data] argument of the verbs that
    take one, the descriptor's [data] for the others. *)
Definition payloadOf (op : Operation) : Js.Value :=
  match op with
  | Post _ data _ | Put _ data _ | Patch _ data _ => data
  | _ => RequestConfig.data (givenOf op)
  end.

(** The invocations of [onError] hooks in a trace. *)
Definition isErrorCall (ev : Event) : bool :=
  match ev with
  | RequestOnErrorCalled _ _ | ResponseOnErrorCalled _ _ => true
  | _ => false
  end.

Definition errorCalls (tr : list Event) : list Event :=
  filter (λ ev, isErrorCall ev = true) tr.

(** The invocations of [onResponse] hooks in a trace. *)
Definition isResponseCall (ev : Event) : bool :=
  match ev with
  | OnResponseCalled _ _ => true
  | _ => false
  end.

Definition responseCalls (tr : list Event) : list Event :=
  filter (λ ev, isResponseCall ev = true) tr.

(** No [onError] hook was invoked between two states. *)
Definition sameErrorCalls (st st' : State) : Prop :=
  errorCalls (trace st') = errorCalls (trace st).

(** The invocations of request interceptor hooks in a trace. *)
Definition isRequestHook (ev : Event) : bool :=
  match ev with
  | OnRequestCalled _ _ | RequestOnErrorCalled _ _ => true
  | _ => false
  end.

Definition requestHookCalls (tr : list Event) : list Event :=
  filter (λ ev, isRequestHook ev = true) tr.

(** No hook of a request interceptor was invoked between two states. *)
Definition sameRequestHooks (st st' : State) : Prop :=
  requestHookCalls (trace st') = requestHookCalls (trace st).

(** The interceptor lists the options configure: [[]] where the key is
    missing. *)
Definition configuredRequest (opts : HttpModuleOptions.t)
  : list RequestInterceptor.t :=
  match HttpModuleOptions.interceptors opts with
  | Some ic => default [] (Interceptors.request ic)
  | None => []
  end.

Definition configuredResponse (opts : HttpModuleOptions.t)
  : list ResponseInterceptor.t :=
  match HttpModuleOptions.interceptors opts with
  | Some ic => default [] (Interceptors.response ic)
  | None => []
  end.

(** The state a call is in once the transport has answered with world
    [w]: the merged header object is in the store and the dispatch is the
    last event; [st] is the state the call started in, [st1] the one the
    request chain left. *)
Definition answeredState (st st1 : State) (config : RequestConfig.t)
    (w : World) : State :=
  set_world w
    (log (Dispatched (buildUrl (this st) config) (wireOptions st config))
         (dispatchState st1 config)).

(** A computation relates a state to the state it leaves by [R] whenever
    it returns. *)
Definition keepsOnReturn {A} (R : State → State → Prop) (c : Eff A) : Prop :=
  ∀ st a st', c st = (Returned a, st') → R st st'.

(** A computation that never returns: it throws on every state. *)
Definition neverReturns {A} (c : Eff A) : Prop :=
  ∀ st, ∃ e st', c st = (Thrown e, st').

End More.

(* ===================================================================== *)
(** ** The request chain, as the specification words it *)
(* ===================================================================== *)

Module Chain.
Import Http.

(** The [onRequest] hooks that are present, each with the position of its
    interceptor, in registration order; positions count from [i]. *)
Fixpoint presentFrom (i : nat) (qis : list RequestInterceptor.t)
  : list (nat * Hook RequestConfig.t RequestConfig.t) :=
  match qis with
  | [] => []
  | qi :: rest =>
      match RequestInterceptor.onRequest qi with
      | Some hook => (i, hook) :: presentFrom (S i) rest
      | None => presentFrom (S i) rest
      end
  end.

Definition present (qis : list RequestInterceptor.t)
  : list (nat * Hook RequestConfig.t RequestConfig.t) := presentFrom 0 qis.

(** How a chain ends: every hook returned and [config] comes out, or the
    hook at position [i] threw [error]. *)
Inductive Ending : Type :=
| Passed (config : RequestConfig.t)
| Failed (i : nat) (error : Error).

(** What a chain did: the hook invocations in order, each with the
    position of the interceptor and the descriptor it received; how it
    ended; and the world the last hook left. *)
Record Run : Type := mkRun {
  calls : list (nat * RequestConfig.t);
  ending : Ending;
  after : World;
}.

(** The chain of the specification: the hooks run in the given order,
    each receives what the previous one returned, and the first one that
    throws ends the chain. *)
Fixpoint inOrder (hooks : list (nat * Hook RequestConfig.t RequestConfig.t))
    (config : RequestConfig.t) (w : World) : Run :=
  match hooks with
  | [] => mkRun [] (Passed config) w
  | (i, hook) :: rest =>
      match hook config w with
      | (Returned config', w') =>
          let run := inOrder rest config' w' in
          mkRun ((i, config) :: calls run) (ending run) (after run)
      | (Thrown e, w') => mkRun [(i, config)] (Failed i e) w'
      end
  end.

(** The events of the invocations. *)
Definition events (run : Run) : list Event :=
  (λ ic, OnRequestCalled ic.1 ic.2) <$> calls run.

(** The [onRequest] hook of the interceptor at position [i]. *)
Definition hookAt (qis : list RequestInterceptor.t) (i : nat)
  : option (Hook RequestConfig.t RequestConfig.t) :=
  qis !! i ≫= RequestInterceptor.onRequest.

End Chain.

(* ===================================================================== *)
(** ** The executor on every JavaScript value *)
(* ===================================================================== *)

(** [Js.Value] has no cyclic object, no BigInt and no Symbol, so on its
    values neither [JSON.stringify] nor [new URLSearchParams] throws, and
    [Http.buildUrl] and [Http.prepareRequestBody] are total.  Here the two
    conversions are parameters that return or throw, as the platform's do
    on every value, and the executor is the same code over them. *)
Module General.
Import Http Obs.
Local Open Scope eff_scope.

Section Conversions.

(** [JSON.stringify(value)] and [new URLSearchParams(record).toString()] *)
Context (JSON_stringify : Js.Value → Outcome Js.Value)
        (URLSearchParams_toString : list (string * Js.Value) → Outcome string).

(** [appendQueryParams(url, params)] *)
Definition appendQueryParams (url : string)
    (params : option (list (string * Js.Value))) : Eff string :=
  match params with
  | None => ret url
  | Some params =>
      let* queryString := settle (URLSearchParams_toString params) in
      let separator := if Js.includes url "?" then "&" else "?" in
      ret (url +:+ separator +:+ queryString)
  end.

(** [buildUrl(config)] *)
Definition buildUrl (self : HttpService) (config : RequestConfig.t)
  : Eff string :=
  appendQueryParams (urlWithBase self config) (RequestConfig.params config).

(** [prepareRequestBody(config, headers)]: the header is written before
    the payload is serialized. *)
Definition prepareRequestBody (config : RequestConfig.t) (headers : loc)
  : Eff Js.Value :=
  if negb (Js.truthy (RequestConfig.data config)) then ret Js.Undefined
  else
    let shouldStringify := isJsonSerializable (RequestConfig.data config) in
    if shouldStringify then
      let* hs := read headers in
      let* _ :=
        write headers "Content-Type"
          (or_string (hs !! "Content-Type")
                     HTTP_DEFAULTS.DEFAULT_CONTENT_TYPE) in
      settle (JSON_stringify (RequestConfig.data config))
    else ret (RequestConfig.data config).

(** [executeRequest(config)]: URL, headers and body are prepared before
    the [try]. *)
Definition executeRequest (config : RequestConfig.t) : Eff HttpResponse.t :=
  let* finalConfig := applyRequestInterceptors config in
  let* self := gets this in
  let* url := buildUrl self finalConfig in
  let* headers := mergeHeaders finalConfig in
  let* body := prepareRequestBody finalConfig headers in
  try_catch
    (let* response := performRequest url finalConfig headers body in
     let* data := parseResponseData response finalConfig in
     let httpResponse := createHttpResponse response data in
     applyResponseInterceptors httpResponse)
    (λ error, let* _ := handleRequestError error in throw error).

(** The [try] of [executeRequest] with its [catch], the [performRequest]
    in it having read the header object and the agent. *)
Definition attempt (url : string) (opts : DispatchOptions.t)
    (dispatcher : Agent) (config : RequestConfig.t) : Eff HttpResponse.t :=
  try_catch
    (let* response := undici_request url opts dispatcher in
     let* data := parseResponseData response config in
     let httpResponse := createHttpResponse response data in
     applyResponseInterceptors httpResponse)
    (λ error, let* _ := handleRequestError error in throw error).

(** What the preparation comes to, as a function of the final request
    descriptor: the URL, or the error of the parameter conversion. *)
Definition preparedUrl (self : HttpService) (config : RequestConfig.t)
  : Outcome string :=
  match RequestConfig.params config with
  | None => Returned (urlWithBase self config)
  | Some params =>
      match URLSearchParams_toString params with
      | Returned queryString =>
          let url := urlWithBase self config in
          Returned (url +:+ (if Js.includes url "?" then "&" else "?")
                        +:+ queryString)
      | Thrown e => Thrown e
      end
  end.

(** The body, or the error of the serialization. *)
Definition preparedBody (config : RequestConfig.t) : Outcome Js.Value :=
  if negb (Js.truthy (RequestConfig.data config)) then Returned Js.Undefined
  else if isJsonSerializable (RequestConfig.data config)
       then JSON_stringify (RequestConfig.data config)
       else Returned (RequestConfig.data config).

(** URL and options as the transport is to receive them, or the error
    that ends the preparation: the URL is built first. *)
Definition prepared (st : State) (config : RequestConfig.t)
  : Outcome (string * DispatchOptions.t) :=
  match preparedUrl (this st) config with
  | Thrown e => Thrown e
  | Returned url =>
      match preparedBody config with
      | Thrown e => Thrown e
      | Returned body =>
          Returned
            (url,
             DispatchOptions.mk
               (default HTTP_DEFAULTS.DEFAULT_METHOD
                        (RequestConfig.method config))
               (wireHeaders st config) body
               (or_number (RequestConfig.timeout config)
                          (HttpModuleOptions.timeout (options (this st)))))
      end
  end.

End Conversions.

(** The conversions on the values of [Js.Value]: they return. *)
Definition plain_stringify (v : Js.Value) : Outcome Js.Value :=
  Returned (Js.JSON_stringify v).

Definition plain_toString (record : list (string * Js.Value))
  : Outcome string :=
  Returned (Js.URLSearchParams_toString (Js.URLSearchParams record)).

End General.

(* ===================================================================== *)
(** ** More concrete clients and calls *)
(* ===================================================================== *)

Module Cases.
Import Http.

Definition decodeError : Error := mkError "Unexpected token in JSON".

(** A response whose body is text, not JSON. *)
Definition textReply : RawResponse.t :=
  RawResponse.mk 200 ∅ (Thrown decodeError) (Returned "hello")
    (Thrown decodeError) (Js.Stream []).

Definition textState : State :=
  Scenario.start (Scenario.withResponse [Scenario.observerB; Scenario.silentC]
                    (Scenario.agentReturning textReply)).

Definition plainTextState : State :=
  Scenario.start (construct (Scenario.testOptions None)
                            (Scenario.agentReturning textReply)).

(** A client whose response interceptors have [onError] hooks, and whose
    transport answers. *)
Definition quietState : State :=
  Scenario.start
    (Scenario.withResponse [Scenario.observerB; Scenario.silentC]
       (Scenario.agentReturning (Scenario.reply 200 Scenario.user))).

Definition observedOnly : State :=
  Scenario.start
    (Scenario.withResponse [Scenario.observerB]
       (Scenario.agentReturning (Scenario.reply 200 Scenario.user))).

Definition asStream : RequestConfig.t :=
  RequestConfig.mk (Some "/file") None None None Js.Undefined None
                   (Some stream).

Definition timed (t : Z) : RequestConfig.t :=
  RequestConfig.mk (Some "/slow") None None None Js.Undefined (Some t) None.

Definition noParams : RequestConfig.t :=
  RequestConfig.mk None None None (Some []) Js.Undefined None None.

Definition lowerCasePost : RequestConfig.t :=
  RequestConfig.mk (Some "/users") (Some POST)
    (Some {[ "content-type" := "text/plain" ]})
    None Scenario.newUser None None.

(** Response interceptors whose second [onError] hook throws. *)
Definition brokenSecond : State :=
  Scenario.start
    (Scenario.withResponse
       [Scenario.observerB; Scenario.brokenA; Scenario.failingA]
       (Scenario.agentFailing Scenario.networkError)).

Definition failingSecond : State :=
  Scenario.start
    (Scenario.withResponse
       [Scenario.silentC; Scenario.failingA; Scenario.observerB]
       (Scenario.agentReturning (Scenario.reply 200 Scenario.user))).

Definition envelope : HttpResponse.t :=
  createHttpResponse (Scenario.reply 200 Scenario.user) Scenario.user.

(** Request interceptors with no [onRequest] hook. *)
Definition idle : RequestInterceptor.t :=
  RequestInterceptor.mk None (Some (Scenario.counting "idle.onError")).

Definition idleState : State :=
  Scenario.start (Scenario.withRequest [idle; idle]).

Definition lateReject : State :=
  Scenario.start
    (Scenario.withRequest
       [idle; Scenario.tagA; Scenario.rejectB; Scenario.tagC]).

(** Request interceptors whose hooks all return; the second has none. *)
Definition allReturn : State :=
  Scenario.start (Scenario.withRequest [Scenario.tagA; idle; Scenario.tagC]).

(** A client with two default headers, in the store at location 0, and a
    post with a structured payload whose own headers override one of
    them. *)
Definition twoDefaults : State :=
  mkState
    (construct
       (HttpModuleOptions.mk (Some "https://api.test.com") (Some 0%nat) None
          None None None None None None None None None)
       (Scenario.agentReturning (Scenario.reply 200 Scenario.user)))
    {[ 0%nat := {[ "Accept" := "application/json";
                   "User-Agent" := "My-App/1.0" ]} ]} ∅ [].

Definition overriding : RequestConfig.t :=
  RequestConfig.mk (Some "/users") (Some POST)
    (Some {[ "User-Agent" := "Custom/2.0"; "X-Request-Id" := "42" ]})
    None Scenario.newUser None None.

(** Conversions that throw, as the platform's do on a cyclic object and
    on a Symbol, and calls to try them on. *)
Definition circularError : Error :=
  mkError "Converting circular structure to JSON".

Definition circular (v : Js.Value) : Outcome Js.Value := Thrown circularError.

Definition symbolError : Error :=
  mkError "Cannot convert a Symbol value to a string".

Definition symbolic (record : list (string * Js.Value)) : Outcome string :=
  Thrown symbolError.

Definition postUser : RequestConfig.t :=
  with_url_method_data None "/users" POST Scenario.newUser.

(** The JSON text of [Scenario.newUser], character by character. *)
Definition quoted (s : string) : string :=
  String Js.dquote (s +:+ String Js.dquote EmptyString).

Definition newUserText : string :=
  "{" +:+ quoted "name" +:+ ":" +:+ quoted "New User" +:+ "}".

Definition searchUsers : RequestConfig.t :=
  RequestConfig.mk (Some "/users") (Some GET) None
    (Some [("q", Js.Str "a")]) Js.Undefined None None.

Definition poolDefaults : Pool.Defaults :=
  Pool.mkDefaults 10 10 4000 600000 10000 30000 30000.

Definition zeroPipelining : HttpModuleOptions.t :=
  HttpModuleOptions.mk (Some "https://api.test.com") None None None
    (Some 50) (Some 0) None None None None None None.

Definition failingPool (a : Pool.AgentOptions) : Agent :=
  Scenario.agentFailing Scenario.networkError.

Definition pooledState : State :=
  Scenario.start
    (Pool.constructWith zeroPipelining poolDefaults failingPool).

(** A client with a request and a response interceptor whose transport
    fails. *)
Definition bothSides : State :=
  Scenario.start
    (construct
       (Scenario.testOptions
          (Some (Interceptors.mk (Some [Scenario.tagA])
                                 (Some [Scenario.observerB]))))
       (Scenario.agentFailing Scenario.networkError)).

Definition OPTIONS : Wiring.Token := Wiring.Named "HTTP_MODULE_OPTIONS".
Definition ID : Wiring.Token := Wiring.Named "HTTP_MODULE_ID".

Definition classOnly : Wiring.AsyncOptions.t :=
  Wiring.AsyncOptions.mk (Some ["ConfigModule"]) None
    (Some (Wiring.Class "ConfigService")) None None
    (Some [Wiring.TypeProvider (Wiring.Class "Logger")]).

End Cases.

(* ===================================================================== *)
(** ** Lemmas: the effect monad *)
(* ===================================================================== *)

Import Http Obs.
Local Open Scope eff_scope.

Lemma bind_returned {A B} (c : Eff A) (k : A → Eff B) st a st' :
  c st = (Returned a, st') → bind c k st = k a st'.
Proof. intros H. unfold bind. by rewrite H. Qed.

Lemma bind_thrown {A B} (c : Eff A) (k : A → Eff B) st e st' :
  c st = (Thrown e, st') → bind c k st = (Thrown e, st').
Proof. intros H. unfold bind. by rewrite H. Qed.

Lemma try_catch_returned {A} (c : Eff A) handler st a st' :
  c st = (Returned a, st') → try_catch c handler st = (Returned a, st').
Proof. intros H. unfold try_catch. by rewrite H. Qed.

Lemma try_catch_thrown {A} (c : Eff A) handler st e st' :
  c st = (Thrown e, st') → try_catch c handler st = handler e st'.
Proof. intros H. unfold try_catch. by rewrite H. Qed.

Lemma bind_ret_r {A} (c : Eff A) st : bind c (λ a, ret a) st = c st.
Proof. unfold bind, ret. by destruct (c st) as [[a|e] st']. Qed.

(** Rethrowing in the handler changes nothing. *)
Lemma try_catch_rethrow {A} (c : Eff A) st :
  try_catch c (λ error, throw error) st = c st.
Proof. unfold try_catch, throw. by destruct (c st) as [[a|e] st']. Qed.

Section Keeps.
Context (R : State → State → Prop) `{!PreOrder R}.

Lemma keeps_ret {A} (a : A) : keeps R (ret a).
Proof. intros st. reflexivity. Qed.

Lemma keeps_throw {A} e : keeps R (throw (A:=A) e).
Proof. intros st. reflexivity. Qed.

Lemma keeps_gets {A} (f : State → A) : keeps R (gets f).
Proof. intros st. reflexivity. Qed.

Lemma keeps_settle {A} (o : Outcome A) : keeps R (settle o).
Proof. intros st. reflexivity. Qed.

Lemma keeps_bind {A B} (c : Eff A) (k : A → Eff B) :
  keeps R c → (∀ a, keeps R (k a)) → keeps R (bind c k).
Proof.
  intros Hc Hk st. unfold bind. specialize (Hc st).
  destruct (c st) as [[a|e] st']; simpl in *; [|done].
  etrans; [exact Hc|apply Hk].
Qed.

Lemma keeps_try_catch {A} (c : Eff A) handler :
  keeps R c → (∀ e, keeps R (handler e)) → keeps R (try_catch c handler).
Proof.
  intros Hc Hh st. unfold try_catch. specialize (Hc st).
  destruct (c st) as [[a|e] st']; simpl in *; [done|].
  etrans; [exact Hc|apply Hh].
Qed.

(** An external call keeps [R] when logging its event and replacing the
    world do. *)
Lemma keeps_call {A B} ev (f : Hook A B) arg :
  (∀ st w, R st (set_world w (log ev st))) → keeps R (call ev f arg).
Proof. intros H st. unfold call. simpl. apply H. Qed.

Lemma keeps_notify ev onError e :
  (∀ st w, R st (set_world w (log ev st))) → keeps R (notify ev onError e).
Proof.
  intros H. unfold notify. destruct onError; [by apply keeps_call|].
  apply keeps_ret.
Qed.

End Keeps.

Global Instance sameClient_preorder : PreOrder sameClient.
Proof.
  split; [done|]. intros x y z [H1 H2] [H3 H4]. split; congruence.
Qed.

Global Instance sameDispatches_preorder : PreOrder sameDispatches.
Proof. split; [done|]. unfold sameDispatches. intros x y z. congruence. Qed.

Lemma dispatches_app tr1 tr2 :
  dispatches (tr1 ++ tr2) = dispatches tr1 ++ dispatches tr2.
Proof. unfold dispatches. apply omap_app. Qed.

Lemma sameDispatches_call st w ev :
  dispatches [ev] = [] → sameDispatches st (set_world w (log ev st)).
Proof.
  intros H. unfold sameDispatches. simpl. rewrite dispatches_app, H.
  by rewrite app_nil_r.
Qed.

(* ===================================================================== *)
(** ** Lemmas: what the phases leave unchanged *)
(* ===================================================================== *)

Section Quiet.
Context (R : State → State → Prop) `{!PreOrder R}.
Hypothesis R_call :
  ∀ st w ev, dispatches [ev] = [] → R st (set_world w (log ev st)).

(** Goals [keeps R c], for [c] built from the monad's operations and from
    calls that log no dispatch, go by the structure of [c]. *)
Ltac keeps_step :=
  first
    [ by apply keeps_ret
    | by apply keeps_throw
    | by apply keeps_gets
    | by apply keeps_settle
    | by (apply keeps_call; intros; apply R_call)
    | by (apply keeps_notify; [done|]; intros; apply R_call)
    | apply keeps_bind; [done| |]
    | apply keeps_try_catch; [done| |]
    | intros ? ].

Lemma keeps_requestTurn i interceptor config :
  keeps R (requestTurn i interceptor config).
Proof.
  unfold requestTurn.
  destruct (RequestInterceptor.onRequest interceptor); repeat keeps_step.
Qed.

Lemma keeps_requestLoop interceptors : ∀ i config,
  keeps R (requestLoop i interceptors config).
Proof.
  induction interceptors as [|x rest IH]; intros i config; simpl.
  - keeps_step.
  - keeps_step; [apply keeps_requestTurn|]. intros c. apply IH.
Qed.

Lemma keeps_applyRequestInterceptors config :
  keeps R (applyRequestInterceptors config).
Proof.
  unfold applyRequestInterceptors. keeps_step; [keeps_step|].
  intros l. apply keeps_requestLoop.
Qed.

Lemma keeps_responseTurn i interceptor response :
  keeps R (responseTurn i interceptor response).
Proof.
  unfold responseTurn.
  destruct (ResponseInterceptor.onResponse interceptor); repeat keeps_step.
Qed.

Lemma keeps_responseLoop interceptors : ∀ i response,
  keeps R (responseLoop i interceptors response).
Proof.
  induction interceptors as [|x rest IH]; intros i response; simpl.
  - keeps_step.
  - keeps_step; [apply keeps_responseTurn|]. intros c. apply IH.
Qed.

Lemma keeps_applyResponseInterceptors response :
  keeps R (applyResponseInterceptors response).
Proof.
  unfold applyResponseInterceptors. keeps_step; [keeps_step|].
  intros l. apply keeps_responseLoop.
Qed.

Lemma keeps_errorLoop interceptors : ∀ i e,
  keeps R (errorLoop i interceptors e).
Proof.
  induction interceptors as [|x rest IH]; intros i e; simpl.
  - keeps_step.
  - keeps_step; [keeps_step|]. intros _. apply IH.
Qed.

Lemma keeps_handleRequestError e : keeps R (handleRequestError e).
Proof.
  unfold handleRequestError. keeps_step; [keeps_step|].
  intros l. apply keeps_errorLoop.
Qed.

Lemma keeps_parseResponseData response config :
  keeps R (parseResponseData response config).
Proof. unfold parseResponseData. destruct (default _ _); keeps_step. Qed.

(** What follows the transport's answer: decoding, the response chain. *)
Lemma keeps_afterDispatch response config :
  keeps R (let* data := parseResponseData response config in
           applyResponseInterceptors (createHttpResponse response data)).
Proof.
  keeps_step; [apply keeps_parseResponseData|].
  intros d. apply keeps_applyResponseInterceptors.
Qed.

(** The error path of [executeRequest]. *)
Lemma keeps_errorPath e :
  keeps R (let* _ := handleRequestError e in throw (A:=HttpResponse.t) e).
Proof. keeps_step; [apply keeps_handleRequestError|repeat keeps_step]. Qed.

End Quiet.

Lemma sameClient_quiet st w ev :
  dispatches [ev] = [] → sameClient st (set_world w (log ev st)).
Proof. done. Qed.

(* ===================================================================== *)
(** ** Lemmas: the request builder, run *)
(* ===================================================================== *)

Lemma spread_union (target source : Headers) :
  spread target source = source ∪ target.
Proof.
  unfold spread.
  apply (map_fold_weak_ind (λ r m, r = m ∪ target)).
  - by rewrite (left_id_L ∅ (∪)).
  - intros k v m r Hk ->. by rewrite insert_union_l.
Qed.

Lemma spread_overlay (D C : Headers) : spread (spread ∅ D) C = overlay D C.
Proof.
  unfold overlay. rewrite !spread_union. by rewrite (right_id_L ∅ (∪)).
Qed.

Lemma set_heap_same st : set_heap (heap st) st = st.
Proof. by destruct st. Qed.

Lemma mergeHeaders_run config st :
  mergeHeaders config st =
  (Returned (fresh (dom (heap st))),
   set_heap (<[fresh (dom (heap st)) :=
               overlay (defaultHeaders st) (perCallHeaders config)]> (heap st))
            st).
Proof.
  unfold mergeHeaders, bind, gets, alloc, defaultHeaders, perCallHeaders.
  simpl. destruct (HttpModuleOptions.headers (options (this st))) as [l|];
    simpl; by rewrite spread_overlay.
Qed.

Lemma prepareRequestBody_run config l st m :
  heap st !! l = Some m →
  prepareRequestBody config l st =
  (Returned (wireBody config),
   set_heap (<[l := if stringifies config
                    then <["Content-Type" :=
                            or_string (m !! "Content-Type")
                              HTTP_DEFAULTS.DEFAULT_CONTENT_TYPE]> m
                    else m]> (heap st)) st).
Proof.
  intros Hl. unfold prepareRequestBody, wireBody, stringifies.
  destruct (Js.truthy (RequestConfig.data config)); simpl.
  - destruct (isJsonSerializable (RequestConfig.data config)); simpl.
    + unfold bind, read, gets, write, ret. simpl. by rewrite Hl.
    + unfold ret. by rewrite insert_id, set_heap_same.
  - unfold ret. by rewrite insert_id, set_heap_same.
Qed.

(** Header merge and body preparation, in sequence. *)
Lemma prepare_run {A} config (k : nat → Js.Value → Eff A) st :
  (let* headers := mergeHeaders config in
   let* body := prepareRequestBody config headers in
   k headers body) st =
  k (fresh (dom (heap st))) (wireBody config) (dispatchState st config).
Proof.
  rewrite (bind_returned _ _ _ _ _ (mergeHeaders_run config st)).
  erewrite bind_returned; last first.
  { apply prepareRequestBody_run. simpl. apply lookup_insert_eq. }
  unfold dispatchState, wireHeaders, set_heap. simpl.
  by rewrite insert_insert_eq.
Qed.

Lemma performRequest_run url config st :
  performRequest url config (fresh (dom (heap st))) (wireBody config)
                 (dispatchState st config) =
  undici_request url (wireOptions st config) (agent (this st))
                 (dispatchState st config).
Proof.
  unfold performRequest, bind, gets, read, wireOptions, dispatchState.
  simpl. by rewrite lookup_insert_eq.
Qed.


(* ===================================================================== *)
(** ** Lemmas: the executor, run *)
(* ===================================================================== *)

Lemma requestPhase_sameClient config st :
  sameClient st (applyRequestInterceptors config st).2.
Proof.
  apply (keeps_applyRequestInterceptors sameClient). intros. done.
Qed.

Lemma requestPhase_sameDispatches config st :
  sameDispatches st (applyRequestInterceptors config st).2.
Proof.
  apply (keeps_applyRequestInterceptors sameDispatches).
  intros. by apply sameDispatches_call.
Qed.

Lemma wireOptions_sameClient st st' config :
  sameClient st st' → wireOptions st' config = wireOptions st config.
Proof.
  intros [Ht Hh].
  unfold wireOptions, wireHeaders, defaultHeaders. by rewrite Ht, Hh.
Qed.

(** A call whose request chain throws ends there. *)
Lemma executeRequest_request_throws config st e st1 :
  applyRequestInterceptors config st = (Thrown e, st1) →
  executeRequest config st = (Thrown e, st1).
Proof. intros H. unfold executeRequest. by apply bind_thrown. Qed.

(** A call whose request chain returns [fc] goes on to dispatch, in the
    state [dispatchState st1 fc], with URL and options computed from [fc]. *)
Lemma executeRequest_run config st fc st1 :
  applyRequestInterceptors config st = (Returned fc, st1) →
  executeRequest config st =
  try_catch
    (let* response :=
       undici_request (buildUrl (this st) fc) (wireOptions st fc)
                      (agent (this st)) in
     let* data := parseResponseData response fc in
     applyResponseInterceptors (createHttpResponse response data))
    (λ error, let* _ := handleRequestError error in throw error)
    (dispatchState st1 fc).
Proof.
  intros H. pose proof (requestPhase_sameClient config st) as Hs.
  rewrite H in Hs. simpl in Hs.
  unfold executeRequest. rewrite (bind_returned _ _ _ _ _ H).
  unfold bind at 1, gets at 1.
  rewrite (prepare_run fc
    (λ headers body,
       try_catch
         (let* response :=
            performRequest (buildUrl (this st1) fc) fc headers body in
          let* data := parseResponseData response fc in
          applyResponseInterceptors (createHttpResponse response data))
         (λ error, let* _ := handleRequestError error in throw error))).
  unfold try_catch. unfold bind at 1 4.
  rewrite performRequest_run, (wireOptions_sameClient _ _ _ Hs).
  by destruct Hs as [-> _].
Qed.

Lemma dispatches_log_dispatch tr url opts :
  dispatches (tr ++ [Dispatched url opts]) = dispatches tr ++ [(url, opts)].
Proof. by rewrite dispatches_app. Qed.

(** Exactly one dispatch per call that gets past the request chain, with
    the URL and the options computed from the final request descriptor. *)
Lemma executeRequest_dispatches config st fc st1 :
  applyRequestInterceptors config st = (Returned fc, st1) →
  dispatches (trace (executeRequest config st).2) =
  dispatches (trace st) ++ [(buildUrl (this st) fc, wireOptions st fc)].
Proof.
  intros H. pose proof (requestPhase_sameDispatches config st) as Hd.
  rewrite H in Hd. unfold sameDispatches in Hd. simpl in Hd.
  rewrite (executeRequest_run _ _ _ _ H).
  unfold try_catch, bind at 1, undici_request, call. simpl.
  set (st2 := set_world _ _).
  assert (dispatches (trace st2) =
          dispatches (trace st) ++ [(buildUrl (this st) fc, wireOptions st fc)])
    as Hst2.
  { subst st2. simpl. by rewrite dispatches_log_dispatch, Hd. }
  destruct (dispatch _ _ _ _) as [[response|e] w] eqn:Hr; simpl.
  - pose proof (keeps_afterDispatch sameDispatches
                  (λ st w ev H, sameDispatches_call st w ev H)
                  response fc st2) as Hk.
    unfold sameDispatches in Hk. rewrite <- Hst2, <- Hk.
    destruct (bind _ _ st2) as [[r|e] st3] eqn:Hb; simpl; [done|].
    pose proof (keeps_errorPath sameDispatches
                  (λ st w ev H, sameDispatches_call st w ev H) e st3) as Hk2.
    exact Hk2.
  - pose proof (keeps_errorPath sameDispatches
                  (λ st w ev H, sameDispatches_call st w ev H) e st2) as Hk2.
    unfold sameDispatches in Hk2. by rewrite <- Hst2, <- Hk2.
Qed.

(** A call whose request chain throws never reaches the transport. *)
Lemma executeRequest_no_dispatch config st e st1 :
  applyRequestInterceptors config st = (Thrown e, st1) →
  dispatches (trace (executeRequest config st).2) = dispatches (trace st).
Proof.
  intros H. rewrite (executeRequest_request_throws _ _ _ _ H). simpl.
  pose proof (requestPhase_sameDispatches config st) as Hd.
  by rewrite H in Hd.
Qed.

(** The frame of [executeRequest]: the client object is the same, and so
    is every header object that existed before the call. *)
Lemma executeRequest_frame config st :
  frame st (executeRequest config st).2.
Proof.
  pose proof (requestPhase_sameClient config st) as Hs.
  destruct (applyRequestInterceptors config st) as [[fc|e] st1] eqn:H.
  - rewrite (executeRequest_run _ _ _ _ H).
    destruct Hs as [Ht Hh]. simpl in Ht, Hh.
    assert (frame st (dispatchState st1 fc)) as Hf.
    { split; [done|]. intros l Hl. simpl. rewrite Hh.
      apply lookup_insert_ne. intros <-.
      by apply (is_fresh (dom (heap st))). }
    set (c := try_catch _ _).
    assert (keeps sameClient c) as Hc.
    { subst c. apply keeps_try_catch; [exact sameClient_preorder| |].
      - apply keeps_bind; [exact sameClient_preorder| |].
        + unfold undici_request. by apply keeps_call.
        + intros r. apply keeps_afterDispatch;
            [exact sameClient_preorder|exact sameClient_quiet].
      - intros e. apply keeps_errorPath;
          [exact sameClient_preorder|exact sameClient_quiet]. }
    destruct (Hc (dispatchState st1 fc)) as [Ht2 Hh2].
    destruct Hf as [Hf1 Hf2]. split; [congruence|].
    intros l Hl. rewrite Hh2. by apply Hf2.
  - rewrite (executeRequest_request_throws _ _ _ _ H). simpl.
    destruct Hs as [Ht Hh]. simpl in Ht, Hh. split; [done|].
    intros l _. by rewrite Hh.
Qed.

(* ===================================================================== *)
(** ** Lemmas: strings and the urlencoded format *)
(* ===================================================================== *)

Lemma append_cons a s t : String a s +:+ t = String a (s +:+ t).
Proof. done. Qed.

Lemma append_nil t : EmptyString +:+ t = t.
Proof. done. Qed.

Lemma has_char_app c s t :
  has_char c (s +:+ t) = has_char c s || has_char c t.
Proof.
  induction s as [|a s IH]; [done|].
  rewrite append_cons. simpl. by rewrite IH, orb_assoc.
Qed.

Lemma includes_char s (c : ascii) :
  Js.includes s (String c EmptyString) = has_char c s.
Proof.
  induction s as [|a s IH]; [done|].
  simpl. rewrite IH. f_equal.
  destruct (ascii_dec c a) as [->|Hne].
  - rewrite Ascii.eqb_refl. by destruct s.
  - symmetry. apply Ascii.eqb_neq. congruence.
Qed.

Lemma split_first_app c s t :
  has_char c s = false →
  Js.split_first c (s +:+ String c t) = Some (s, t).
Proof.
  induction s as [|a s IH]; simpl; intros H.
  - rewrite ?append_nil. simpl. by rewrite Ascii.eqb_refl.
  - apply orb_false_iff in H as [Ha Hs].
    rewrite ?append_cons. simpl. by rewrite Ha, (IH Hs).
Qed.

Lemma split_first_free c s :
  has_char c s = false → Js.split_first c s = None.
Proof.
  induction s as [|a s IH]; simpl; intros H; [done|].
  apply orb_false_iff in H as [Ha Hs]. by rewrite Ha, (IH Hs).
Qed.














Lemma split_first_cut c s l r :
  Js.split_first c s = Some (l, r) →
  has_char c s = true ∧ s = l +:+ String c r ∧
  ∀ t, Js.split_first c (s +:+ t) = Some (l, r +:+ t).
Proof.
  revert l. induction s as [|a s IH]; simpl; intros l H; [done|].
  destruct (Ascii.eqb a c) eqn:Ha.
  - injection H as <- <-. apply Ascii.eqb_eq in Ha as ->.
    split; [done|]. split; [done|].
    intros t. simpl. by rewrite ?Ascii.eqb_refl.
  - destruct (Js.split_first c s) as [[l' r']|] eqn:Hs; [|done].
    injection H as <- <-. destruct (IH l' eq_refl) as (H1 & H2 & H3).
    split; [done|]. split; [by rewrite H2|].
    intros t. simpl. by rewrite H3.
Qed.

Lemma split_first_found c s :
  has_char c s = true → ∃ l r, Js.split_first c s = Some (l, r).
Proof.
  induction s as [|a s IH]; simpl; intros H; [done|].
  destruct (Ascii.eqb a c); [eauto|].
  destruct (IH H) as (l & r & ->). eauto.
Qed.

Lemma without_fragment_free s :
  has_char "#" s = false → Js.without_fragment s = s.
Proof. intros H. unfold Js.without_fragment. by rewrite split_first_free. Qed.

(** What is appended to a URL that has a fragment goes to the fragment. *)
Lemma without_fragment_app s t :
  has_char "#" s = true →
  Js.without_fragment (s +:+ t) = Js.without_fragment s.
Proof.
  intros H. destruct (split_first_found _ _ H) as (l & r & Hs).
  unfold Js.without_fragment.
  by rewrite Hs, (proj2 (proj2 (split_first_cut _ _ _ _ Hs)) t).
Qed.

Lemma without_fragment_keeps c s :
  has_char c s = false → has_char c (Js.without_fragment s) = false.
Proof.
  intros H. unfold Js.without_fragment.
  destruct (Js.split_first "#" s) as [[l r]|] eqn:Hs; [|done].
  destruct (split_first_cut _ _ _ _ Hs) as (_ & Heq & _).
  rewrite Heq, has_char_app in H. by apply orb_false_iff in H as [H _].
Qed.

Lemma query_of_appended s q :
  has_char "?" s = false → has_char "#" s = false → has_char "#" q = false →
  Js.query_of (s +:+ "?" +:+ q) = q.
Proof.
  intros H Hs Hq. unfold Js.query_of.
  rewrite without_fragment_free.
  - change (s +:+ "?" +:+ q) with (s +:+ String "?" q).
    by rewrite split_first_app.
  - rewrite !has_char_app, Hs, Hq. done.
Qed.

(** A URL without [?] has no query, with or without a fragment. *)
Lemma query_of_none s : has_char "?" s = false → Js.query_of s = EmptyString.
Proof.
  intros H. unfold Js.query_of.
  by rewrite split_first_free by by apply without_fragment_keeps.
Qed.

Lemma query_of_fragment s t :
  has_char "#" s = true → Js.query_of (s +:+ t) = Js.query_of s.
Proof. intros H. unfold Js.query_of. by rewrite without_fragment_app. Qed.

(* ===================================================================== *)
(** ** URL resolution *)
(* ===================================================================== *)

Lemma or_string_empty P : or_string (Some P) EmptyString = P.
Proof. by destruct P. Qed.

Lemma urlWithBase_spec self config B P :
  HttpModuleOptions.baseURL (options self) = Some B →
  RequestConfig.url config = Some P →
  urlWithBase self config = if Js.startsWith P "http" then P else B +:+ P.
Proof.
  intros HB HP. unfold urlWithBase, shouldPrependBaseUrl, template.
  rewrite HB, HP, or_string_empty.
  destruct (Js.startsWith P "http").
  - by rewrite andb_false_r.
  - by destruct B.
Qed.

(** Without a configured base URL the path is used as it is. *)
Lemma urlWithBase_no_base self config P :
  HttpModuleOptions.baseURL (options self) = None →
  RequestConfig.url config = Some P →
  urlWithBase self config = P.
Proof.
  intros HB HP. unfold urlWithBase, shouldPrependBaseUrl.
  by rewrite HB, HP, or_string_empty.
Qed.

(** C7, as the code has it.  With base URL [B] configured and path [P] in
    the final request descriptor, the URL handed to the transport is [P]
    itself when [P] starts with the four characters [http], and [B]
    followed by [P], nothing in between, when it does not; the query string
    of the descriptor's parameters, if any, is appended to that. *)
Theorem url_resolution config st fc st1 B P :
  applyRequestInterceptors config st = (Returned fc, st1) →
  HttpModuleOptions.baseURL (options (this st)) = Some B →
  RequestConfig.url fc = Some P →
  let resolved := if Js.startsWith P "http" then P else B +:+ P in
  urlWithBase (this st) fc = resolved ∧
  (dispatches (trace (executeRequest config st).2)).*1 =
    (dispatches (trace st)).*1 ++
    [appendQueryParams resolved (RequestConfig.params fc)] ∧
  appendQueryParams resolved None = resolved.
Proof.
  intros H HB HP resolved.
  pose proof (urlWithBase_spec _ _ _ _ HB HP) as Hu.
  split; [exact Hu|]. split; [|done].
  rewrite (executeRequest_dispatches _ _ _ _ H), fmap_app. simpl.
  unfold buildUrl. by rewrite Hu.
Qed.

Lemma url_resolution_witness :
  applyRequestInterceptors Scenario.getUser Scenario.plainState =
    (Returned Scenario.getUser, Scenario.plainState) ∧
  HttpModuleOptions.baseURL (options (this Scenario.plainState)) =
    Some "https://api.test.com" ∧
  RequestConfig.url Scenario.getUser = Some "/users/1" ∧
  (dispatches
     (trace (executeRequest Scenario.getUser Scenario.plainState).2)).*1 =
  [ "https://api.test.com/users/1" ].
Proof.
  split; [reflexivity|]. split; [reflexivity|]. split; [reflexivity|].
  exact (proj1 (proj2 (url_resolution Scenario.getUser Scenario.plainState
                         Scenario.getUser Scenario.plainState
                         "https://api.test.com" "/users/1"
                         eq_refl eq_refl eq_refl))).
Defined.

(** C7 as stated fails both ways: a path with the scheme [ftp] gets the
    base URL in front of it, and a relative path that merely begins with
    the letters [http] does not. *)
Lemma url_resolution_counterexample :
  starts_with_scheme "ftp://files.test.com/report" = true ∧
  (dispatches
     (trace (get "ftp://files.test.com/report" None
                 Scenario.plainState).2)).*1 =
    [ "https://api.test.comftp://files.test.com/report" ] ∧
  starts_with_scheme "httpbin/get" = false ∧
  (dispatches (trace (get "httpbin/get" None Scenario.plainState).2)).*1 =
    [ "httpbin/get" ].
Proof. vm_compute. done. Qed.

(* ===================================================================== *)
(** ** Query serialization *)
(* ===================================================================== *)




(* ===================================================================== *)
(** ** Headers and body *)
(* ===================================================================== *)

Lemma overlay_lookup (D C : Headers) k :
  overlay D C !! k = match C !! k with Some v => Some v | None => D !! k end.
Proof. unfold overlay. rewrite lookup_union. by destruct (C !! k), (D !! k). Qed.

Lemma wireHeaders_other st config k :
  k ≠ "Content-Type" →
  wireHeaders st config !! k =
  overlay (defaultHeaders st) (perCallHeaders config) !! k.
Proof.
  intros Hk. unfold wireHeaders.
  destruct (stringifies config); [|done]. by rewrite lookup_insert_ne.
Qed.

(** C6, as the code has it.  With default headers [D] and per-call headers
    [C] (those of the final request descriptor), the header mapping handed
    to the transport is [D] overlaid by [C], where [C] wins on every key of
    both, except for the one key [Content-Type] when the payload is
    serialized to JSON: that key is then set, to the merged value if there
    is a non-empty one, to [application/json] if not. *)
Theorem header_merge config st fc st1 :
  applyRequestInterceptors config st = (Returned fc, st1) →
  let D := defaultHeaders st in
  let C := perCallHeaders fc in
  ∃ sent : Headers,
    DispatchOptions.headers <$> (dispatches (trace (executeRequest config st).2)).*2 =
      (DispatchOptions.headers <$> (dispatches (trace st)).*2) ++ [sent] ∧
    (∀ k, overlay D C !! k =
          match C !! k with Some v => Some v | None => D !! k end) ∧
    (∀ k, k ≠ "Content-Type" → sent !! k = overlay D C !! k) ∧
    (stringifies fc = false → sent = overlay D C) ∧
    (stringifies fc = true →
     sent = <["Content-Type" :=
               or_string (overlay D C !! "Content-Type") "application/json"]>
              (overlay D C)).
Proof.
  intros H D C. exists (wireHeaders st fc).
  split; [|split; [|split; [|split]]].
  - by rewrite (executeRequest_dispatches _ _ _ _ H), !fmap_app.
  - intros k. apply overlay_lookup.
  - intros k Hk. by apply wireHeaders_other.
  - intros Hs. unfold wireHeaders. by rewrite Hs.
  - intros Hs. unfold wireHeaders. by rewrite Hs.
Qed.

Lemma header_merge_witness :
  applyRequestInterceptors Cases.overriding Cases.twoDefaults =
    (Returned Cases.overriding, Cases.twoDefaults) ∧
  defaultHeaders Cases.twoDefaults !! "User-Agent" = Some "My-App/1.0" ∧
  perCallHeaders Cases.overriding !! "User-Agent" = Some "Custom/2.0" ∧
  stringifies Cases.overriding = true ∧
  ∃ sent : Headers,
    DispatchOptions.headers <$>
      (dispatches
         (trace (executeRequest Cases.overriding
                                Cases.twoDefaults).2)).*2 = [sent] ∧
    sent !! "User-Agent" = Some "Custom/2.0" ∧
    sent !! "Accept" = Some "application/json" ∧
    sent !! "X-Request-Id" = Some "42" ∧
    sent !! "Content-Type" = Some "application/json".
Proof.
  split; [reflexivity|]. split; [reflexivity|]. split; [reflexivity|].
  split; [reflexivity|].
  destruct (header_merge Cases.overriding Cases.twoDefaults
              Cases.overriding Cases.twoDefaults eq_refl)
    as (sent & H1 & _ & H3 & _ & H5).
  exists sent. split; [exact H1|].
  split; [rewrite H3 by done; reflexivity|].
  split; [rewrite H3 by done; reflexivity|].
  split; [rewrite H3 by done; reflexivity|].
  rewrite (H5 eq_refl). reflexivity.
Defined.

(** C6 as stated fails for a call with a structured payload: neither the
    defaults nor the call has a header, and the transport receives one. *)
Lemma header_merge_counterexample :
  defaultHeaders Scenario.plainState = ∅ ∧
  perCallHeaders (with_url_method_data None "/users" POST Scenario.newUser)
    = ∅ ∧
  map_to_list <$>
    (DispatchOptions.headers <$>
       (dispatches
          (trace (post "/users" Scenario.newUser None
                       Scenario.plainState).2)).*2) =
    [ [("Content-Type", "application/json")] ].
Proof. vm_compute. done. Qed.

(* ===================================================================== *)
(** ** The platform on sample values *)
(* ===================================================================== *)

(** [String(n)]: all digits below [2 ^ 53]; above, the digits of the double,
    in exponent notation from [1e21] on. *)
Lemma number_text_samples :
  Js.number_text 0 = "0" ∧ Js.number_text (-15) = "-15" ∧
  Js.number_text (2 ^ 53 - 1) = "9007199254740991" ∧
  Js.number_text (2 ^ 53 + 1) = "9007199254740992" ∧
  Js.number_text (2 ^ 60) = "1152921504606847000" ∧
  Js.number_text (10 ^ 21 - 1) = "1e+21" ∧
  Js.number_text (10 ^ 21) = "1e+21" ∧
  Js.number_text (10 ^ 23) = "1e+23" ∧
  Js.number_text (2 ^ 70) = "1.1805916207174113e+21" ∧
  Js.number_text (- 2 ^ 70) = "-1.1805916207174113e+21" ∧
  Js.number_text (2 ^ 1024 - 2 ^ 971) = "1.7976931348623157e+308" ∧
  Js.number_text (2 ^ 1024) = "Infinity" ∧
  Js.json_text (Js.Number (2 ^ 1024)) = Some "null" ∧
  Js.json_text (Js.Array [Js.Number (10 ^ 21); Js.Undefined]) =
    Some "[1e+21,null]".
Proof. vm_compute. done. Qed.

(** [String(buffer)]: well-formed UTF-8 is kept, each ill-formed part is
    one U+FFFD. *)
Lemma bytes_text_samples :
  Js.bytes_text [Byte.x41; Byte.xe2; Byte.x82; Byte.xac] =
    String.string_of_list_byte [Byte.x41; Byte.xe2; Byte.x82; Byte.xac] ∧
  Js.bytes_text [Byte.xff] = Js.replacement ∧
  Js.bytes_text [Byte.xe2; Byte.x82] = Js.replacement ∧
  Js.bytes_text [Byte.xc0; Byte.x80] = Js.replacement +:+ Js.replacement ∧
  Js.bytes_text [Byte.xe2; Byte.x41] = Js.replacement +:+ "A".
Proof. vm_compute. done. Qed.

(** A [?] after the [#] is part of the fragment. *)
Lemma query_of_samples :
  Js.query_of "https://api.test.com/page#top?a=1" = EmptyString ∧
  Js.query_of "https://api.test.com/page?x=1#top?a=1" = "x=1" ∧
  Js.query_of "https://api.test.com/page?x=1&y=2" = "x=1&y=2".
Proof. vm_compute. done. Qed.

(* ===================================================================== *)
(** ** JSON text reads back *)
(* ===================================================================== *)

Lemma append_assoc (a b c : string) : (a +:+ b) +:+ c = a +:+ b +:+ c.
Proof. induction a as [|x a IH]; [done|]. by rewrite !append_cons, IH. Qed.

Lemma append_nil_r (a : string) : a +:+ EmptyString = a.
Proof. induction a as [|x a IH]; [done|]. by rewrite append_cons, IH. Qed.

Lemma length_append (a b : string) :
  String.length (a +:+ b) = (String.length a + String.length b)%nat.
Proof.
  induction a as [|x a IH]; [done|].
  rewrite append_cons. simpl. by rewrite IH.
Qed.

(** A string literal reads back as the string. *)
Lemma parse_chars_escape c t :
  Js.parse_chars (Js.json_escape c +:+ t) =
  match Js.parse_chars t with
  | Some (u, r) => Some (String c u, r)
  | None => None
  end.
Proof. by destruct c as [[] [] [] [] [] [] [] []]. Qed.

Lemma parse_chars_quoted s rest :
  Js.parse_chars (Js.json_escape_all s +:+ String Js.dquote rest) =
  Some (s, rest).
Proof.
  induction s as [|c s IH]; [done|].
  change (Js.json_escape_all (String c s))
    with (Js.json_escape c +:+ Js.json_escape_all s).
  by rewrite append_assoc, parse_chars_escape, IH.
Qed.

Lemma json_quote_app s rest :
  Js.json_quote s +:+ rest =
  String Js.dquote (Js.json_escape_all s +:+ String Js.dquote rest).
Proof. unfold Js.json_quote. by rewrite append_cons, append_assoc. Qed.

(** The digits of a number read back as the number. *)
Lemma span_digits_stop rest :
  Js.closes rest = true → Js.span_digits rest = (EmptyString, rest).
Proof.
  destruct rest as [|c rest]; [done|]. simpl. intros H.
  assert (Js.is_digit c = false) as ->; [|done].
  apply orb_true_iff in H as [H|H];
    [apply orb_true_iff in H as [H|H]|];
    apply Ascii.eqb_eq in H as ->; done.
Qed.

Lemma span_digits_uint u rest :
  Js.closes rest = true →
  Js.span_digits (NilEmpty.string_of_uint u +:+ rest) =
  (NilEmpty.string_of_uint u, rest).
Proof.
  intros H. induction u; simpl; rewrite ?IHu; simpl;
    by rewrite ?span_digits_stop.
Qed.

Lemma closes_not_number rest :
  Js.closes rest = true → Js.continues_number rest = false.
Proof.
  destruct rest as [|c rest]; [done|]. simpl. intros H.
  apply orb_true_iff in H as [H|H];
    [apply orb_true_iff in H as [H|H]|];
    apply Ascii.eqb_eq in H as ->; done.
Qed.

(** The decimal text of a non-negative integer. *)
Lemma digits_uint m :
  0 ≤ m →
  ∃ u, u ≠ Decimal.Nil ∧ Js.digits m = NilEmpty.string_of_uint u ∧
       NilZero.uint_of_string (Js.digits m) = Some u ∧ Z.of_uint u = m.
Proof.
  intros Hm. unfold Js.digits.
  assert (∃ u, Z.to_int m = Decimal.Pos u ∧ u ≠ Decimal.Nil) as (u & Hu & Hn).
  { destruct m as [|p|p]; [by eexists| |lia].
    exists (Pos.to_uint p). split; [done|].
    apply DecimalPos.Unsigned.to_uint_nonnil. }
  exists u. rewrite Hu. simpl. split; [done|].
  split; [by destruct u|]. split; [by apply NilZero.usu|].
  change (Z.of_uint u) with (Z.of_int (Decimal.Pos u)).
  rewrite <- Hu. apply DecimalZ.of_to.
Qed.

Lemma parse_number_digits m rest :
  0 ≤ m → Js.closes rest = true →
  Js.parse_number (Js.digits m +:+ rest) = Some (m, rest).
Proof.
  intros Hm Hrest.
  destruct (digits_uint m Hm) as (u & Hn & Hd & Hu & Hv).
  unfold Js.parse_number.
  assert (match Js.digits m +:+ rest with
          | String c _ => Ascii.eqb c "-"
          | EmptyString => false
          end = false) as Hsign.
  { rewrite Hd. destruct u; try done. }
  rewrite Hsign.
  assert (match Js.digits m +:+ rest with
          | String _ _ => Js.digits m +:+ rest
          | EmptyString => Js.digits m +:+ rest
          end = Js.digits m +:+ rest) as -> by by destruct (_ +:+ _).
  rewrite Hd, (span_digits_uint _ _ Hrest). simpl.
  rewrite (closes_not_number _ Hrest), <- Hd, Hu, Hv.
  by rewrite String.eqb_refl.
Qed.

Lemma digits_negative p :
  Js.digits (Z.neg p) = "-" +:+ Js.digits (Z.pos p).
Proof.
  unfold Js.digits. simpl.
  pose proof (DecimalPos.Unsigned.to_uint_nonnil p) as H.
  by destruct (Pos.to_uint p).
Qed.

Lemma parse_number_negative p rest :
  Js.closes rest = true →
  Js.parse_number ("-" +:+ Js.digits (Z.pos p) +:+ rest) =
  Some (Z.neg p, rest).
Proof.
  intros Hrest.
  destruct (digits_uint (Z.pos p)) as (u & Hn & Hd & Hu & Hv); [lia|].
  unfold Js.parse_number. simpl.
  rewrite append_nil, Hd, (span_digits_uint _ _ Hrest). simpl.
  rewrite (closes_not_number _ Hrest), <- Hd, Hu, Hv.
  by rewrite String.eqb_refl.
Qed.

(** Below [2 ^ 53] the text of a number is its digits. *)
Lemma number_text_safe n :
  - 2 ^ 53 < n < 2 ^ 53 →
  Js.is_finite n = true ∧
  Js.number_text n =
    match n with
    | Z.neg p => "-" +:+ Js.digits (Z.pos p)
    | _ => Js.digits n
    end.
Proof.
  intros Hn.
  assert (∀ m, 0 ≤ m < 2 ^ 53 → (m <? 2 ^ 53) = true) as Hlt.
  { intros m Hm. apply Z.ltb_lt. lia. }
  split.
  - unfold Js.is_finite, Js.round_double.
    rewrite Hlt by lia. apply Z.ltb_lt.
    assert (2 ^ 53 < 2 ^ 1024) by (apply Z.pow_lt_mono_r; lia). lia.
  - unfold Js.number_text, Js.number_text_nonneg.
    destruct n as [|p|p].
    + done.
    + assert ((Z.pos p <? 0) = false) as -> by (apply Z.ltb_ge; lia).
      by rewrite Hlt by lia.
    + assert ((Z.neg p <? 0) = true) as -> by (apply Z.ltb_lt; lia).
      change (- Z.neg p) with (Z.pos p). by rewrite Hlt by lia.
Qed.

Lemma parse_number_text n rest :
  - 2 ^ 53 < n < 2 ^ 53 → Js.closes rest = true →
  Js.parse_number (Js.number_text n +:+ rest) = Some (n, rest).
Proof.
  intros Hn Hrest. rewrite (proj2 (number_text_safe n Hn)).
  destruct n as [|p|p].
  - by apply parse_number_digits.
  - by apply parse_number_digits.
  - rewrite append_assoc. by apply parse_number_negative.
Qed.

(** Induction on values, through the lists in them. *)
Lemma Value_ind_nested (P : Js.Value → Prop) :
  P Js.Undefined → P Js.Null → (∀ b, P (Js.Bool b)) →
  (∀ n, P (Js.Number n)) → (∀ s, P (Js.Str s)) →
  (∀ items, Forall P items → P (Js.Array items)) →
  (∀ props, Forall (λ kv, P kv.2) props → P (Js.Object props)) →
  (∀ bytes, P (Js.Buffer bytes)) →
  (∀ props, Forall (λ kv, P kv.2) props → P (Js.Stream props)) →
  (∀ entries, P (Js.FormData entries)) →
  ∀ v, P v.
Proof.
  intros HU HN HB HNum HS HA HO HBuf HSt HF.
  fix IH 1.
  intros [ | | b | n | s | items | props | bytes | props | entries].
  - exact HU.
  - exact HN.
  - apply HB.
  - apply HNum.
  - apply HS.
  - apply HA. induction items as [|x items IHitems]; constructor;
      [apply IH|exact IHitems].
  - apply HO. induction props as [|[k x] props IHprops]; constructor;
      [apply IH|exact IHprops].
  - apply HBuf.
  - apply HSt. induction props as [|[k x] props IHprops]; constructor;
      [apply IH|exact IHprops].
  - apply HF.
Qed.

Lemma json_text_array items :
  Js.json_text (Js.Array items) =
  Some ("[" +:+ Js.join "," (map Js.json_element items) +:+ "]").
Proof. reflexivity. Qed.

Lemma json_text_object props :
  Js.json_text (Js.Object props) =
  Some ("{" +:+ Js.join "," (omap Js.json_member props) +:+ "}").
Proof. reflexivity. Qed.

(** JSON data has a text. *)
Lemma is_json_text v : Js.is_json v = true → is_Some (Js.json_text v).
Proof. destruct v; simpl; try done; eauto. Qed.

Lemma length_join_elem sep (x : string) l :
  x ∈ l → (String.length x ≤ String.length (Js.join sep l))%nat.
Proof.
  induction l as [|y l IH]; intros H; [by apply elem_of_nil in H|].
  destruct l as [|z l].
  - apply list_elem_of_singleton in H as ->. done.
  - change (Js.join sep (y :: z :: l))
      with (y +:+ sep +:+ Js.join sep (z :: l)).
    rewrite !length_append.
    apply elem_of_cons in H as [->|H]; [lia|].
    specialize (IH H). lia.
Qed.

Lemma length_join_count (l : list string) :
  (length l ≤ S (String.length (Js.join "," l)))%nat.
Proof.
  induction l as [|y l IH]; [simpl; lia|].
  destruct l as [|z l]; [simpl; lia|].
  change (Js.join "," (y :: z :: l))
    with (y +:+ "," +:+ Js.join "," (z :: l)).
  rewrite !length_append. simpl in IH |- *. lia.
Qed.

(** What starts with a digit or a minus sign is read as a number. *)
Lemma parse_value_numeric f c s :
  Js.is_digit c || Ascii.eqb c "-" = true →
  Js.parse_value (S f) (String c s) =
  match Js.parse_number (String c s) with
  | Some (n, rest) => Some (Js.Number n, rest)
  | None => None
  end.
Proof. by destruct c as [[] [] [] [] [] [] [] []]. Qed.

Lemma number_text_first n :
  - 2 ^ 53 < n < 2 ^ 53 →
  ∃ c s, Js.number_text n = String c s ∧
         Js.is_digit c || Ascii.eqb c "-" = true.
Proof.
  intros Hn. rewrite (proj2 (number_text_safe n Hn)).
  assert (∀ m, 0 ≤ m → ∃ c s, Js.digits m = String c s ∧
                               Js.is_digit c = true) as Hdigits.
  { intros m Hm. destruct (digits_uint m Hm) as (u & Hu & -> & _).
    destruct u; try done; by eexists _, _. }
  destruct n as [|p|p].
  - by exists "0"%char, EmptyString.
  - destruct (Hdigits (Z.pos p)) as (c & s & -> & Hc); [lia|].
    exists c, s. by rewrite Hc.
  - by eexists _, _.
Qed.

(** No value starts with a closing bracket or brace. *)
Lemma parse_value_closing f c s :
  Ascii.eqb c "]" || Ascii.eqb c "}" = true →
  Js.parse_value f (String c s) = None.
Proof.
  intros H. destruct f as [|f]; [done|].
  apply orb_true_iff in H as [H|H]; apply Ascii.eqb_eq in H as ->; done.
Qed.

Section Elements.
Context (parse : string → option (Js.Value * string)).

(** The elements of an array read back, given that each value does. *)
Lemma parse_elements_join items :
  (∀ x, x ∈ items → ∀ rest, Js.closes rest = true →
        parse (Js.json_element x +:+ rest) = Some (x, rest)) →
  items ≠ [] →
  ∀ k rest, (length items ≤ k)%nat →
    Js.parse_elements parse k
      (Js.join "," (map Js.json_element items) +:+ "]" +:+ rest) =
    Some (items, rest).
Proof.
  induction items as [|x items IH]; intros Hparse Hne k rest Hk; [done|].
  destruct k as [|k]; [simpl in Hk; lia|].
  destruct items as [|y items].
  - simpl. rewrite Hparse; [done|by left|done].
  - change (Js.join "," (map Js.json_element (x :: y :: items)))
      with (Js.json_element x +:+ "," +:+
            Js.join "," (map Js.json_element (y :: items))).
    rewrite !append_assoc.
    set (R := Js.join "," (map Js.json_element (y :: items)) +:+ "]" +:+ rest).
    simpl. rewrite Hparse; [|by left|done]. simpl. subst R.
    rewrite ?append_nil.
    rewrite IH; [done| |done|simpl in Hk |- *; lia].
    intros z Hz. apply Hparse. by right.
Qed.

(** The members of an object, likewise. *)
Lemma parse_members_join props :
  (∀ kv, kv ∈ props → ∀ rest, Js.closes rest = true →
         parse (Js.json_element kv.2 +:+ rest) = Some (kv.2, rest)) →
  (∀ kv, kv ∈ props → is_Some (Js.json_text kv.2)) →
  props ≠ [] →
  ∀ k rest, (length props ≤ k)%nat →
    Js.parse_members parse k
      (Js.join "," (omap Js.json_member props) +:+ "}" +:+ rest) =
    Some (props, rest).
Proof.
  assert (∀ kv rest, is_Some (Js.json_text kv.2) →
            ∃ t, Js.json_member kv = Some t ∧
                 t +:+ rest =
                 String Js.dquote
                   (Js.json_escape_all kv.1 +:+
                    String Js.dquote
                      (String ":" (Js.json_element kv.2 +:+ rest))))
    as Hmember.
  { intros [key v] rest [t Ht]. unfold Js.json_member, Js.json_element.
    simpl in Ht |- *. rewrite Ht. eexists. split; [done|].
    rewrite append_assoc, json_quote_app. by rewrite append_assoc. }
  induction props as [|kv props IH]; intros Hparse Htext Hne k rest Hk;
    [done|].
  destruct k as [|k]; [simpl in Hk; lia|].
  destruct kv as [key v].
  destruct props as [|kv' props].
  - destruct (Hmember (key, v) ("}" +:+ rest)) as (t & Ht & Heq);
      [apply Htext; by left|].
    simpl. rewrite Ht. simpl. rewrite Heq. simpl.
    rewrite ?Ascii.eqb_refl, parse_chars_quoted. simpl.
    rewrite (Hparse (key, v)); [done|by left|done].
  - destruct (Hmember (key, v)
                ("," +:+ Js.join "," (omap Js.json_member (kv' :: props))
                     +:+ "}" +:+ rest)) as (t & Ht & Heq);
      [apply Htext; by left|].
    destruct (Hmember kv' EmptyString) as (t' & Ht' & _);
      [apply Htext; right; by left|].
    assert (Js.join "," (omap Js.json_member ((key, v) :: kv' :: props)) =
            t +:+ "," +:+ Js.join "," (omap Js.json_member (kv' :: props)))
      as ->.
    { simpl. rewrite Ht. simpl. rewrite Ht'. done. }
    rewrite !append_assoc, Heq.
    set (R := Js.join "," (omap Js.json_member (kv' :: props))
              +:+ "}" +:+ rest).
    simpl. rewrite ?Ascii.eqb_refl, parse_chars_quoted. simpl.
    rewrite (Hparse (key, v)); [|by left|done]. simpl. subst R.
    rewrite ?append_nil.
    rewrite IH; [done| | |done|simpl in Hk |- *; lia].
    + intros z Hz. apply Hparse. by right.
    + intros z Hz. apply Htext. by right.
Qed.

End Elements.

Lemma omap_member_length props :
  (∀ kv, kv ∈ props → is_Some (Js.json_text kv.2)) →
  length (omap Js.json_member props) = length props ∧
  ∀ kv, kv ∈ props →
        ∃ t, Js.json_text kv.2 = Some t ∧
             (String.length t ≤
              String.length (Js.join "," (omap Js.json_member props)))%nat.
Proof.
  intros Htext. split.
  - induction props as [|[key v] props IH]; [done|].
    destruct (Htext (key, v)) as [t Ht]; [by left|]. simpl in Ht.
    simpl. unfold Js.json_member at 1. simpl. rewrite Ht. simpl.
    f_equal. apply IH. intros kv Hkv. apply Htext. by right.
  - intros [key v] Hin. destruct (Htext _ Hin) as [t Ht]. simpl in Ht.
    exists t. split; [done|].
    assert (Js.json_quote key +:+ ":" +:+ t ∈ omap Js.json_member props)
      as Hm.
    { apply list_elem_of_omap. exists (key, v). split; [done|].
      unfold Js.json_member. simpl. by rewrite Ht. }
    pose proof (length_join_elem "," _ _ Hm) as Hl.
    rewrite !length_append in Hl. lia.
Qed.

Lemma parse_value_array f s :
  Js.parse_value (S f) (String "[" s) =
  match Js.parse_elements (Js.parse_value f) (String.length s) s with
  | Some (items, rest) => Some (Js.Array items, rest)
  | None =>
      match Js.drop_prefix "]" s with
      | Some rest => Some (Js.Array [], rest)
      | None => None
      end
  end.
Proof. reflexivity. Qed.

Lemma parse_value_object f s :
  Js.parse_value (S f) (String "{" s) =
  match Js.parse_members (Js.parse_value f) (String.length s) s with
  | Some (props, rest) =>
      if Js.plain_names props.*1 then Some (Js.Object props, rest) else None
  | None =>
      match Js.drop_prefix "}" s with
      | Some rest => Some (Js.Object [], rest)
      | None => None
      end
  end.
Proof. reflexivity. Qed.

Lemma parse_elements_closing f k rest :
  Js.parse_elements (Js.parse_value f) k (String "]" rest) = None.
Proof. destruct k; [done|]. simpl. by rewrite parse_value_closing. Qed.

Lemma parse_members_closing f k rest :
  Js.parse_members (Js.parse_value f) k (String "}" rest) = None.
Proof. by destruct k. Qed.

(** A JSON text reads back as the data it was written from. *)
Lemma parse_value_text v :
  ∀ t rest fuel,
    Js.is_json v = true → Js.json_text v = Some t →
    (String.length t ≤ fuel)%nat → Js.closes rest = true →
    Js.parse_value fuel (t +:+ rest) = Some (v, rest).
Proof.
  induction v as [ | |b|n|s|items IH|props IH|bytes|props IH|entries]
    using Value_ind_nested; intros t rest fuel Hjson Ht Hfuel Hrest;
    try done.
  - injection Ht as <-. destruct fuel as [|f]; [simpl in Hfuel; lia|done].
  - injection Ht as <-.
    destruct fuel as [|f]; [destruct b; simpl in Hfuel; lia|].
    by destruct b.
  - simpl in Hjson. apply andb_true_iff in Hjson as [H1 H2].
    apply Z.ltb_lt in H1, H2.
    simpl in Ht. rewrite (proj1 (number_text_safe n (conj H1 H2))) in Ht.
    injection Ht as <-.
    destruct (number_text_first n (conj H1 H2)) as (c & s & Hn & Hc).
    destruct fuel as [|f]; [rewrite Hn in Hfuel; simpl in Hfuel; lia|].
    pose proof (parse_number_text n rest (conj H1 H2) Hrest) as Hp.
    rewrite Hn in Hp |- *. rewrite append_cons in Hp |- *.
    by rewrite (parse_value_numeric f c _ Hc), Hp.
  - injection Ht as <-. destruct fuel as [|f]; [simpl in Hfuel; lia|].
    rewrite json_quote_app. simpl. by rewrite parse_chars_quoted.
  - rewrite json_text_array in Ht. injection Ht as <-.
    destruct fuel as [|f]; [simpl in Hfuel; lia|].
    rewrite !append_assoc, append_cons, append_nil, parse_value_array.
    simpl in Hjson. rewrite forallb_forall in Hjson.
    destruct items as [|x items].
    + change (Js.join "," (map Js.json_element []) +:+ "]" +:+ rest)
        with (String "]" rest).
      by rewrite parse_elements_closing.
    + rewrite (parse_elements_join (Js.parse_value f) (x :: items));
        [done| |done|].
      * intros y Hy rest' Hrest'.
        rewrite Forall_forall in IH.
        assert (Js.is_json y = true) as Hjy.
        { apply Hjson. by apply list_elem_of_In. }
        destruct (is_json_text y Hjy) as [ty Hty].
        unfold Js.json_element. rewrite Hty.
        apply (IH y Hy); [done|done| |done].
        assert (ty ∈ map Js.json_element (x :: items)) as Hin.
        { apply list_elem_of_fmap. exists y. split; [|done].
          unfold Js.json_element. by rewrite Hty. }
        pose proof (length_join_elem "," _ _ Hin) as Hl.
        rewrite !length_append in Hfuel. cbn [String.length] in Hfuel. lia.
      * pose proof (length_join_count (map Js.json_element (x :: items)))
          as Hc.
        rewrite length_map in Hc. rewrite !length_append.
        cbn [String.length length] in Hc |- *. lia.
  - rewrite json_text_object in Ht. injection Ht as <-.
    destruct fuel as [|f]; [simpl in Hfuel; lia|].
    rewrite !append_assoc, append_cons, append_nil, parse_value_object.
    simpl in Hjson. apply andb_true_iff in Hjson as [Hjson Hnames].
    rewrite forallb_forall in Hjson.
    assert (∀ kv, kv ∈ props → is_Some (Js.json_text kv.2)) as Htext.
    { intros kv Hkv. apply is_json_text, Hjson. by apply list_elem_of_In. }
    destruct (omap_member_length props Htext) as [Hlen Hbound].
    destruct props as [|kv props].
    + change (Js.join "," (omap Js.json_member []) +:+ "}" +:+ rest)
        with (String "}" rest).
      by rewrite parse_members_closing.
    + rewrite (parse_members_join (Js.parse_value f) (kv :: props));
        [by rewrite Hnames| |done|done|].
      * intros y Hy rest' Hrest'.
        rewrite Forall_forall in IH.
        destruct (Hbound y Hy) as (ty & Hty & Hl).
        unfold Js.json_element. rewrite Hty.
        apply (IH y Hy); [|done| |done].
        -- apply Hjson. by apply list_elem_of_In.
        -- rewrite !length_append in Hfuel. cbn [String.length] in Hfuel.
           lia.
      * pose proof (length_join_count (omap Js.json_member (kv :: props)))
          as Hc.
        rewrite Hlen in Hc. rewrite !length_append.
        cbn [String.length length] in Hc |- *. lia.
Qed.

(** [JSON.parse(JSON.stringify(v))] is [v] for JSON data. *)
Lemma JSON_parse_stringify v t :
  Js.is_json v = true → Js.json_text v = Some t → Js.JSON_parse t = Some v.
Proof.
  intros Hjson Ht. unfold Js.JSON_parse.
  pose proof (parse_value_text v t EmptyString (String.length t)
                Hjson Ht (le_n _) eq_refl) as Hp.
  rewrite append_nil_r in Hp. by rewrite Hp.
Qed.

Lemma structured_stringifies v : structured v → Js.truthy v = true ∧
  isJsonSerializable v = true ∧ ∃ text, Js.json_text v = Some text.
Proof. destruct v; simpl; try done; eauto. Qed.

(** C5.  For a structured payload (a plain object or an array) in the
    final request descriptor, the body handed to the transport is the
    string [JSON.stringify] gives for the payload, a JSON text which, for
    JSON data, reads back as the payload; and the headers handed to it
    have [Content-Type: application/json] unless the default or per-call
    headers have a [Content-Type] already; a non-empty one of theirs is
    kept. *)
Theorem structured_body_is_json config st fc st1 :
  applyRequestInterceptors config st = (Returned fc, st1) →
  structured (RequestConfig.data fc) →
  ∃ url opts text,
    dispatches (trace (executeRequest config st).2) =
      dispatches (trace st) ++ [(url, opts)] ∧
    Js.JSON_stringify (RequestConfig.data fc) = Js.Str text ∧
    DispatchOptions.body opts = Js.Str text ∧
    (Js.is_json (RequestConfig.data fc) = true →
     Js.JSON_parse text = Some (RequestConfig.data fc)) ∧
    (overlay (defaultHeaders st) (perCallHeaders fc) !! "Content-Type" = None →
     DispatchOptions.headers opts !! "Content-Type" =
       Some "application/json") ∧
    (∀ v, overlay (defaultHeaders st) (perCallHeaders fc) !! "Content-Type"
            = Some v → Js.nonempty v = true →
          DispatchOptions.headers opts !! "Content-Type" = Some v).
Proof.
  intros H Hs.
  destruct (structured_stringifies _ Hs) as (Ht & Hj & text & Htext).
  exists (buildUrl (this st) fc), (wireOptions st fc), text.
  split; [exact (executeRequest_dispatches _ _ _ _ H)|].
  split; [unfold Js.JSON_stringify; by rewrite Htext|].
  assert (stringifies fc = true) as Hstr by (unfold stringifies; by rewrite Ht, Hj).
  split; [|split; [|split]].
  - simpl. unfold wireBody, Js.JSON_stringify. by rewrite Ht, Hj, Htext.
  - intros Hjson. by apply JSON_parse_stringify.
  - intros Hnone. simpl. unfold wireHeaders. rewrite Hstr, Hnone.
    apply lookup_insert_eq.
  - intros v Hv Hne. simpl. unfold wireHeaders. rewrite Hstr, Hv.
    rewrite lookup_insert_eq. unfold or_string. by rewrite Hne.
Qed.

Lemma structured_body_is_json_witness :
  applyRequestInterceptors Cases.postUser Scenario.plainState =
    (Returned Cases.postUser, Scenario.plainState) ∧
  structured Scenario.newUser ∧
  Js.is_json Scenario.newUser = true ∧
  ∃ url opts,
    dispatches
      (trace (executeRequest Cases.postUser Scenario.plainState).2) =
      [(url, opts)] ∧
    DispatchOptions.body opts = Js.Str Cases.newUserText ∧
    Js.JSON_parse Cases.newUserText = Some Scenario.newUser ∧
    DispatchOptions.headers opts !! "Content-Type" = Some "application/json".
Proof.
  split; [reflexivity|]. split; [exact I|]. split; [reflexivity|].
  destruct (structured_body_is_json Cases.postUser Scenario.plainState
              Cases.postUser Scenario.plainState eq_refl I)
    as (url & opts & text & H1 & H2 & H3 & H4 & H5 & _).
  injection H2 as <-.
  exists url, opts.
  split; [exact H1|]. split; [exact H3|]. split; [exact (H4 eq_refl)|].
  apply H5. reflexivity.
Defined.

(** What does pass through: a multipart form, and any truthy primitive. *)
Lemma passthrough_body config :
  Js.truthy (RequestConfig.data config) = true →
  isJsonSerializable (RequestConfig.data config) = false →
  wireBody config = RequestConfig.data config ∧ stringifies config = false.
Proof.
  intros Ht Hj. unfold wireBody, stringifies. by rewrite Ht, Hj.
Qed.

(** C4 fails on the code for byte buffers and streams.  A buffer posted as
    data reaches the transport as the JSON text of the buffer, with a
    [Content-Type: application/json] header added; a stream posted with its
    own content type, as the README's upload example does, reaches it as
    JSON text too.  Only the multipart form is handed over as it is. *)
Theorem binary_payloads_are_stringified :
  unstructured (Js.Buffer [Byte.x01; Byte.x02]) ∧
  (λ d, (DispatchOptions.body d.2, map_to_list (DispatchOptions.headers d.2)))
    <$> dispatches
          (trace (post "/upload" (Js.Buffer [Byte.x01; Byte.x02]) None
                       Scenario.plainState).2) =
    [ (Js.JSON_stringify (Js.Buffer [Byte.x01; Byte.x02]),
       [("Content-Type", "application/json")]) ] ∧
  Js.JSON_stringify (Js.Buffer [Byte.x01; Byte.x02]) ≠
    Js.Buffer [Byte.x01; Byte.x02] ∧
  unstructured (Js.Stream []) ∧
  (λ d, (DispatchOptions.body d.2, map_to_list (DispatchOptions.headers d.2)))
    <$> dispatches
          (trace (post "/upload" (Js.Stream []) (Some Scenario.octets)
                       Scenario.plainState).2) =
    [ (Js.Str "{}", [("Content-Type", "application/octet-stream")]) ] ∧
  (λ d, (DispatchOptions.body d.2, map_to_list (DispatchOptions.headers d.2)))
    <$> dispatches
          (trace (post "/upload" (Js.FormData [("file", "test")]) None
                       Scenario.plainState).2) =
    [ (Js.FormData [("file", "test")], []) ].
Proof. vm_compute. done. Qed.

(** A byte buffer or a stream is an object that is no [FormData]: it is
    serialized, and what the transport gets is a string. *)
Lemma binary_body_is_text config :
  (∃ bytes, RequestConfig.data config = Js.Buffer bytes) ∨
  (∃ props, RequestConfig.data config = Js.Stream props) →
  stringifies config = true ∧
  ∃ text, wireBody config = Js.Str text.
Proof.
  unfold stringifies, wireBody, Js.JSON_stringify.
  intros [[b ->]|[p ->]]; simpl; eauto.
Qed.

(* ===================================================================== *)
(** ** Status text *)
(* ===================================================================== *)

(** C9. The envelope built from a transport response has status text [OK]
    exactly when the status code is 200, and the one generic text [Error]
    for every other code: 201 and 204 included, and 404, which does not
    give [Not Found]. *)
Theorem status_text_policy (response : RawResponse.t) (data : Js.Value) :
  let r := createHttpResponse response data in
  HttpResponse.status r = RawResponse.statusCode response ∧
  HttpResponse.statusText r =
    (if bool_decide (HttpResponse.status r = 200) then "OK" else "Error") ∧
  (HttpResponse.statusText r = "OK" ↔ HttpResponse.status r = 200) ∧
  getStatusText 201 = "Error" ∧ getStatusText 204 = "Error" ∧
  getStatusText 404 = "Error" ∧ getStatusText 404 ≠ "Not Found".
Proof.
  simpl. unfold getStatusText, HTTP_DEFAULTS.OK_STATUS,
    HTTP_DEFAULTS.OK_STATUS_TEXT, HTTP_DEFAULTS.ERROR_STATUS_TEXT.
  repeat split; try done; case_bool_decide; done.
Qed.

(* ===================================================================== *)
(** ** The request chain *)
(* ===================================================================== *)

(** An interceptor without [onRequest] is passed over. *)
Lemma requestTurn_absent i interceptor config st :
  RequestInterceptor.onRequest interceptor = None →
  requestTurn i interceptor config st = (Returned config, st).
Proof. intros H. unfold requestTurn. by rewrite H. Qed.

(** An [onRequest] hook that returns hands its result to the next turn. *)
Lemma requestTurn_returned i interceptor hook config st config' w :
  RequestInterceptor.onRequest interceptor = Some hook →
  hook config (world st) = (Returned config', w) →
  requestTurn i interceptor config st =
  (Returned config',
   mkState (this st) (heap st) w (trace st ++ [OnRequestCalled i config])).
Proof.
  intros H Hr. unfold requestTurn, try_catch, call. rewrite H. simpl.
  by rewrite Hr.
Qed.

(** An [onRequest] hook that throws has its own interceptor's [onError]
    notified, and the turn throws. *)
Lemma requestTurn_thrown i interceptor hook config st e w :
  RequestInterceptor.onRequest interceptor = Some hook →
  hook config (world st) = (Thrown e, w) →
  requestTurn i interceptor config st =
  (let* _ := notify (RequestOnErrorCalled i e)
                    (RequestInterceptor.onError interceptor) e in
   throw e)
    (mkState (this st) (heap st) w (trace st ++ [OnRequestCalled i config])).
Proof.
  intros H Hr. unfold requestTurn, try_catch, call. rewrite H. simpl.
  by rewrite Hr.
Qed.

(** The hooks that are present, from the source's side: each is the
    [onRequest] hook of the interceptor at its position, and the positions
    increase. *)
Lemma presentFrom_spec qis : ∀ i,
  StronglySorted lt (Chain.presentFrom i qis).*1 ∧
  ∀ j hook, (j, hook) ∈ Chain.presentFrom i qis →
            (i ≤ j)%nat ∧
            qis !! (j - i)%nat ≫= RequestInterceptor.onRequest = Some hook.
Proof.
  induction qis as [|qi rest IH]; intros i; simpl.
  - split; [constructor|]. intros j hook H. by apply elem_of_nil in H.
  - destruct (IH (S i)) as [Hsorted Hin].
    assert (∀ j hook, (j, hook) ∈ Chain.presentFrom (S i) rest →
              (i < j)%nat ∧
              (qi :: rest) !! (j - i)%nat ≫= RequestInterceptor.onRequest
                = Some hook) as Hrest.
    { intros j hook H. destruct (Hin j hook H) as [Hle Hl].
      split; [lia|].
      by replace (j - i)%nat with (S (j - S i)) by lia. }
    destruct (RequestInterceptor.onRequest qi) as [h|] eqn:Hq.
    + split.
      * rewrite fmap_cons. constructor; [done|].
        apply Forall_forall. intros j Hj.
        apply list_elem_of_fmap in Hj as ([j' hook] & -> & Hj).
        by destruct (Hrest j' hook Hj).
      * intros j hook H. apply elem_of_cons in H as [[= -> ->]|H].
        -- split; [done|]. rewrite Nat.sub_diag. simpl. by rewrite Hq.
        -- destruct (Hrest j hook H). split; [lia|done].
    + split; [done|]. intros j hook H.
      destruct (Hrest j hook H). split; [lia|done].
Qed.

Lemma present_hookAt qis j hook :
  (j, hook) ∈ Chain.present qis → Chain.hookAt qis j = Some hook.
Proof.
  intros H. destruct (proj2 (presentFrom_spec qis 0) j hook H) as [_ Hl].
  by rewrite Nat.sub_0_r in Hl.
Qed.

(** The chain in order, whatever the hooks: the invocations follow the
    list, the first receives the given descriptor, each next one what the
    one before returned, and the last one is the one that threw, if one
    did. *)
Lemma inOrder_spec hooks : ∀ config w,
  let run := Chain.inOrder hooks config w in
  (∃ rest, hooks.*1 = (Chain.calls run).*1 ++ rest) ∧
  (∀ i c, Chain.calls run !! 0%nat = Some (i, c) → c = config) ∧
  (∀ k i c j c',
     Chain.calls run !! k = Some (i, c) →
     Chain.calls run !! S k = Some (j, c') →
     ∃ hook w1 w2, (i, hook) ∈ hooks ∧ hook c w1 = (Returned c', w2)) ∧
  (∀ fc, Chain.ending run = Chain.Passed fc →
         (Chain.calls run).*1 = hooks.*1) ∧
  (∀ i e, Chain.ending run = Chain.Failed i e →
          ∃ c hook w1,
            last (Chain.calls run) = Some (i, c) ∧ (i, hook) ∈ hooks ∧
            hook c w1 = (Thrown e, Chain.after run)).
Proof.
  induction hooks as [|[i hook] rest IH]; intros config w; simpl.
  - split; [by exists []|]. repeat split; try done.
  - destruct (hook config w) as [[config'|e] w'] eqn:Hh; simpl.
    + destruct (IH config' w') as (Hpre & Hhead & Hlink & Hpass & Hfail).
      split; [|split; [|split; [|split]]].
      * destruct Hpre as [r Hr]. exists r.
        change (i :: rest.*1 =
                i :: ((Chain.calls (Chain.inOrder rest config' w')).*1 ++ r)).
        by rewrite <- Hr.
      * by intros i' c [= _ ->].
      * intros [|k] i1 c1 j c'; simpl.
        -- intros [= <- <-] Hnext.
           destruct (Chain.calls (Chain.inOrder rest config' w'))
             as [|[j' c''] l] eqn:Hc; [done|].
           injection Hnext as <- <-.
           rewrite (Hhead j' c'' eq_refl).
           exists hook, w, w'. split; [left|done].
        -- intros H1 H2.
           destruct (Hlink k i1 c1 j c' H1 H2) as (h & w1 & w2 & Hin & Hr).
           exists h, w1, w2. split; [by right|done].
      * intros fc Hfc.
        change (i :: (Chain.calls (Chain.inOrder rest config' w')).*1 =
                i :: rest.*1).
        by rewrite (Hpass fc Hfc).
      * intros j e Hje.
        destruct (Hfail j e Hje) as (c & h & w1 & Hlast & Hin & Hr).
        exists c, h, w1. split; [|split; [by right|done]].
        destruct (Chain.calls (Chain.inOrder rest config' w')); [done|].
        done.
    + split; [by exists rest.*1|]. split; [by intros i' c [= _ ->]|].
      split; [by intros [|k]|]. split; [done|].
      intros j e' [= <- <-]. exists config, hook, w.
      split; [done|]. split; [left|done].
Qed.

(** The loop of [applyRequestInterceptors] is the chain in order over the
    hooks that are present. *)
Lemma requestLoop_inOrder qis : ∀ i config st,
  let run := Chain.inOrder (Chain.presentFrom i qis) config (world st) in
  let st' := mkState (this st) (heap st) (Chain.after run)
                     (trace st ++ Chain.events run) in
  match Chain.ending run with
  | Chain.Passed fc => requestLoop i qis config st = (Returned fc, st')
  | Chain.Failed j e =>
      ∃ B, (i ≤ j)%nat ∧ qis !! (j - i)%nat = Some B ∧
           requestLoop i qis config st =
           (let* _ := notify (RequestOnErrorCalled j e)
                             (RequestInterceptor.onError B) e in
            throw e) st'
  end.
Proof.
  induction qis as [|qi rest IH]; intros i config st; simpl.
  - unfold ret, Chain.events. simpl. rewrite app_nil_r. by destruct st.
  - destruct (RequestInterceptor.onRequest qi) as [hook|] eqn:Hq.
    + simpl. destruct (hook config (world st)) as [[config'|e] w'] eqn:Hh.
      * rewrite (bind_returned _ _ _ _ _
                   (requestTurn_returned i qi hook config st config' w' Hq Hh)).
        specialize (IH (S i) config'
                      (mkState (this st) (heap st) w'
                               (trace st ++ [OnRequestCalled i config]))).
        simpl in IH |- *. unfold Chain.events in IH |- *. simpl.
        rewrite <- app_assoc in IH. simpl in IH.
        destruct (Chain.ending _) as [fc|j e]; [done|].
        destruct IH as (B & Hle & HB & Hrun).
        exists B. split; [lia|]. split; [|done].
        by replace (j - i)%nat with (S (j - S i)) by lia.
      * simpl. exists qi. split; [done|]. rewrite Nat.sub_diag.
        split; [done|].
        pose proof (requestTurn_thrown i qi hook config st e w' Hq Hh) as Ht.
        unfold Chain.events. simpl. unfold bind at 1. rewrite Ht.
        unfold bind, notify, call, throw.
        destruct (RequestInterceptor.onError qi) as [onErr|]; simpl; [|done].
        by destruct (onErr e w') as [[[]|e2] w2].
    + rewrite (bind_returned _ _ _ _ _ (requestTurn_absent i qi config st Hq)).
      specialize (IH (S i) config st). simpl in IH.
      destruct (Chain.ending _) as [fc|j e]; [done|].
      destruct IH as (B & Hle & HB & Hrun).
      exists B. split; [lia|]. split; [|done].
      by replace (j - i)%nat with (S (j - S i)) by lia.
Qed.

(** C3.  For every list of request interceptors and every call.  The
    [onRequest] hooks that are present are invoked in registration order
    (the positions of the invocations increase, and each position has the
    hook); the first receives the caller's descriptor and each next one
    the descriptor the one before returned.  If all return, every present
    hook was invoked, no [onError] hook was, and the request chain returns
    what the last hook returned.  If the hook at position [i] throws [e],
    that invocation is the last of an [onRequest] hook: the only event
    after it is the [onError] call of the same interceptor, if it has the
    hook; no later [onRequest] runs, no other interceptor's [onError]
    does, and nothing is dispatched; the call rejects (with [e], or with
    what that [onError] hook threw). *)
Theorem request_chain_order config st :
  let qis := requestInterceptors (this st) in
  let run := Chain.inOrder (Chain.present qis) config (world st) in
  StronglySorted lt (Chain.calls run).*1 ∧
  (∀ i, i ∈ (Chain.calls run).*1 → is_Some (Chain.hookAt qis i)) ∧
  (∀ i c, Chain.calls run !! 0%nat = Some (i, c) → c = config) ∧
  (∀ k i c j c',
     Chain.calls run !! k = Some (i, c) →
     Chain.calls run !! S k = Some (j, c') →
     ∃ hook w1 w2,
       Chain.hookAt qis i = Some hook ∧ hook c w1 = (Returned c', w2)) ∧
  match Chain.ending run with
  | Chain.Passed fc =>
      (Chain.calls run).*1 = (Chain.present qis).*1 ∧
      applyRequestInterceptors config st =
        (Returned fc,
         mkState (this st) (heap st) (Chain.after run)
                 (trace st ++ Chain.events run))
  | Chain.Failed i e =>
      ∃ B c hook w1 e' st',
        qis !! i = Some B ∧
        RequestInterceptor.onRequest B = Some hook ∧
        last (Chain.calls run) = Some (i, c) ∧
        hook c w1 = (Thrown e, Chain.after run) ∧
        executeRequest config st = (Thrown e', st') ∧
        trace st' =
          trace st ++ Chain.events run ++
          (if RequestInterceptor.onError B is Some _
           then [RequestOnErrorCalled i e] else []) ∧
        dispatches (trace st') = dispatches (trace st) ∧
        (RequestInterceptor.onError B = None →
         e' = e ∧ world st' = Chain.after run) ∧
        (∀ onErr, RequestInterceptor.onError B = Some onErr →
                  world st' = (onErr e (Chain.after run)).2 ∧
                  e' = match (onErr e (Chain.after run)).1 with
                       | Returned _ => e
                       | Thrown e2 => e2
                       end)
  end.
Proof.
  intros qis run.
  destruct (inOrder_spec (Chain.present qis) config (world st))
    as (Hpre & Hhead & Hlink & Hpass & Hfail).
  fold run in Hpre, Hhead, Hlink, Hpass, Hfail.
  destruct (presentFrom_spec qis 0) as [Hsorted _].
  fold (Chain.present qis) in Hsorted.
  split; [|split; [|split; [|split]]].
  - destruct Hpre as [rest Hrest]. rewrite Hrest in Hsorted.
    by apply StronglySorted_app_1_l in Hsorted.
  - intros i Hi. destruct Hpre as [rest Hrest].
    assert (i ∈ (Chain.present qis).*1) as Hin.
    { rewrite Hrest. apply elem_of_app. by left. }
    apply list_elem_of_fmap in Hin as ([i' hook] & -> & Hin).
    exists hook. by apply present_hookAt.
  - exact Hhead.
  - intros k i c j c' H1 H2.
    destruct (Hlink k i c j c' H1 H2) as (hook & w1 & w2 & Hin & Hr).
    exists hook, w1, w2. split; [by apply present_hookAt|done].
  - pose proof (requestLoop_inOrder qis 0 config st) as Hloop.
    fold (Chain.present qis) in Hloop. fold run in Hloop. simpl in Hloop.
    destruct (Chain.ending run) as [fc|i e] eqn:Hend.
    + split; [by apply (Hpass fc)|].
      unfold applyRequestInterceptors, bind, gets. exact Hloop.
    + destruct Hloop as (B & _ & HB & Hrun).
      rewrite Nat.sub_0_r in HB.
      destruct (Hfail i e eq_refl) as (c & hook & w1 & Hlast & Hin & Hr).
      apply present_hookAt in Hin. unfold Chain.hookAt in Hin.
      fold qis in HB. rewrite HB in Hin. simpl in Hin.
      assert (applyRequestInterceptors config st =
              (let* _ := notify (RequestOnErrorCalled i e)
                                (RequestInterceptor.onError B) e in
               throw e)
                (mkState (this st) (heap st) (Chain.after run)
                         (trace st ++ Chain.events run))) as Happly.
      { unfold applyRequestInterceptors, bind at 1, gets at 1. exact Hrun. }
      assert (∃ e' st',
        applyRequestInterceptors config st = (Thrown e', st') ∧
        trace st' =
          trace st ++ Chain.events run ++
          (if RequestInterceptor.onError B is Some _
           then [RequestOnErrorCalled i e] else []) ∧
        (RequestInterceptor.onError B = None →
         e' = e ∧ world st' = Chain.after run) ∧
        (∀ onErr, RequestInterceptor.onError B = Some onErr →
                  world st' = (onErr e (Chain.after run)).2 ∧
                  e' = match (onErr e (Chain.after run)).1 with
                       | Returned _ => e
                       | Thrown e2 => e2
                       end)) as (e' & st' & Hthrown & Htr & Hnone & Hsome).
      { rewrite Happly. unfold bind, notify, call, throw.
        destruct (RequestInterceptor.onError B) as [onErr|]; simpl.
        - destruct (onErr e (Chain.after run)) as [[[]|e2] w2] eqn:Ho; simpl;
            eexists _, _; (split; [reflexivity|]); simpl;
            rewrite <- ?app_assoc;
            (split; [done|]); (split; [done|]);
            intros onErr' [= <-]; by rewrite Ho.
        - eexists _, _. split; [reflexivity|]. simpl.
          rewrite app_nil_r. by repeat split. }
      exists B, c, hook, w1, e', st'.
      rewrite (executeRequest_request_throws _ _ _ _ Hthrown).
      do 6 (split; [done|]). split; [|done].
      pose proof (requestPhase_sameDispatches config st) as Hd.
      by rewrite Hthrown in Hd.
Qed.

Lemma request_chain_order_witness :
  (Chain.present (requestInterceptors (this Cases.lateReject))).*1 =
    [1; 2; 3]%nat ∧
  (∃ e' st',
     executeRequest Scenario.getUser Cases.lateReject = (Thrown e', st') ∧
     trace st' =
       [ OnRequestCalled 1 Scenario.getUser;
         OnRequestCalled 2 (Scenario.addHeader "X-A" "1" Scenario.getUser);
         RequestOnErrorCalled 2 Scenario.hookError ] ∧
     dispatches (trace st') = []) ∧
  applyRequestInterceptors Scenario.getUser Cases.allReturn =
    (Returned (Scenario.addHeader "X-C" "1"
                 (Scenario.addHeader "X-A" "1" Scenario.getUser)),
     mkState (this Cases.allReturn) ∅ ∅
       [ OnRequestCalled 0 Scenario.getUser;
         OnRequestCalled 2
           (Scenario.addHeader "X-A" "1" Scenario.getUser) ]).
Proof.
  split; [reflexivity|]. split.
  - destruct (request_chain_order Scenario.getUser Cases.lateReject)
      as (_ & _ & _ & _ & H).
    destruct H as (B & c & hook & w1 & e' & st' & HB & _ & _ & _ & Hrun
                   & Htr & Hd & _).
    injection HB as <-.
    exists e', st'. split; [exact Hrun|]. split; [exact Htr|exact Hd].
  - exact (proj2 (proj2 (proj2 (proj2 (proj2
             (request_chain_order Scenario.getUser Cases.allReturn)))))).
Defined.

(* ===================================================================== *)
(** ** The frame of a call *)
(* ===================================================================== *)

Lemma request_is_executeRequest config st :
  request config st = executeRequest config st.
Proof. apply try_catch_rethrow. Qed.

Lemma perform_is_executeRequest op st :
  ∃ config, perform op st = executeRequest config st.
Proof.
  destruct op; simpl; eexists;
    unfold get, post, put, delete, patch, head;
    apply request_is_executeRequest.
Qed.

(** C10.  Whatever request operation is called, with whatever arguments,
    and however the call ends, the client object is afterwards what it was
    (its options, with base URL, reference to the default headers, timeout
    and pool parameters; its agent; both interceptor lists), and every
    header object that existed before the call has the content it had: the
    merge and the [Content-Type] write go to an object made for the call.
    So the default headers are what they were. *)
Theorem call_leaves_client_unchanged (op : Operation) (st : State) :
  this (perform op st).2 = this st ∧
  (∀ l, l ∈ dom (heap st) →
        heap (perform op st).2 !! l = heap st !! l) ∧
  (∀ l, HttpModuleOptions.headers (options (this st)) = Some l →
        l ∈ dom (heap st) →
        defaultHeaders (perform op st).2 = defaultHeaders st) ∧
  (HttpModuleOptions.headers (options (this st)) = None →
   defaultHeaders (perform op st).2 = defaultHeaders st).
Proof.
  destruct (perform_is_executeRequest op st) as [config ->].
  destruct (executeRequest_frame config st) as [Ht Hh].
  split; [done|]. split; [done|]. unfold defaultHeaders. rewrite Ht. split.
  - intros l -> Hl. by rewrite (Hh l Hl).
  - by intros ->.
Qed.

Lemma call_leaves_client_unchanged_witness :
  (0%nat ∈ dom (heap Scenario.sharedDefaults)) ∧
  this (post "/users" Scenario.newUser None Scenario.sharedDefaults).2 =
    this Scenario.sharedDefaults ∧
  defaultHeaders (post "/users" Scenario.newUser None
                       Scenario.sharedDefaults).2 =
    {[ "User-Agent" := "My-App/1.0" ]}.
Proof.
  assert (0%nat ∈ dom (heap Scenario.sharedDefaults)) as Hin.
  { apply elem_of_dom. by eexists. }
  destruct (call_leaves_client_unchanged
              (Post "/users" Scenario.newUser None) Scenario.sharedDefaults)
    as (H1 & _ & H3 & _).
  split; [exact Hin|]. split; [exact H1|].
  exact (H3 0%nat eq_refl Hin).
Defined.

(** Whatever throws inside the [try] of [executeRequest] (the transport,
    the decoder, or a response interceptor whose own [onError] was already
    notified by its turn) is handed to [handleRequestError]. *)
Lemma executeRequest_catches config st fc st1 e st2 :
  applyRequestInterceptors config st = (Returned fc, st1) →
  (let* response :=
     undici_request (buildUrl (this st) fc) (wireOptions st fc)
                    (agent (this st)) in
   let* data := parseResponseData response fc in
   applyResponseInterceptors (createHttpResponse response data))
    (dispatchState st1 fc) = (Thrown e, st2) →
  executeRequest config st =
  (let* _ := handleRequestError e in throw e) st2.
Proof.
  intros H Hthrown. rewrite (executeRequest_run _ _ _ _ H).
  exact (try_catch_thrown _ _ _ _ _ Hthrown).
Qed.

(** An [onResponse] hook that throws has its own interceptor's [onError]
    notified by the turn itself. *)
Lemma responseTurn_thrown i interceptor hook response st e w :
  ResponseInterceptor.onResponse interceptor = Some hook →
  hook response (world st) = (Thrown e, w) →
  responseTurn i interceptor response st =
  (let* _ := notify (ResponseOnErrorCalled i e)
                    (ResponseInterceptor.onError interceptor) e in
   throw e)
    (mkState (this st) (heap st) w
             (trace st ++ [OnResponseCalled i response])).
Proof.
  intros H Hr. unfold responseTurn, try_catch, call. rewrite H. simpl.
  by rewrite Hr.
Qed.

(* ===================================================================== *)
(** ** The error broadcast *)
(* ===================================================================== *)

Lemma filter_fmap_S (P : nat → Prop) `{∀ j, Decision (P j)} (l : list nat) :
  filter P (S <$> l) = S <$> filter (λ j, P (S j)) l.
Proof.
  induction l as [|x l IH]; [done|].
  rewrite fmap_cons, !filter_cons, IH. by destruct (decide (P (S x))).
Qed.

Lemma errorPositions_cons ri rest :
  errorPositions (ri :: rest) =
  (if ResponseInterceptor.onError ri is Some _ then [0%nat] else []) ++
  (S <$> errorPositions rest).
Proof.
  unfold errorPositions. simpl length.
  change (seq 0 (S (length rest))) with (0%nat :: seq 1 (length rest)).
  assert (filter (λ j, hasOnError (ri :: rest) (S j) = true)
                 (seq 0 (length rest)) =
          filter (λ j, hasOnError rest j = true) (seq 0 (length rest)))
    as Heq by reflexivity.
  rewrite <- fmap_S_seq, filter_cons, filter_fmap_S, Heq. clear Heq.
  destruct (decide (hasOnError (ri :: rest) 0 = true)) as [Hd|Hd];
    unfold hasOnError in Hd; simpl in Hd;
    destruct (ResponseInterceptor.onError ri) as [hook|]; simpl; done.
Qed.

(** The positions of a broadcast: those with an [onError] hook, each
    once, in increasing order. *)
Lemma errorPositions_spec ris :
  (∀ j, j ∈ errorPositions ris ↔
        ∃ ri, ris !! j = Some ri ∧ is_Some (ResponseInterceptor.onError ri)) ∧
  NoDup (errorPositions ris) ∧
  StronglySorted lt (errorPositions ris).
Proof.
  split; [|split].
  - intros j. unfold errorPositions.
    rewrite list_elem_of_filter, elem_of_seq. unfold hasOnError.
    split.
    + intros [Hj _]. destruct (ris !! j) as [ri|]; [|done].
      exists ri. split; [done|]. by apply bool_decide_eq_true in Hj.
    + intros (ri & Hri & Hs). rewrite Hri. split.
      * by apply bool_decide_eq_true.
      * apply lookup_lt_Some in Hri. lia.
  - apply NoDup_filter, NoDup_seq.
  - induction ris as [|ri rest IH]; [constructor|].
    rewrite errorPositions_cons.
    assert (StronglySorted lt (S <$> errorPositions rest)) as Hs.
    { apply (StronglySorted_fmap S lt lt); [|done].
      intros x y. lia. }
    destruct (ResponseInterceptor.onError ri); simpl; [|done].
    constructor; [done|]. apply Forall_fmap, Forall_forall.
    intros x _. simpl. lia.
Qed.

Lemma broadcastFrom_positions ris : ∀ i e,
  broadcastFrom i ris e =
  (λ j, ResponseOnErrorCalled (i + j) e) <$> errorPositions ris.
Proof.
  induction ris as [|ri rest IH]; intros i e; [done|].
  rewrite errorPositions_cons, fmap_app, <- list_fmap_compose. simpl.
  rewrite IH.
  assert ((λ j, ResponseOnErrorCalled (S i + j) e) <$> errorPositions rest =
          (λ j, ResponseOnErrorCalled (i + j) e) ∘ S <$> errorPositions rest)
    as ->.
  { apply list_fmap_ext. intros _ j _. simpl. f_equal. lia. }
  destruct (ResponseInterceptor.onError ri); simpl; [|done].
  by rewrite Nat.add_0_r.
Qed.

Lemma broadcastFrom_zero ris e : broadcastFrom 0 ris e = broadcast ris e.
Proof. by rewrite broadcastFrom_positions. Qed.

Lemma errorHooksReturn_tail ri rest e :
  errorHooksReturn (ri :: rest) e → errorHooksReturn rest e.
Proof. intros H r hook w Hin. apply H. by right. Qed.

(** The loop of [handleRequestError], when no hook throws: every hook is
    called, and the loop returns. *)
Lemma errorLoop_run ris : ∀ i e st,
  errorHooksReturn ris e →
  ∃ w, errorLoop i ris e st =
       (Returned tt,
        mkState (this st) (heap st) w (trace st ++ broadcastFrom i ris e)).
Proof.
  induction ris as [|ri rest IH]; intros i e st Hret; simpl.
  - exists (world st). unfold ret. rewrite app_nil_r. by destruct st.
  - pose proof (errorHooksReturn_tail _ _ _ Hret) as Htail.
    unfold bind, notify.
    destruct (ResponseInterceptor.onError ri) as [hook|] eqn:Hhook.
    + unfold call. simpl.
      pose proof (Hret ri hook (world st) (list_elem_of_here _ _) Hhook) as Hr.
      destruct (hook e (world st)) as [r w]. simpl in Hr. subst r. simpl.
      destruct (IH (S i) e
                  (set_world w (log (ResponseOnErrorCalled i e) st)) Htail)
        as [w' Hw'].
      exists w'. rewrite Hw'. simpl. by rewrite <- app_assoc.
    + unfold ret. destruct (IH (S i) e st Htail) as [w' Hw']. by exists w'.
Qed.

Lemma handleRequestError_run e st :
  errorHooksReturn (responseInterceptors (this st)) e →
  ∃ w, handleRequestError e st =
       (Returned tt,
        mkState (this st) (heap st) w
                (trace st ++ broadcast (responseInterceptors (this st)) e)).
Proof.
  intros Hret. unfold handleRequestError, bind, gets. simpl.
  destruct (errorLoop_run _ 0 e st Hret) as [w Hw].
  exists w. by rewrite Hw, broadcastFrom_zero.
Qed.

(** C2, as the code has it.  When the transport rejects with [e] and no
    [onError] hook of a response interceptor throws, every response
    interceptor with an [onError] hook has it invoked with [e], each once
    and in registration order, and the call rejects with [e] itself. *)
Theorem dispatch_failure_broadcast config st fc st1 e w2 :
  applyRequestInterceptors config st = (Returned fc, st1) →
  dispatch (agent (this st)) (buildUrl (this st) fc) (wireOptions st fc)
           (world st1) = (Thrown e, w2) →
  errorHooksReturn (responseInterceptors (this st)) e →
  ∃ st',
    executeRequest config st = (Thrown e, st') ∧
    trace st' =
      trace st1 ++
      Dispatched (buildUrl (this st) fc) (wireOptions st fc) ::
      ((λ j, ResponseOnErrorCalled j e) <$>
         errorPositions (responseInterceptors (this st))) ∧
    (∀ j, j ∈ errorPositions (responseInterceptors (this st)) ↔
          ∃ ri, responseInterceptors (this st) !! j = Some ri ∧
                is_Some (ResponseInterceptor.onError ri)) ∧
    NoDup (errorPositions (responseInterceptors (this st))) ∧
    StronglySorted lt (errorPositions (responseInterceptors (this st))).
Proof.
  intros H Hd Hret.
  pose proof (requestPhase_sameClient config st) as Hs.
  rewrite H in Hs. destruct Hs as [Ht Hh]. simpl in Ht, Hh.
  rewrite (executeRequest_run _ _ _ _ H).
  unfold try_catch, bind at 1, undici_request, call. simpl.
  rewrite Hd. simpl.
  set (st2 := set_world w2 _).
  assert (this st2 = this st) as Ht2 by (by subst st2).
  rewrite <- Ht2 in Hret.
  destruct (handleRequestError_run e st2 Hret) as [w Hw].
  rewrite (bind_returned _ _ _ _ _ Hw). unfold throw.
  eexists. split; [reflexivity|].
  split; [|rewrite <- Ht2; apply errorPositions_spec].
  simpl. rewrite Ht. unfold broadcast. by rewrite <- app_assoc.
Qed.

Lemma dispatch_failure_broadcast_witness :
  applyRequestInterceptors Scenario.getUser Scenario.observedState =
    (Returned Scenario.getUser, Scenario.observedState) ∧
  errorHooksReturn (responseInterceptors (this Scenario.observedState))
                   Scenario.networkError ∧
  ∃ st',
    executeRequest Scenario.getUser Scenario.observedState =
      (Thrown Scenario.networkError, st') ∧
    drop 1 (trace st') =
      [ ResponseOnErrorCalled 0 Scenario.networkError;
        ResponseOnErrorCalled 1 Scenario.networkError ].
Proof.
  assert (errorHooksReturn (responseInterceptors (this Scenario.observedState))
                           Scenario.networkError) as Hret.
  { intros ri hook w Hin Hhook. simpl in Hin.
    apply elem_of_cons in Hin as [->|Hin];
      [by inversion Hhook|].
    apply elem_of_cons in Hin as [->|Hin];
      [by inversion Hhook|].
    apply elem_of_cons in Hin as [->|Hin];
      [by inversion Hhook|].
    by apply elem_of_nil in Hin. }
  split; [reflexivity|]. split; [exact Hret|].
  destruct (dispatch_failure_broadcast Scenario.getUser
              Scenario.observedState Scenario.getUser Scenario.observedState
              Scenario.networkError ∅ eq_refl eq_refl Hret)
    as (st' & H1 & H2 & _).
  exists st'. split; [exact H1|]. rewrite H2. reflexivity.
Defined.

(** C2 as stated fails when an [onError] hook throws: the broadcast stops
    at that hook, later interceptors are not notified, and the call
    rejects with the hook's error, not with the transport's. *)
Lemma dispatch_failure_broadcast_counterexample :
  Scenario.brokenRun.1 = Thrown Scenario.hookError ∧
  Scenario.hookError ≠ Scenario.networkError ∧
  drop 1 (trace Scenario.brokenRun.2) =
    [ ResponseOnErrorCalled 0 Scenario.networkError ] ∧
  world Scenario.brokenRun.2 !! "B.onError" = None.
Proof. vm_compute. done. Qed.

(* ===================================================================== *)
(** ** A failing response interceptor *)
(* ===================================================================== *)

Lemma responseLoop_app pre : ∀ post i response st,
  responseLoop i (pre ++ post) response st =
  (let* response := responseLoop i pre response in
   responseLoop (i + length pre) post response) st.
Proof.
  induction pre as [|x pre IH]; intros post i response st; simpl.
  - unfold bind, ret. by rewrite Nat.add_0_r.
  - unfold bind at 1 2.
    destruct (responseTurn i x response st) as [[r|e] st'] eqn:Ht.
    + rewrite IH, (bind_returned _ _ _ _ _ Ht).
      by replace (i + S (length pre))%nat with (S i + length pre)%nat by lia.
    + by rewrite (bind_thrown _ _ _ _ _ Ht).
Qed.

(** X23.  The general form of what [response_failure_is_broadcast]
    shows.  When the [onResponse] hook of the response interceptor at position
    [length pre] throws [e] (the hooks before it having returned, and no
    [onError] hook throwing), the trace goes on with that [onResponse]
    call, the [onError] call of the same interceptor, and then a full
    broadcast of [e], in which that interceptor is notified once more. *)
Lemma response_failure_general pre B post hook onErr response st response' st'
    e w :
  responseInterceptors (this st) = pre ++ B :: post →
  responseLoop 0 pre response st = (Returned response', st') →
  ResponseInterceptor.onResponse B = Some hook →
  hook response' (world st') = (Thrown e, w) →
  ResponseInterceptor.onError B = Some onErr →
  errorHooksReturn (pre ++ B :: post) e →
  length pre ∈ errorPositions (pre ++ B :: post) ∧
  ∃ w',
    try_catch (applyResponseInterceptors response)
              (λ error, let* _ := handleRequestError error in throw error) st =
    (Thrown e,
     mkState (this st) (heap st) w'
       (trace st' ++
        [OnResponseCalled (length pre) response';
         ResponseOnErrorCalled (length pre) e] ++
        broadcast (pre ++ B :: post) e)).
Proof.
  intros Hl Hpre Hhook Hthrow HonErr Hret. split.
  { apply errorPositions_spec. exists B. split; [|by rewrite HonErr].
    by rewrite lookup_app_r, Nat.sub_diag. }
  pose proof (keeps_responseLoop sameClient sameClient_quiet pre 0 response st)
    as [Ht Hh].
  rewrite Hpre in Ht, Hh. simpl in Ht, Hh.
  assert (∃ w1, applyResponseInterceptors response st =
                (Thrown e,
                 mkState (this st) (heap st) w1
                   (trace st' ++
                    [OnResponseCalled (length pre) response';
                     ResponseOnErrorCalled (length pre) e])))
    as [w1 Happly].
  { unfold applyResponseInterceptors, bind at 1, gets at 1. rewrite Hl.
    rewrite responseLoop_app, (bind_returned _ _ _ _ _ Hpre). simpl.
    unfold bind at 1.
    rewrite (responseTurn_thrown _ _ hook _ _ e w Hhook Hthrow).
    unfold bind, notify, call, throw. rewrite HonErr. simpl.
    pose proof (Hret B onErr w) as Hr.
    destruct (onErr e w) as [r w1]. simpl in Hr.
    rewrite Hr; [|by apply elem_of_app; right; left|done].
    exists w1. simpl. unfold log, set_world. simpl.
    by rewrite Ht, Hh, <- app_assoc. }
  rewrite (try_catch_thrown _ _ _ _ _ Happly).
  set (st2 := mkState _ _ w1 _).
  assert (responseInterceptors (this st2) = pre ++ B :: post) as Hl2
    by (by subst st2).
  rewrite <- Hl2 in Hret.
  destruct (handleRequestError_run e st2 Hret) as [w' Hw'].
  rewrite (bind_returned _ _ _ _ _ Hw'). unfold throw.
  exists w'. subst st2. simpl. by rewrite Hl, <- app_assoc.
Qed.

(** C1 fails on the code.  The first of three response interceptors throws
    in [onResponse]: its own [onError] hook is invoked, and then the
    failure is caught again by [executeRequest], which broadcasts it to
    every response interceptor: the failing interceptor's [onError] runs a
    second time and the second interceptor's runs too.  The [onResponse]
    hook of the third interceptor is not invoked, as the claim says. *)
Theorem response_failure_is_broadcast :
  Scenario.failingRun.1 = Thrown Scenario.hookError ∧
  drop 1 (trace Scenario.failingRun.2) =
    [ OnResponseCalled 0
        (HttpResponse.mk Scenario.user 200 "OK" ∅);
      ResponseOnErrorCalled 0 Scenario.hookError;
      ResponseOnErrorCalled 0 Scenario.hookError;
      ResponseOnErrorCalled 1 Scenario.hookError ] ∧
  world Scenario.failingRun.2 !! "A.onError" = Some (Js.Number 2) ∧
  world Scenario.failingRun.2 !! "B.onError" = Some (Js.Number 1).
Proof. vm_compute. done. Qed.

(* ===================================================================== *)
(** ** The facade and the executor: further properties *)
(* ===================================================================== *)

Import More.

Lemma perform_configOf op st : perform op st = executeRequest (configOf op) st.
Proof.
  destruct op; simpl; unfold get, post, put, delete, patch, head;
    apply request_is_executeRequest.
Qed.

Section OnReturn.
Context (R : State → State → Prop) `{!PreOrder R}.

Lemma onReturn_ret {A} (a : A) : keepsOnReturn R (ret a).
Proof. intros st a' st' [= _ <-]. reflexivity. Qed.

Lemma onReturn_gets {A} (f : State → A) : keepsOnReturn R (gets f).
Proof. intros st a' st' [= _ <-]. reflexivity. Qed.

Lemma onReturn_settle {A} (o : Outcome A) : keepsOnReturn R (settle o).
Proof. intros st a' st' [= _ <-]. reflexivity. Qed.

Lemma onReturn_keeps {A} (c : Eff A) : keeps R c → keepsOnReturn R c.
Proof. intros H st a st' Hc. specialize (H st). by rewrite Hc in H. Qed.

Lemma onReturn_bind {A B} (c : Eff A) (k : A → Eff B) :
  keepsOnReturn R c → (∀ a, keepsOnReturn R (k a)) →
  keepsOnReturn R (bind c k).
Proof.
  intros Hc Hk st b st'. unfold bind.
  destruct (c st) as [[a|e] st1] eqn:Hcs; [|done].
  intros Hks. etrans; [exact (Hc _ _ _ Hcs)|exact (Hk _ _ _ _ Hks)].
Qed.

Lemma onReturn_try_catch {A} (c : Eff A) handler :
  keepsOnReturn R c → (∀ e, neverReturns (handler e)) →
  keepsOnReturn R (try_catch c handler).
Proof.
  intros Hc Hh st a st'. unfold try_catch.
  destruct (c st) as [[a1|e] st1] eqn:Hcs.
  - intros [= <- <-]. exact (Hc _ _ _ Hcs).
  - destruct (Hh e st1) as (e' & st2 & ->). done.
Qed.

Lemma onReturn_call {A B} ev (f : Hook A B) arg :
  (∀ st w, R st (set_world w (log ev st))) → keepsOnReturn R (call ev f arg).
Proof. intros H. apply onReturn_keeps. by apply keeps_call. Qed.

End OnReturn.

Lemma neverReturns_notify_throw {A} ev onError e :
  neverReturns
    (let* _ := notify ev onError e in throw (A:=A) e).
Proof.
  intros st. unfold bind, throw.
  destruct (notify ev onError e st) as [[[]|e'] st']; eauto.
Qed.

Lemma neverReturns_errorPath e :
  neverReturns (let* _ := handleRequestError e in throw (A:=HttpResponse.t) e).
Proof.
  intros st. unfold bind, throw.
  destruct (handleRequestError e st) as [[[]|e'] st']; eauto.
Qed.

Global Instance sameErrorCalls_preorder : PreOrder sameErrorCalls.
Proof. split; [done|]. unfold sameErrorCalls. intros x y z. congruence. Qed.

Lemma errorCalls_app tr1 tr2 :
  errorCalls (tr1 ++ tr2) = errorCalls tr1 ++ errorCalls tr2.
Proof. unfold errorCalls. apply filter_app. Qed.

Lemma sameErrorCalls_call st w ev :
  isErrorCall ev = false → sameErrorCalls st (set_world w (log ev st)).
Proof.
  intros H. unfold sameErrorCalls. simpl. rewrite errorCalls_app.
  unfold errorCalls at 2. rewrite filter_cons_False; [|by rewrite H].
  by rewrite filter_nil, app_nil_r.
Qed.

Lemma onReturn_requestLoop interceptors : ∀ i config,
  keepsOnReturn sameErrorCalls (requestLoop i interceptors config).
Proof.
  induction interceptors as [|x rest IH]; intros i config; simpl.
  - apply (onReturn_ret sameErrorCalls).
  - apply (onReturn_bind sameErrorCalls); [|intros c; apply IH].
    unfold requestTurn. destruct (RequestInterceptor.onRequest x).
    + apply (onReturn_try_catch sameErrorCalls).
      * apply (onReturn_call sameErrorCalls).
        intros. by apply sameErrorCalls_call.
      * intros e. apply neverReturns_notify_throw.
    + apply (onReturn_ret sameErrorCalls).
Qed.

Lemma onReturn_responseLoop interceptors : ∀ i response,
  keepsOnReturn sameErrorCalls (responseLoop i interceptors response).
Proof.
  induction interceptors as [|x rest IH]; intros i response; simpl.
  - apply (onReturn_ret sameErrorCalls).
  - apply (onReturn_bind sameErrorCalls); [|intros c; apply IH].
    unfold responseTurn. destruct (ResponseInterceptor.onResponse x).
    + apply (onReturn_try_catch sameErrorCalls).
      * apply (onReturn_call sameErrorCalls).
        intros. by apply sameErrorCalls_call.
      * intros e. apply neverReturns_notify_throw.
    + apply (onReturn_ret sameErrorCalls).
Qed.

Lemma onReturn_parseResponseData response config :
  keepsOnReturn sameErrorCalls (parseResponseData response config).
Proof.
  unfold parseResponseData.
  destruct (default _ _);
    first [apply (onReturn_settle sameErrorCalls)
          |apply (onReturn_ret sameErrorCalls)].
Qed.

(** X1.  A call that returns has invoked no [onError] hook: neither a
    request interceptor's nor a response interceptor's. *)
Theorem no_error_hook_on_success config st r st' :
  executeRequest config st = (Returned r, st') →
  errorCalls (trace st') = errorCalls (trace st).
Proof.
  intros Hrun.
  destruct (applyRequestInterceptors config st) as [[fc|e] st1] eqn:H;
    [|by rewrite (executeRequest_request_throws _ _ _ _ H) in Hrun].
  assert (sameErrorCalls st st1) as H1.
  { unfold applyRequestInterceptors, bind, gets in H. simpl in H.
    exact (onReturn_requestLoop _ _ _ _ _ _ H). }
  rewrite (executeRequest_run _ _ _ _ H) in Hrun.
  assert (sameErrorCalls (dispatchState st1 fc) st') as H2.
  { revert Hrun. apply (onReturn_try_catch sameErrorCalls).
    - apply (onReturn_bind sameErrorCalls).
      + unfold undici_request. apply (onReturn_call sameErrorCalls).
        intros. by apply sameErrorCalls_call.
      + intros response. apply (onReturn_bind sameErrorCalls).
        * apply onReturn_parseResponseData.
        * intros data. unfold applyResponseInterceptors.
          apply (onReturn_bind sameErrorCalls);
            [apply (onReturn_gets sameErrorCalls)|].
          intros l. apply onReturn_responseLoop.
    - intros e. apply neverReturns_errorPath. }
  unfold sameErrorCalls in *. simpl in H2. congruence.
Qed.


Lemma no_error_hook_on_success_witness :
  (executeRequest Scenario.getUser Cases.quietState).1 =
    Returned (HttpResponse.mk Scenario.user 200 "OK" ∅) ∧
  errorCalls (trace (executeRequest Scenario.getUser Cases.quietState).2) = [].
Proof.
  split; [reflexivity|].
  apply (no_error_hook_on_success Scenario.getUser Cases.quietState
           (HttpResponse.mk Scenario.user 200 "OK" ∅)
           (executeRequest Scenario.getUser Cases.quietState).2).
  reflexivity.
Defined.

Lemma executeRequest_answered config st fc st1 response w2 :
  applyRequestInterceptors config st = (Returned fc, st1) →
  dispatch (agent (this st)) (buildUrl (this st) fc) (wireOptions st fc)
           (world st1) = (Returned response, w2) →
  executeRequest config st =
  try_catch
    (let* data := parseResponseData response fc in
     applyResponseInterceptors (createHttpResponse response data))
    (λ error, let* _ := handleRequestError error in throw error)
    (answeredState st st1 fc w2).
Proof.
  intros H Hd. rewrite (executeRequest_run _ _ _ _ H).
  unfold try_catch at 1, bind at 1, undici_request, call. simpl.
  rewrite Hd. reflexivity.
Qed.

Lemma answeredState_this st st1 fc w :
  sameClient st st1 → this (answeredState st st1 fc w) = this st.
Proof. by intros [H _]. Qed.

(** Response interceptors without [onResponse] leave response and state
    as they are. *)
Lemma responseLoop_hookless interceptors : ∀ i response st,
  Forall (λ ri, ResponseInterceptor.onResponse ri = None) interceptors →
  responseLoop i interceptors response st = (Returned response, st).
Proof.
  induction interceptors as [|x rest IH]; intros i response st Hall; [done|].
  apply Forall_cons in Hall as [Hx Hrest]. simpl.
  unfold bind, responseTurn. rewrite Hx. simpl. by apply IH.
Qed.

Lemma executeRequest_decoded config st fc st1 response w2 data :
  applyRequestInterceptors config st = (Returned fc, st1) →
  dispatch (agent (this st)) (buildUrl (this st) fc) (wireOptions st fc)
           (world st1) = (Returned response, w2) →
  (∀ s, parseResponseData response fc s = (Returned data, s)) →
  Forall (λ ri, ResponseInterceptor.onResponse ri = None)
         (responseInterceptors (this st)) →
  executeRequest config st =
  (Returned (createHttpResponse response data), answeredState st st1 fc w2).
Proof.
  intros H Hd Hp Hall.
  pose proof (requestPhase_sameClient config st) as Hs. rewrite H in Hs.
  rewrite (executeRequest_answered _ _ _ _ _ _ H Hd).
  apply try_catch_returned.
  rewrite (bind_returned _ _ _ _ _ (Hp _)).
  unfold applyResponseInterceptors, bind at 1, gets at 1.
  rewrite (answeredState_this _ _ _ _ Hs). by apply responseLoop_hookless.
Qed.

(** X3.  When the request chain returns, the transport answers, the body
    decodes and no response interceptor has an [onResponse] hook, the call
    returns the transport's status code and headers as they came, the
    decoded body as data and the status text of the code; the dispatch is
    the last event of the call, and the world is the one the transport
    left. *)
Theorem success_envelope config st fc st1 response w2 data :
  applyRequestInterceptors config st = (Returned fc, st1) →
  dispatch (agent (this st)) (buildUrl (this st) fc) (wireOptions st fc)
           (world st1) = (Returned response, w2) →
  (∀ s, parseResponseData response fc s = (Returned data, s)) →
  Forall (λ ri, ResponseInterceptor.onResponse ri = None)
         (responseInterceptors (this st)) →
  ∃ st',
    executeRequest config st =
      (Returned
         (HttpResponse.mk data (RawResponse.statusCode response)
            (getStatusText (RawResponse.statusCode response))
            (RawResponse.headers response)), st') ∧
    trace st' =
      trace st1 ++
      [Dispatched (buildUrl (this st) fc) (wireOptions st fc)] ∧
    world st' = w2.
Proof.
  intros H Hd Hp Hall. eexists. split.
  - exact (executeRequest_decoded _ _ _ _ _ _ _ H Hd Hp Hall).
  - done.
Qed.

Lemma success_envelope_witness :
  applyRequestInterceptors Scenario.getUser Cases.observedOnly =
    (Returned Scenario.getUser, Cases.observedOnly) ∧
  Forall (λ ri, ResponseInterceptor.onResponse ri = None)
         [Scenario.observerB] ∧
  ∃ st',
    executeRequest Scenario.getUser Cases.observedOnly =
      (Returned (HttpResponse.mk Scenario.user 200 "OK" ∅), st') ∧
    world st' = ∅.
Proof.
  assert (Forall (λ ri, ResponseInterceptor.onResponse ri = None)
                 [Scenario.observerB]) as Hall.
  { by apply Forall_cons. }
  split; [reflexivity|]. split; [exact Hall|].
  destruct (success_envelope Scenario.getUser Cases.observedOnly
              Scenario.getUser Cases.observedOnly
              (Scenario.reply 200 Scenario.user) ∅ Scenario.user
              eq_refl eq_refl (λ s, eq_refl) Hall)
    as (st' & H1 & _ & H3).
  exists st'. split; [exact H1|exact H3].
Defined.

Lemma filter_none {A} (P : A → Prop) `{∀ x, Decision (P x)} (l : list A) :
  Forall (λ x, ¬ P x) l → filter P l = [].
Proof.
  induction 1 as [|x l Hx _ IH]; [done|].
  by rewrite filter_cons_False.
Qed.

Lemma responseCalls_broadcast tr ev ris e :
  isResponseCall ev = false →
  responseCalls (tr ++ ev :: broadcast ris e) = responseCalls tr.
Proof.
  intros Hev. unfold responseCalls.
  rewrite filter_app, filter_cons_False by (by rewrite Hev).
  rewrite (filter_none _ (broadcast ris e)); [by rewrite app_nil_r|].
  apply Forall_forall. intros x Hx. unfold broadcast in Hx.
  apply list_elem_of_fmap in Hx as (j & -> & _). done.
Qed.

(** X4.  A body that does not decode is handled like a transport failure:
    when no [onError] hook throws, every response interceptor with an
    [onError] hook is notified of the decoder's error, once and in
    registration order, no [onResponse] hook is invoked, and the call
    rejects with the decoder's error. *)
Theorem decode_failure_is_broadcast config st fc st1 response w2 e :
  applyRequestInterceptors config st = (Returned fc, st1) →
  dispatch (agent (this st)) (buildUrl (this st) fc) (wireOptions st fc)
           (world st1) = (Returned response, w2) →
  (∀ s, parseResponseData response fc s = (Thrown e, s)) →
  errorHooksReturn (responseInterceptors (this st)) e →
  ∃ st',
    executeRequest config st = (Thrown e, st') ∧
    trace st' =
      trace st1 ++
      Dispatched (buildUrl (this st) fc) (wireOptions st fc) ::
      broadcast (responseInterceptors (this st)) e ∧
    responseCalls (trace st') = responseCalls (trace st1).
Proof.
  intros H Hd Hp Hret.
  pose proof (requestPhase_sameClient config st) as Hs. rewrite H in Hs.
  rewrite (executeRequest_answered _ _ _ _ _ _ H Hd).
  erewrite try_catch_thrown; last first.
  { apply bind_thrown. apply Hp. }
  rewrite <- (answeredState_this st st1 fc w2 Hs) in Hret.
  destruct (handleRequestError_run e _ Hret) as [w Hw].
  rewrite (bind_returned _ _ _ _ _ Hw). unfold throw.
  eexists. split; [reflexivity|].
  rewrite (answeredState_this _ _ _ _ Hs). simpl.
  rewrite <- app_assoc. split; [done|].
  by apply responseCalls_broadcast.
Qed.

Lemma decode_failure_is_broadcast_witness :
  applyRequestInterceptors Scenario.getUser Cases.textState =
    (Returned Scenario.getUser, Cases.textState) ∧
  errorHooksReturn (responseInterceptors (this Cases.textState))
                   Cases.decodeError ∧
  ∃ st',
    executeRequest Scenario.getUser Cases.textState =
      (Thrown Cases.decodeError, st') ∧
    drop 1 (trace st') = [ ResponseOnErrorCalled 0 Cases.decodeError ].
Proof.
  assert (errorHooksReturn (responseInterceptors (this Cases.textState))
                           Cases.decodeError) as Hret.
  { intros ri hook w Hin Hhook. simpl in Hin.
    apply elem_of_cons in Hin as [->|Hin]; [by inversion Hhook|].
    apply elem_of_cons in Hin as [->|Hin]; [by inversion Hhook|].
    by apply elem_of_nil in Hin. }
  split; [reflexivity|]. split; [exact Hret|].
  destruct (decode_failure_is_broadcast Scenario.getUser Cases.textState
              Scenario.getUser Cases.textState Cases.textReply ∅
              Cases.decodeError eq_refl eq_refl (λ s, eq_refl) Hret)
    as (st' & H1 & H2 & _).
  exists st'. split; [exact H1|]. rewrite H2. reflexivity.
Defined.

(** X5.  A call with response type [stream] gets the transport's body
    itself as data and cannot fail in decoding: whether the body would
    read as JSON, text or bytes plays no part. *)
Theorem stream_body_is_handed_over config st fc st1 response w2 :
  applyRequestInterceptors config st = (Returned fc, st1) →
  RequestConfig.responseType fc = Some stream →
  dispatch (agent (this st)) (buildUrl (this st) fc) (wireOptions st fc)
           (world st1) = (Returned response, w2) →
  Forall (λ ri, ResponseInterceptor.onResponse ri = None)
         (responseInterceptors (this st)) →
  ∃ r st',
    executeRequest config st = (Returned r, st') ∧
    HttpResponse.data r = RawResponse.body response ∧
    HttpResponse.status r = RawResponse.statusCode response.
Proof.
  intros H Hty Hd Hall.
  assert (∀ s, parseResponseData response fc s =
               (Returned (RawResponse.body response), s)) as Hp.
  { intros s. unfold parseResponseData. by rewrite Hty. }
  eexists _, _. split.
  - exact (executeRequest_decoded _ _ _ _ _ _ _ H Hd Hp Hall).
  - done.
Qed.

Lemma stream_body_is_handed_over_witness :
  applyRequestInterceptors Cases.asStream Cases.plainTextState =
    (Returned Cases.asStream, Cases.plainTextState) ∧
  RawResponse.body_json Cases.textReply = Thrown Cases.decodeError ∧
  ∃ r st',
    executeRequest Cases.asStream Cases.plainTextState = (Returned r, st') ∧
    HttpResponse.data r = Js.Stream [].
Proof.
  split; [reflexivity|]. split; [reflexivity|].
  destruct (stream_body_is_handed_over Cases.asStream Cases.plainTextState
              Cases.asStream Cases.plainTextState Cases.textReply ∅
              eq_refl eq_refl eq_refl (Forall_nil_2 _))
    as (r & st' & H1 & H2 & _).
  exists r, st'. split; [exact H1|exact H2].
Defined.

(* ===================================================================== *)
(** ** What is dispatched: further properties *)
(* ===================================================================== *)

(** X6.  The body timeout handed to the transport is the call's own
    timeout when it is given and not zero, and the client's default
    timeout otherwise: a per-call timeout of [0] does not switch the
    timeout off, it falls back to the default. *)
Theorem timeout_selection config st fc st1 :
  applyRequestInterceptors config st = (Returned fc, st1) →
  ∃ url opts,
    dispatches (trace (executeRequest config st).2) =
      dispatches (trace st) ++ [(url, opts)] ∧
    (∀ n, RequestConfig.timeout fc = Some n → n ≠ 0 →
          DispatchOptions.bodyTimeout opts = Some n) ∧
    (RequestConfig.timeout fc = Some 0 ∨ RequestConfig.timeout fc = None →
     DispatchOptions.bodyTimeout opts =
       HttpModuleOptions.timeout (options (this st))).
Proof.
  intros H. eexists _, _.
  split; [exact (executeRequest_dispatches _ _ _ _ H)|].
  simpl. unfold or_number. split.
  - intros n -> Hn. by apply Z.eqb_neq in Hn as ->.
  - by intros [-> | ->].
Qed.

Lemma timeout_selection_witness :
  applyRequestInterceptors (Cases.timed 0) Scenario.plainState =
    (Returned (Cases.timed 0), Scenario.plainState) ∧
  DispatchOptions.bodyTimeout <$>
    (dispatches
       (trace (executeRequest (Cases.timed 0) Scenario.plainState).2)).*2 =
    [ Some 5000 ].
Proof.
  split; [reflexivity|].
  destruct (timeout_selection (Cases.timed 0) Scenario.plainState
              (Cases.timed 0) Scenario.plainState eq_refl)
    as (url & opts & H1 & _ & H3).
  rewrite H1. simpl. rewrite H3 by (by left). reflexivity.
Defined.

Lemma configOf_fields op :
  match op with
  | Request _ => True
  | _ => RequestConfig.method (configOf op) = verbOf op ∧
         RequestConfig.url (configOf op) = targetOf op
  end ∧
  RequestConfig.data (configOf op) = payloadOf op ∧
  RequestConfig.headers (configOf op) = RequestConfig.headers (givenOf op) ∧
  RequestConfig.params (configOf op) = RequestConfig.params (givenOf op) ∧
  RequestConfig.timeout (configOf op) = RequestConfig.timeout (givenOf op) ∧
  RequestConfig.responseType (configOf op) =
    RequestConfig.responseType (givenOf op).
Proof. by destruct op. Qed.

(** X7.  Each verb operation hands the request chain a descriptor with
    its own method and the URL it was called with (and, for [post], [put]
    and [patch], the data it was called with), whatever the descriptor
    passed along says; headers, parameters, timeout and response type are
    taken over.  When the chain leaves the descriptor as it is, that
    method is the one dispatched. *)
Theorem verbs_set_method_and_url (op : Operation) (st st1 : State) :
  applyRequestInterceptors (configOf op) st = (Returned (configOf op), st1) →
  perform op st = executeRequest (configOf op) st ∧
  RequestConfig.method (configOf op) = verbOf op ∧
  RequestConfig.url (configOf op) = targetOf op ∧
  RequestConfig.data (configOf op) = payloadOf op ∧
  RequestConfig.headers (configOf op) = RequestConfig.headers (givenOf op) ∧
  RequestConfig.params (configOf op) = RequestConfig.params (givenOf op) ∧
  ∃ url opts,
    dispatches (trace (perform op st).2) =
      dispatches (trace st) ++ [(url, opts)] ∧
    DispatchOptions.method opts =
      default HTTP_DEFAULTS.DEFAULT_METHOD (verbOf op) ∧
    url = appendQueryParams
            (urlWithBase (this st) (configOf op))
            (RequestConfig.params (givenOf op)).
Proof.
  intros H. split; [apply perform_configOf|].
  assert (RequestConfig.method (configOf op) = verbOf op ∧
          RequestConfig.url (configOf op) = targetOf op) as [Hm Hu]
    by (by destruct op).
  destruct (configOf_fields op) as (_ & Hd & Hh & Hp & _).
  do 5 (split; [done|]).
  eexists _, _. rewrite perform_configOf.
  split; [exact (executeRequest_dispatches _ _ _ _ H)|].
  simpl. rewrite Hm. split; [done|]. unfold buildUrl. by rewrite Hp.
Qed.

Lemma verbs_set_method_and_url_witness :
  applyRequestInterceptors
    (configOf (Delete "/users/1" (Some Scenario.getUser)))
    Scenario.plainState =
    (Returned (configOf (Delete "/users/1" (Some Scenario.getUser))),
     Scenario.plainState) ∧
  (λ d, (d.1, DispatchOptions.method d.2)) <$>
    dispatches
      (trace (perform (Delete "/users/1" (Some Scenario.getUser))
                      Scenario.plainState).2) =
    [ ("https://api.test.com/users/1", DELETE) ].
Proof.
  split; [reflexivity|].
  destruct (verbs_set_method_and_url
              (Delete "/users/1" (Some Scenario.getUser))
              Scenario.plainState Scenario.plainState eq_refl)
    as (_ & _ & _ & _ & _ & _ & url & opts & H1 & H2 & H3).
  rewrite H1. simpl. rewrite H2, H3. reflexivity.
Defined.

(** X8.  A falsy payload is no payload: with data [undefined], [null],
    [false], [0] or the empty string the transport gets no body, and no
    [Content-Type] is added to the merged headers. *)
Theorem falsy_payload_sends_no_body config st fc st1 :
  applyRequestInterceptors config st = (Returned fc, st1) →
  RequestConfig.data fc ∈
    [Js.Undefined; Js.Null; Js.Bool false; Js.Number 0; Js.Str EmptyString] →
  ∃ url opts,
    dispatches (trace (executeRequest config st).2) =
      dispatches (trace st) ++ [(url, opts)] ∧
    DispatchOptions.body opts = Js.Undefined ∧
    DispatchOptions.headers opts =
      overlay (defaultHeaders st) (perCallHeaders fc).
Proof.
  intros H Hin.
  assert (Js.truthy (RequestConfig.data fc) = false) as Ht.
  { repeat (apply elem_of_cons in Hin as [->|Hin]; [done|]).
    by apply elem_of_nil in Hin. }
  eexists _, _. split; [exact (executeRequest_dispatches _ _ _ _ H)|].
  simpl. unfold wireBody, wireHeaders, stringifies. by rewrite Ht.
Qed.

Lemma falsy_payload_sends_no_body_witness :
  applyRequestInterceptors
    (with_url_method_data None "/counter" POST (Js.Number 0))
    Scenario.plainState =
    (Returned (with_url_method_data None "/counter" POST (Js.Number 0)),
     Scenario.plainState) ∧
  DispatchOptions.body <$>
    (dispatches
       (trace (executeRequest
                 (with_url_method_data None "/counter" POST (Js.Number 0))
                 Scenario.plainState).2)).*2 = [ Js.Undefined ].
Proof.
  split; [reflexivity|].
  destruct (falsy_payload_sends_no_body
              (with_url_method_data None "/counter" POST (Js.Number 0))
              Scenario.plainState
              (with_url_method_data None "/counter" POST (Js.Number 0))
              Scenario.plainState eq_refl)
    as (url & opts & H1 & H2 & _).
  { do 3 apply list_elem_of_further. apply list_elem_of_here. }
  rewrite H1. simpl. by rewrite H2.
Defined.

(** X9.  A truthy payload that is a primitive (a non-empty string, a
    non-zero number, [true]) or a multipart form reaches the transport as
    it is, and the headers are the merged headers: nothing is serialized
    and no [Content-Type] is added. *)
Theorem primitive_and_form_payloads_pass_through config st fc st1 :
  applyRequestInterceptors config st = (Returned fc, st1) →
  Js.truthy (RequestConfig.data fc) = true →
  Js.typeof (RequestConfig.data fc) ≠ "object" ∨
  (∃ entries, RequestConfig.data fc = Js.FormData entries) →
  ∃ url opts,
    dispatches (trace (executeRequest config st).2) =
      dispatches (trace st) ++ [(url, opts)] ∧
    DispatchOptions.body opts = RequestConfig.data fc ∧
    DispatchOptions.headers opts =
      overlay (defaultHeaders st) (perCallHeaders fc).
Proof.
  intros H Ht Hkind.
  assert (isJsonSerializable (RequestConfig.data fc) = false) as Hj.
  { unfold isJsonSerializable. destruct Hkind as [Hty|[entries ->]].
    - by rewrite bool_decide_eq_false_2.
    - by rewrite andb_false_r. }
  destruct (passthrough_body fc Ht Hj) as [Hb Hs].
  eexists _, _. split; [exact (executeRequest_dispatches _ _ _ _ H)|].
  simpl. split; [done|]. unfold wireHeaders. by rewrite Hs.
Qed.

Lemma primitive_and_form_payloads_pass_through_witness :
  applyRequestInterceptors
    (with_url_method_data None "/notes" POST (Js.Str "plain text"))
    Scenario.plainState =
    (Returned (with_url_method_data None "/notes" POST (Js.Str "plain text")),
     Scenario.plainState) ∧
  (λ d, (DispatchOptions.body d.2, map_to_list (DispatchOptions.headers d.2)))
    <$> dispatches
          (trace (executeRequest
                    (with_url_method_data None "/notes" POST
                                          (Js.Str "plain text"))
                    Scenario.plainState).2) =
    [ (Js.Str "plain text", []) ].
Proof.
  split; [reflexivity|].
  destruct (primitive_and_form_payloads_pass_through
              (with_url_method_data None "/notes" POST (Js.Str "plain text"))
              Scenario.plainState
              (with_url_method_data None "/notes" POST (Js.Str "plain text"))
              Scenario.plainState eq_refl eq_refl)
    as (url & opts & H1 & H2 & H3).
  { left. done. }
  rewrite H1. simpl. rewrite H2, H3. reflexivity.
Defined.

(** X10.  When the payload is serialized to JSON, the [Content-Type]
    header is looked up under exactly that spelling and an empty value
    counts as missing: every other key of the merged headers, a
    [content-type] in another case included, is dispatched as it is, and
    [Content-Type: application/json] is set beside it when the merged
    headers have no [Content-Type] or an empty one. *)
Theorem content_type_is_matched_exactly config st fc st1 :
  applyRequestInterceptors config st = (Returned fc, st1) →
  stringifies fc = true →
  ∃ url opts,
    dispatches (trace (executeRequest config st).2) =
      dispatches (trace st) ++ [(url, opts)] ∧
    (∀ k, k ≠ "Content-Type" →
          DispatchOptions.headers opts !! k =
          overlay (defaultHeaders st) (perCallHeaders fc) !! k) ∧
    (overlay (defaultHeaders st) (perCallHeaders fc) !! "Content-Type" = None ∨
     overlay (defaultHeaders st) (perCallHeaders fc) !! "Content-Type"
       = Some EmptyString →
     DispatchOptions.headers opts !! "Content-Type" = Some "application/json").
Proof.
  intros H Hs. eexists _, _.
  split; [exact (executeRequest_dispatches _ _ _ _ H)|]. simpl. split.
  - intros k Hk. by apply wireHeaders_other.
  - intros Hct. unfold wireHeaders. rewrite Hs, lookup_insert_eq.
    by destruct Hct as [-> | ->].
Qed.

Lemma content_type_is_matched_exactly_witness :
  applyRequestInterceptors Cases.lowerCasePost Scenario.plainState =
    (Returned Cases.lowerCasePost, Scenario.plainState) ∧
  stringifies Cases.lowerCasePost = true ∧
  ∃ url opts,
    dispatches
      (trace (executeRequest Cases.lowerCasePost Scenario.plainState).2) =
      [(url, opts)] ∧
    DispatchOptions.headers opts !! "content-type" = Some "text/plain" ∧
    DispatchOptions.headers opts !! "Content-Type" = Some "application/json".
Proof.
  split; [reflexivity|]. split; [reflexivity|].
  destruct (content_type_is_matched_exactly Cases.lowerCasePost
              Scenario.plainState Cases.lowerCasePost Scenario.plainState
              eq_refl eq_refl) as (url & opts & H1 & H2 & H3).
  exists url, opts. split; [exact H1|]. split.
  - rewrite H2 by done. reflexivity.
  - apply H3. left. reflexivity.
Defined.

Lemma append_empty_r s : s +:+ EmptyString = s.
Proof. induction s as [|a s IH]; [done|]. by rewrite append_cons, IH. Qed.

(** X11.  An empty parameter object still appends the separator: the
    dispatched URL is the resolved URL followed by a bare [?] (or [&] when
    the resolved URL has a [?] already), and its query holds no pair more
    than the resolved URL had. *)
Theorem empty_params_append_separator config st fc st1 :
  applyRequestInterceptors config st = (Returned fc, st1) →
  RequestConfig.params fc = Some [] →
  let resolved := urlWithBase (this st) fc in
  (dispatches (trace (executeRequest config st).2)).*1 =
    (dispatches (trace st)).*1 ++
    [resolved +:+ (if Js.includes resolved "?" then "&" else "?")] ∧
  (Js.includes resolved "?" = false →
   Js.parse_query (Js.query_of (resolved +:+ "?")) = []).
Proof.
  intros H Hp resolved. split.
  - rewrite (executeRequest_dispatches _ _ _ _ H), fmap_app. simpl.
    unfold buildUrl, appendQueryParams. rewrite Hp. simpl.
    fold resolved. by destruct (Js.includes resolved "?").
  - intros Hno. rewrite includes_char in Hno.
    destruct (has_char "#" resolved) eqn:Hfrag.
    + by rewrite (query_of_fragment _ _ Hfrag), (query_of_none _ Hno).
    + pose proof (query_of_appended resolved EmptyString Hno Hfrag eq_refl)
        as Hq.
      change (resolved +:+ "?" +:+ EmptyString) with (resolved +:+ "?") in Hq.
      by rewrite Hq.
Qed.

Lemma empty_params_append_separator_witness :
  applyRequestInterceptors
    (with_url_method (Some Cases.noParams) "/users" GET)
    Scenario.plainState =
    (Returned (with_url_method (Some Cases.noParams) "/users" GET),
     Scenario.plainState) ∧
  (dispatches
     (trace (executeRequest
               (with_url_method (Some Cases.noParams) "/users" GET)
               Scenario.plainState).2)).*1 =
    [ "https://api.test.com/users?" ].
Proof.
  split; [reflexivity|].
  exact (proj1 (empty_params_append_separator
                  (with_url_method (Some Cases.noParams) "/users" GET)
                  Scenario.plainState
                  (with_url_method (Some Cases.noParams) "/users" GET)
                  Scenario.plainState eq_refl eq_refl)).
Defined.

(* ===================================================================== *)
(** ** The interceptor chains: further properties *)
(* ===================================================================== *)

Lemma requestLoop_app pre : ∀ post i config st,
  requestLoop i (pre ++ post) config st =
  (let* config := requestLoop i pre config in
   requestLoop (i + length pre) post config) st.
Proof.
  induction pre as [|x pre IH]; intros post i config st; simpl.
  - unfold bind, ret. by rewrite Nat.add_0_r.
  - unfold bind at 1 2.
    destruct (requestTurn i x config st) as [[r|e] st'] eqn:Ht.
    + rewrite IH, (bind_returned _ _ _ _ _ Ht).
      by replace (i + S (length pre))%nat with (S i + length pre)%nat by lia.
    + by rewrite (bind_thrown _ _ _ _ _ Ht).
Qed.

Lemma errorLoop_app pre : ∀ post i e st,
  errorLoop i (pre ++ post) e st =
  (let* _ := errorLoop i pre e in errorLoop (i + length pre) post e) st.
Proof.
  induction pre as [|x pre IH]; intros post i e st; simpl.
  - unfold bind, ret. by rewrite Nat.add_0_r.
  - unfold bind at 1 2.
    destruct (notify _ _ e st) as [[[]|e'] st'] eqn:Hn.
    + rewrite IH, (bind_returned _ _ _ _ _ Hn).
      by replace (i + S (length pre))%nat with (S i + length pre)%nat by lia.
    + by rewrite (bind_thrown _ _ _ _ _ Hn).
Qed.

(** X13.  The three loops over the interceptor lists compose: running a
    chain over a list that is one list followed by another is running it
    over the first and then, unless that threw, over the second, which
    counts its positions on from the length of the first. *)
Theorem chains_compose pre_q post_q pre_r post_r i config response e st :
  requestLoop i (pre_q ++ post_q) config st =
    (let* config := requestLoop i pre_q config in
     requestLoop (i + length pre_q) post_q config) st ∧
  responseLoop i (pre_r ++ post_r) response st =
    (let* response := responseLoop i pre_r response in
     responseLoop (i + length pre_r) post_r response) st ∧
  errorLoop i (pre_r ++ post_r) e st =
    (let* _ := errorLoop i pre_r e in
     errorLoop (i + length pre_r) post_r e) st.
Proof.
  split; [apply requestLoop_app|].
  split; [apply responseLoop_app|apply errorLoop_app].
Qed.

Lemma requestLoop_hookless interceptors : ∀ i config st,
  Forall (λ qi, RequestInterceptor.onRequest qi = None) interceptors →
  requestLoop i interceptors config st = (Returned config, st).
Proof.
  induction interceptors as [|x rest IH]; intros i config st Hall; [done|].
  apply Forall_cons in Hall as [Hx Hrest]. simpl.
  unfold bind, requestTurn. rewrite Hx. simpl. by apply IH.
Qed.

(** X14.  Interceptors that lack the transforming hook are passed over,
    not failed on: a request chain whose interceptors have no [onRequest]
    returns the caller's descriptor in an unchanged state, whatever
    [onError] hooks they have, and a response chain whose interceptors
    have no [onResponse] does the same with the response. *)
Theorem hookless_interceptors_are_passed_over config response st :
  Forall (λ qi, RequestInterceptor.onRequest qi = None)
         (requestInterceptors (this st)) →
  Forall (λ ri, ResponseInterceptor.onResponse ri = None)
         (responseInterceptors (this st)) →
  applyRequestInterceptors config st = (Returned config, st) ∧
  applyResponseInterceptors response st = (Returned response, st).
Proof.
  intros Hq Hr. split.
  - unfold applyRequestInterceptors, bind, gets. simpl.
    by apply requestLoop_hookless.
  - unfold applyResponseInterceptors, bind, gets. simpl.
    by apply responseLoop_hookless.
Qed.

Lemma hookless_interceptors_are_passed_over_witness :
  Forall (λ qi, RequestInterceptor.onRequest qi = None)
         [Cases.idle; Cases.idle] ∧
  applyRequestInterceptors Scenario.getUser Cases.idleState =
    (Returned Scenario.getUser, Cases.idleState).
Proof.
  assert (Forall (λ qi, RequestInterceptor.onRequest qi = None)
                 [Cases.idle; Cases.idle]) as Hq.
  { repeat apply Forall_cons_2; [done..|apply Forall_nil_2]. }
  split; [exact Hq|].
  exact (proj1 (hookless_interceptors_are_passed_over Scenario.getUser
                  (HttpResponse.mk Scenario.user 200 "OK" ∅)
                  Cases.idleState Hq (Forall_nil_2 _))).
Defined.

(** X15.  The request chain, for every list and every failing position.
    When the hooks before position [length pre] have returned and the
    [onRequest] hook at that position throws [e], that interceptor's own
    [onError] hook, if it has one, is invoked with [e] and nothing else
    happens: no later [onRequest], no dispatch, no [onError] hook of any
    other interceptor.  The call rejects, with [e] if the interceptor has
    no [onError] hook. *)
Theorem request_failure_general pre B post hook config st c s e w :
  requestInterceptors (this st) = pre ++ B :: post →
  requestLoop 0 pre config st = (Returned c, s) →
  RequestInterceptor.onRequest B = Some hook →
  hook c (world s) = (Thrown e, w) →
  ∃ e' st',
    executeRequest config st = (Thrown e', st') ∧
    trace st' =
      trace s ++ [OnRequestCalled (length pre) c] ++
      (if RequestInterceptor.onError B is Some _
       then [RequestOnErrorCalled (length pre) e] else []) ∧
    dispatches (trace st') = dispatches (trace st) ∧
    (RequestInterceptor.onError B = None → e' = e ∧ world st' = w).
Proof.
  intros Hl Hpre Hhook Hthrow.
  assert (∃ e' st',
    applyRequestInterceptors config st = (Thrown e', st') ∧
    trace st' =
      trace s ++ [OnRequestCalled (length pre) c] ++
      (if RequestInterceptor.onError B is Some _
       then [RequestOnErrorCalled (length pre) e] else []) ∧
    (RequestInterceptor.onError B = None → e' = e ∧ world st' = w))
    as (e' & st' & Hrun & Htr & Hnone).
  { unfold applyRequestInterceptors, bind at 1, gets at 1. rewrite Hl.
    rewrite requestLoop_app, (bind_returned _ _ _ _ _ Hpre). simpl.
    unfold bind at 1.
    rewrite (requestTurn_thrown _ _ hook _ _ e w Hhook Hthrow).
    unfold bind, notify, call, throw. simpl.
    destruct (RequestInterceptor.onError B) as [onErr|]; simpl.
    - destruct (onErr e w) as [[[]|e2] w1]; simpl;
        eexists _, _; (split; [reflexivity|]); simpl;
        rewrite <- ?app_assoc; simpl; by split.
    - eexists _, _. split; [reflexivity|]. simpl.
      rewrite <- ?app_assoc. by repeat split. }
  exists e', st'. rewrite (executeRequest_request_throws _ _ _ _ Hrun).
  split; [done|]. split; [done|]. split; [|done].
  pose proof (requestPhase_sameDispatches config st) as Hd.
  by rewrite Hrun in Hd.
Qed.

Lemma request_failure_general_witness :
  requestInterceptors (this Cases.lateReject) =
    [Cases.idle; Scenario.tagA] ++ Scenario.rejectB :: [Scenario.tagC] ∧
  ∃ e' st',
    executeRequest Scenario.getUser Cases.lateReject = (Thrown e', st') ∧
    trace st' =
      [ OnRequestCalled 1 Scenario.getUser;
        OnRequestCalled 2 (Scenario.addHeader "X-A" "1" Scenario.getUser);
        RequestOnErrorCalled 2 Scenario.hookError ].
Proof.
  split; [reflexivity|].
  destruct (request_failure_general
              [Cases.idle; Scenario.tagA] Scenario.rejectB [Scenario.tagC]
              (λ _ w, (Thrown Scenario.hookError, w))
              Scenario.getUser Cases.lateReject
              (Scenario.addHeader "X-A" "1" Scenario.getUser)
              (mkState (this Cases.lateReject) ∅ ∅
                       [OnRequestCalled 1 Scenario.getUser])
              Scenario.hookError ∅ eq_refl eq_refl eq_refl eq_refl)
    as (e' & st' & H1 & H2 & _).
  exists e', st'. split; [exact H1|exact H2].
Defined.

Lemma errorLoop_stops B post hook e e2 st i :
  ResponseInterceptor.onError B = Some hook →
  (∀ w, (hook e w).1 = Thrown e2) →
  ∃ w, errorLoop i (B :: post) e st =
       (Thrown e2,
        mkState (this st) (heap st) w
                (trace st ++ [ResponseOnErrorCalled i e])).
Proof.
  intros Hhook Hthrow. simpl. unfold bind, notify, call. rewrite Hhook. simpl.
  specialize (Hthrow (world st)).
  destruct (hook e (world st)) as [r w]. simpl in Hthrow. subst r. simpl.
  by exists w.
Qed.

(** X16.  The error broadcast stops at the first [onError] hook that
    throws.  When the transport rejects with [e], the hooks before
    position [length pre] return and the hook at that position throws
    [e2], the interceptors before it are notified as in a full broadcast,
    the one at that position is invoked, no later one is, and the call
    rejects with [e2] instead of [e]. *)
Theorem broadcast_stops_at_first_failure pre B post hook config st fc st1 e e2
    w2 :
  applyRequestInterceptors config st = (Returned fc, st1) →
  dispatch (agent (this st)) (buildUrl (this st) fc) (wireOptions st fc)
           (world st1) = (Thrown e, w2) →
  responseInterceptors (this st) = pre ++ B :: post →
  errorHooksReturn pre e →
  ResponseInterceptor.onError B = Some hook →
  (∀ w, (hook e w).1 = Thrown e2) →
  ∃ st',
    executeRequest config st = (Thrown e2, st') ∧
    trace st' =
      trace st1 ++
      Dispatched (buildUrl (this st) fc) (wireOptions st fc) ::
      broadcast pre e ++ [ResponseOnErrorCalled (length pre) e].
Proof.
  intros H Hd Hl Hret Hhook Hthrow.
  pose proof (requestPhase_sameClient config st) as Hs.
  rewrite H in Hs. destruct Hs as [Ht Hh]. simpl in Ht, Hh.
  rewrite (executeRequest_run _ _ _ _ H).
  unfold try_catch, bind at 1, undici_request, call. simpl.
  rewrite Hd. simpl.
  set (st2 := set_world w2 _).
  assert (this st2 = this st) as Ht2 by (by subst st2).
  unfold bind at 1, handleRequestError, bind at 1, gets at 1.
  rewrite Ht2, Hl, errorLoop_app.
  destruct (errorLoop_run pre 0 e st2 Hret) as [w Hw].
  rewrite (bind_returned _ _ _ _ _ Hw).
  destruct (errorLoop_stops B post hook e e2
              (mkState (this st2) (heap st2) w
                       (trace st2 ++ broadcastFrom 0 pre e))
              (0 + length pre) Hhook Hthrow) as [w' Hw'].
  rewrite Hw'. eexists. split; [reflexivity|].
  subst st2. simpl. by rewrite broadcastFrom_zero, <- !app_assoc.
Qed.

Lemma broadcast_stops_at_first_failure_witness :
  applyRequestInterceptors Scenario.getUser Cases.brokenSecond =
    (Returned Scenario.getUser, Cases.brokenSecond) ∧
  errorHooksReturn [Scenario.observerB] Scenario.networkError ∧
  ∃ st',
    executeRequest Scenario.getUser Cases.brokenSecond =
      (Thrown Scenario.hookError, st') ∧
    drop 1 (trace st') =
      [ ResponseOnErrorCalled 0 Scenario.networkError;
        ResponseOnErrorCalled 1 Scenario.networkError ].
Proof.
  assert (errorHooksReturn [Scenario.observerB] Scenario.networkError)
    as Hret.
  { intros ri hook w Hin Hhook.
    apply elem_of_cons in Hin as [->|Hin]; [by inversion Hhook|].
    by apply elem_of_nil in Hin. }
  split; [reflexivity|]. split; [exact Hret|].
  destruct (broadcast_stops_at_first_failure
              [Scenario.observerB] Scenario.brokenA [Scenario.failingA]
              (λ _ w, (Thrown Scenario.hookError, w))
              Scenario.getUser Cases.brokenSecond
              Scenario.getUser Cases.brokenSecond
              Scenario.networkError Scenario.hookError ∅
              eq_refl eq_refl eq_refl Hret eq_refl (λ w, eq_refl))
    as (st' & H1 & H2).
  exists st'. split; [exact H1|]. rewrite H2. reflexivity.
Defined.

Section Late.
Context (R : State → State → Prop) `{!PreOrder R}.
Hypothesis R_late :
  ∀ st w ev, isRequestHook ev = false → R st (set_world w (log ev st)).

Ltac late_step :=
  first
    [ by apply keeps_ret
    | by apply keeps_throw
    | by apply keeps_gets
    | by apply keeps_settle
    | by (apply keeps_call; intros; apply R_late)
    | by (apply keeps_notify; [done|]; intros; apply R_late)
    | apply keeps_bind; [done| |]
    | apply keeps_try_catch; [done| |]
    | intros ? ].

Lemma late_responseLoop interceptors : ∀ i response,
  keeps R (responseLoop i interceptors response).
Proof.
  induction interceptors as [|x rest IH]; intros i response; simpl.
  - late_step.
  - late_step; [|intros c; apply IH].
    unfold responseTurn.
    destruct (ResponseInterceptor.onResponse x); repeat late_step.
Qed.

Lemma late_errorLoop interceptors : ∀ i e,
  keeps R (errorLoop i interceptors e).
Proof.
  induction interceptors as [|x rest IH]; intros i e; simpl.
  - late_step.
  - late_step; [late_step|]. intros _. apply IH.
Qed.

Lemma late_attempt url opts dispatcher config :
  keeps R
    (try_catch
       (let* response := undici_request url opts dispatcher in
        let* data := parseResponseData response config in
        applyResponseInterceptors (createHttpResponse response data))
       (λ error, let* _ := handleRequestError error in throw error)).
Proof.
  late_step.
  - late_step; [unfold undici_request; late_step|]. intros response.
    late_step.
    + unfold parseResponseData. destruct (default _ _); late_step.
    + intros data. unfold applyResponseInterceptors.
      late_step; [late_step|]. intros l. apply late_responseLoop.
  - intros e. late_step; [|repeat late_step].
    unfold handleRequestError. late_step; [late_step|].
    intros l. apply late_errorLoop.
Qed.

End Late.

Global Instance sameRequestHooks_preorder : PreOrder sameRequestHooks.
Proof. split; [done|]. unfold sameRequestHooks. intros x y z. congruence. Qed.

Lemma sameRequestHooks_late st w ev :
  isRequestHook ev = false → sameRequestHooks st (set_world w (log ev st)).
Proof.
  intros H. unfold sameRequestHooks, requestHookCalls. simpl.
  rewrite filter_app, filter_cons_False by (by rewrite H).
  by rewrite filter_nil, app_nil_r.
Qed.

(** X17.  Once the request chain has returned, no hook of a request
    interceptor is invoked again in the call: a transport failure, a
    decoding failure or a failing response interceptor is reported to the
    response interceptors only, never to a request interceptor's
    [onError]. *)
Theorem request_interceptors_not_notified_later config st fc st1 :
  applyRequestInterceptors config st = (Returned fc, st1) →
  requestHookCalls (trace (executeRequest config st).2) =
  requestHookCalls (trace st1).
Proof.
  intros H. rewrite (executeRequest_run _ _ _ _ H).
  exact (late_attempt sameRequestHooks sameRequestHooks_late _ _ _ _
           (dispatchState st1 fc)).
Qed.

Lemma request_interceptors_not_notified_later_witness :
  applyRequestInterceptors Scenario.getUser Cases.bothSides =
    (Returned (Scenario.addHeader "X-A" "1" Scenario.getUser),
     mkState (this Cases.bothSides) ∅ ∅
             [OnRequestCalled 0 Scenario.getUser]) ∧
  (executeRequest Scenario.getUser Cases.bothSides).1 =
    Thrown Scenario.networkError ∧
  requestHookCalls
    (trace (executeRequest Scenario.getUser Cases.bothSides).2) =
    [ OnRequestCalled 0 Scenario.getUser ].
Proof.
  split; [reflexivity|]. split; [reflexivity|].
  exact (request_interceptors_not_notified_later Scenario.getUser
           Cases.bothSides
           (Scenario.addHeader "X-A" "1" Scenario.getUser)
           (mkState (this Cases.bothSides) ∅ ∅
                    [OnRequestCalled 0 Scenario.getUser]) eq_refl).
Defined.

(* ===================================================================== *)
(** ** The constructor *)
(* ===================================================================== *)

Lemma construct_fields opts new_agent :
  options (construct opts new_agent) = opts ∧
  agent (construct opts new_agent) = createAgent opts new_agent ∧
  requestInterceptors (construct opts new_agent) = configuredRequest opts ∧
  responseInterceptors (construct opts new_agent) = configuredResponse opts.
Proof.
  unfold construct, initializeInterceptors, configuredRequest,
    configuredResponse. simpl.
  by destruct (HttpModuleOptions.interceptors opts).
Qed.

(* ===================================================================== *)
(** ** The executor on every value: when the preparation throws *)
(* ===================================================================== *)

Lemma general_buildUrl U self config st :
  General.buildUrl U self config st = (General.preparedUrl U self config, st).
Proof.
  unfold General.buildUrl, General.appendQueryParams, General.preparedUrl.
  destruct (RequestConfig.params config) as [params|]; [|done].
  unfold bind, settle, ret. by destruct (U params).
Qed.

Lemma general_prepareRequestBody_run J config l st m :
  heap st !! l = Some m →
  General.prepareRequestBody J config l st =
  (General.preparedBody J config,
   set_heap (<[l := if stringifies config
                    then <["Content-Type" :=
                            or_string (m !! "Content-Type")
                              HTTP_DEFAULTS.DEFAULT_CONTENT_TYPE]> m
                    else m]> (heap st)) st).
Proof.
  intros Hl.
  unfold General.prepareRequestBody, General.preparedBody, stringifies.
  destruct (Js.truthy (RequestConfig.data config)); simpl.
  - destruct (isJsonSerializable (RequestConfig.data config)); simpl.
    + unfold bind, read, gets, write, settle. simpl. by rewrite Hl.
    + unfold ret. by rewrite insert_id, set_heap_same.
  - unfold ret. by rewrite insert_id, set_heap_same.
Qed.

Lemma performRequest_sends url config body st :
  performRequest url config (fresh (dom (heap st))) body
                 (dispatchState st config) =
  undici_request url
    (DispatchOptions.mk
       (default HTTP_DEFAULTS.DEFAULT_METHOD (RequestConfig.method config))
       (wireHeaders st config) body
       (or_number (RequestConfig.timeout config)
                  (HttpModuleOptions.timeout (options (this st)))))
    (agent (this st)) (dispatchState st config).
Proof.
  unfold performRequest, bind, gets, read, dispatchState.
  simpl. by rewrite lookup_insert_eq.
Qed.

Lemma wireHeaders_sameClient st st' config :
  sameClient st st' → wireHeaders st' config = wireHeaders st config.
Proof.
  intros [Ht Hh]. unfold wireHeaders, defaultHeaders. by rewrite Ht, Hh.
Qed.

(** A call whose request chain returns [fc]: if the URL cannot be built
    the call ends in the state the chain left; if the body cannot be
    serialized it ends with the header object made; otherwise it goes on
    to dispatch. *)
Lemma general_run J U config st fc st1 :
  applyRequestInterceptors config st = (Returned fc, st1) →
  General.executeRequest J U config st =
  match General.preparedUrl U (this st) fc with
  | Thrown e => (Thrown e, st1)
  | Returned url =>
      match General.prepared J U st fc with
      | Thrown e => (Thrown e, dispatchState st1 fc)
      | Returned (_, opts) =>
          General.attempt url opts (agent (this st)) fc (dispatchState st1 fc)
      end
  end.
Proof.
  intros H. pose proof (requestPhase_sameClient config st) as Hs.
  rewrite H in Hs. simpl in Hs.
  unfold General.executeRequest. rewrite (bind_returned _ _ _ _ _ H).
  unfold bind at 1, gets at 1. unfold bind at 1.
  rewrite general_buildUrl. unfold General.prepared.
  destruct Hs as [Ht Hh]. rewrite Ht.
  destruct (General.preparedUrl U (this st) fc) as [url|e]; [|done].
  rewrite (bind_returned _ _ _ _ _ (mergeHeaders_run fc st1)).
  unfold bind at 1.
  erewrite general_prepareRequestBody_run; last first.
  { simpl. apply lookup_insert_eq. }
  assert (set_heap
            (<[fresh (dom (heap st1)) :=
                if stringifies fc
                then <["Content-Type" :=
                        or_string
                          (overlay (defaultHeaders st1) (perCallHeaders fc)
                             !! "Content-Type")
                          HTTP_DEFAULTS.DEFAULT_CONTENT_TYPE]>
                       (overlay (defaultHeaders st1) (perCallHeaders fc))
                else overlay (defaultHeaders st1) (perCallHeaders fc)]>
               (heap
                  (set_heap
                     (<[fresh (dom (heap st1)) :=
                         overlay (defaultHeaders st1) (perCallHeaders fc)]>
                        (heap st1)) st1)))
            (set_heap
               (<[fresh (dom (heap st1)) :=
                   overlay (defaultHeaders st1) (perCallHeaders fc)]>
                  (heap st1)) st1) = dispatchState st1 fc) as ->.
  { unfold dispatchState, wireHeaders, set_heap. simpl.
    by rewrite insert_insert_eq. }
  destruct (General.preparedBody J fc) as [body|e]; [|done].
  unfold General.attempt, try_catch. unfold bind at 1 4.
  rewrite performRequest_sends.
  assert (sameClient st st1) as Hs by done.
  by rewrite (wireHeaders_sameClient _ _ _ Hs), Ht.
Qed.

(** On the values of [Js.Value] the conversions return: the preparation
    gives the URL and the options of [Http] and [Obs]. *)
Lemma general_prepared_plain st config :
  General.prepared General.plain_stringify General.plain_toString st config =
  Returned (buildUrl (this st) config, wireOptions st config).
Proof.
  unfold General.prepared, General.preparedUrl, General.preparedBody,
    General.plain_toString, General.plain_stringify, buildUrl,
    appendQueryParams, wireOptions, wireBody.
  destruct (RequestConfig.params config);
    destruct (negb _); try done;
    by destruct (isJsonSerializable _).
Qed.

(** On the values of [Js.Value] the general executor is
    [executeRequest]. *)
Lemma general_plain config st :
  General.executeRequest General.plain_stringify General.plain_toString
                         config st =
  executeRequest config st.
Proof.
  destruct (applyRequestInterceptors config st) as [[fc|e] st1] eqn:H.
  - rewrite (general_run _ _ _ _ _ _ H), (executeRequest_run _ _ _ _ H).
    rewrite (general_prepared_plain st fc).
    assert (General.preparedUrl General.plain_toString (this st) fc =
            Returned (buildUrl (this st) fc)) as ->; [|done].
    unfold General.preparedUrl, General.plain_toString, buildUrl,
      appendQueryParams.
    by destruct (RequestConfig.params fc).
  - unfold General.executeRequest, executeRequest.
    by rewrite !(bind_thrown _ _ _ _ _ H).
Qed.

Lemma attempt_sameClient url opts dispatcher config st :
  sameClient st (General.attempt url opts dispatcher config st).2.
Proof.
  revert st. change (keeps sameClient (General.attempt url opts dispatcher
                                                       config)).
  unfold General.attempt.
  apply keeps_try_catch; [exact sameClient_preorder| |].
  - apply keeps_bind; [exact sameClient_preorder| |].
    + unfold undici_request. by apply keeps_call.
    + intros r. apply keeps_afterDispatch;
        [exact sameClient_preorder|exact sameClient_quiet].
  - intros e. apply keeps_errorPath;
      [exact sameClient_preorder|exact sameClient_quiet].
Qed.

(** Once the transport is invoked, it is invoked once. *)
Lemma attempt_dispatches url opts dispatcher config st :
  dispatches (trace (General.attempt url opts dispatcher config st).2) =
  dispatches (trace st) ++ [(url, opts)].
Proof.
  unfold General.attempt, try_catch, bind at 1, undici_request, call. simpl.
  set (st2 := set_world _ _).
  assert (dispatches (trace st2) = dispatches (trace st) ++ [(url, opts)])
    as Hst2.
  { subst st2. simpl. by rewrite dispatches_log_dispatch. }
  destruct (dispatch _ _ _ _) as [[response|e] w] eqn:Hr; simpl.
  - pose proof (keeps_afterDispatch sameDispatches
                  (λ st w ev H, sameDispatches_call st w ev H)
                  response config st2) as Hk.
    unfold sameDispatches in Hk. rewrite <- Hst2, <- Hk.
    destruct (bind _ _ st2) as [[r|e] st3] eqn:Hb; simpl; [done|].
    pose proof (keeps_errorPath sameDispatches
                  (λ st w ev H, sameDispatches_call st w ev H) e st3) as Hk2.
    exact Hk2.
  - pose proof (keeps_errorPath sameDispatches
                  (λ st w ev H, sameDispatches_call st w ev H) e st2) as Hk2.
    unfold sameDispatches in Hk2. by rewrite <- Hst2, <- Hk2.
Qed.

(** A call that is prepared dispatches once, and a call whose
    preparation throws ends with that error, with no event after the
    request chain. *)
Lemma general_dispatches J U config st fc st1 url opts :
  applyRequestInterceptors config st = (Returned fc, st1) →
  General.prepared J U st fc = Returned (url, opts) →
  dispatches (trace (General.executeRequest J U config st).2) =
  dispatches (trace st) ++ [(url, opts)].
Proof.
  intros H Hp. pose proof (requestPhase_sameDispatches config st) as Hd.
  rewrite H in Hd. unfold sameDispatches in Hd. simpl in Hd.
  rewrite (general_run _ _ _ _ _ _ H).
  unfold General.prepared in Hp |- *.
  destruct (General.preparedUrl _ _ fc) as [u|e]; [|done].
  destruct (General.preparedBody _ fc) as [body|e]; [|done].
  injection Hp as <- <-. rewrite attempt_dispatches. simpl. by rewrite Hd.
Qed.

Lemma general_rejects J U config st fc st1 e :
  applyRequestInterceptors config st = (Returned fc, st1) →
  General.prepared J U st fc = Thrown e →
  (General.executeRequest J U config st).1 = Thrown e ∧
  trace (General.executeRequest J U config st).2 = trace st1.
Proof.
  intros H Hp. rewrite (general_run _ _ _ _ _ _ H).
  unfold General.prepared in Hp |- *.
  destruct (General.preparedUrl _ _ fc) as [u|e1]; [|by injection Hp as ->].
  destruct (General.preparedBody _ fc) as [body|e1]; [done|].
  by injection Hp as ->.
Qed.

(** Without response interceptors the dispatch is the only event. *)
Lemma attempt_hookless url opts dispatcher config st :
  responseInterceptors (this st) = [] →
  trace (General.attempt url opts dispatcher config st).2 =
  trace st ++ [Dispatched url opts].
Proof.
  intros Hr.
  unfold General.attempt, try_catch, bind at 1, undici_request, call. simpl.
  destruct (dispatch _ _ _ _) as [[response|e] w]; simpl.
  - unfold bind at 1.
    destruct (parseResponseData response config _) as [[data|e] s] eqn:Hp.
    + assert (s = set_world w (log (Dispatched url opts) st)) as ->.
      { revert Hp. unfold parseResponseData, settle, ret.
        destruct (default _ _); by intros [= _ <-]. }
      unfold applyResponseInterceptors, bind, gets. simpl. by rewrite Hr.
    + assert (s = set_world w (log (Dispatched url opts) st)) as ->.
      { revert Hp. unfold parseResponseData, settle, ret.
        destruct (default _ _); by intros [= _ <-]. }
      unfold handleRequestError, bind, gets. simpl. by rewrite Hr.
  - unfold handleRequestError, bind, gets. simpl. by rewrite Hr.
Qed.

(** X2.  A call dispatches at most once and nothing is retried.  When the
    request chain throws, the call rejects with that error and dispatches
    nothing.  When the chain returns a descriptor, URL, headers and body
    are prepared outside the [try]: if [new URLSearchParams] or
    [JSON.stringify] throws (a Symbol among the parameters, a cyclic
    object or a BigInt in the payload), the call rejects with that error
    without a dispatch and without any [onError] hook being invoked;
    otherwise the call dispatches exactly once, with the prepared URL and
    options, whatever fails afterwards. *)
Theorem one_dispatch_per_call
    (JSON_stringify : Js.Value → Outcome Js.Value)
    (URLSearchParams_toString : list (string * Js.Value) → Outcome string)
    (config : RequestConfig.t) (st : State) :
  let run :=
    General.executeRequest JSON_stringify URLSearchParams_toString
                           config st in
  match applyRequestInterceptors config st with
  | (Thrown e, st1) =>
      run = (Thrown e, st1) ∧
      dispatches (trace run.2) = dispatches (trace st)
  | (Returned fc, st1) =>
      match General.prepared JSON_stringify URLSearchParams_toString st fc
      with
      | Returned (url, opts) =>
          dispatches (trace run.2) = dispatches (trace st) ++ [(url, opts)]
      | Thrown e =>
          run.1 = Thrown e ∧ trace run.2 = trace st1 ∧
          dispatches (trace run.2) = dispatches (trace st)
      end
  end.
Proof.
  intros run. subst run.
  pose proof (requestPhase_sameDispatches config st) as Hd.
  destruct (applyRequestInterceptors config st) as [[fc|e] st1] eqn:H.
  - unfold sameDispatches in Hd. simpl in Hd.
    destruct (General.prepared _ _ st fc) as [[url opts]|e] eqn:Hp.
    + by apply (general_dispatches _ _ _ _ fc st1).
    + destruct (general_rejects _ _ _ _ _ _ _ H Hp) as [H1 H2].
      split; [done|]. split; [done|]. by rewrite H2.
  - unfold General.executeRequest.
    by rewrite (bind_thrown _ _ _ _ _ H).
Qed.

Lemma one_dispatch_per_call_witness :
  applyRequestInterceptors Cases.postUser Scenario.plainState =
    (Returned Cases.postUser, Scenario.plainState) ∧
  General.executeRequest Cases.circular General.plain_toString
                         Cases.postUser Scenario.plainState =
    (Thrown Cases.circularError,
     dispatchState Scenario.plainState Cases.postUser) ∧
  length
    (dispatches
       (trace (General.executeRequest General.plain_stringify
                 General.plain_toString Cases.postUser
                 Scenario.plainState).2)) = 1%nat.
Proof.
  split; [reflexivity|]. split; [reflexivity|].
  pose proof (one_dispatch_per_call General.plain_stringify
                General.plain_toString Cases.postUser Scenario.plainState)
    as H.
  cbv zeta in H.
  change (applyRequestInterceptors Cases.postUser Scenario.plainState)
    with (Returned Cases.postUser, Scenario.plainState) in H.
  cbv beta iota in H. rewrite general_prepared_plain in H. by rewrite H.
Defined.

(** X12.  The header object of a call.  A call whose request chain throws
    makes none, and so does a call whose URL cannot be built, since the
    URL is built first.  Every other call makes exactly one, at a location
    the store did not have, and changes no other; it holds the merged
    headers, with [Content-Type] written if the payload is to be
    serialized, even when the serialization then throws and nothing is
    dispatched; when the call dispatches, these are the headers
    dispatched. *)
Theorem one_header_object_per_call
    (JSON_stringify : Js.Value → Outcome Js.Value)
    (URLSearchParams_toString : list (string * Js.Value) → Outcome string)
    (config : RequestConfig.t) (st : State) :
  let run :=
    General.executeRequest JSON_stringify URLSearchParams_toString
                           config st in
  ((fresh (dom (heap st)) : nat) ∉ dom (heap st)) ∧
  match applyRequestInterceptors config st with
  | (Thrown _, _) => heap run.2 = heap st
  | (Returned fc, _) =>
      match General.preparedUrl URLSearchParams_toString (this st) fc with
      | Thrown _ => heap run.2 = heap st
      | Returned _ =>
          heap run.2 =
            <[fresh (dom (heap st)) := wireHeaders st fc]> (heap st) ∧
          (∀ body, General.preparedBody JSON_stringify fc = Returned body →
             DispatchOptions.headers <$> (dispatches (trace run.2)).*2 =
             (DispatchOptions.headers <$> (dispatches (trace st)).*2) ++
             [wireHeaders st fc])
      end
  end.
Proof.
  intros run. subst run. split; [apply is_fresh|].
  pose proof (requestPhase_sameClient config st) as Hs.
  destruct (applyRequestInterceptors config st) as [[fc|e] st1] eqn:H.
  - destruct Hs as [Ht Hh]. simpl in Ht, Hh.
    assert (heap (dispatchState st1 fc) =
            <[fresh (dom (heap st)) := wireHeaders st fc]> (heap st)) as Hheap.
    { unfold dispatchState. simpl.
      assert (sameClient st st1) as Hs by done.
      by rewrite (wireHeaders_sameClient _ _ _ Hs), Hh. }
    pose proof (general_dispatches JSON_stringify URLSearchParams_toString
                  config st fc st1) as Hone.
    rewrite (general_run _ _ _ _ _ _ H) in Hone |- *.
    unfold General.prepared in Hone |- *.
    destruct (General.preparedUrl _ _ fc) as [url|e]; [|by rewrite <- Hh].
    destruct (General.preparedBody _ fc) as [body|e].
    + specialize (Hone _ _ H eq_refl). split.
      * by destruct (attempt_sameClient url
                       (DispatchOptions.mk
                          (default HTTP_DEFAULTS.DEFAULT_METHOD
                                   (RequestConfig.method fc))
                          (wireHeaders st fc) body
                          (or_number (RequestConfig.timeout fc)
                             (HttpModuleOptions.timeout (options (this st)))))
                       (agent (this st)) fc (dispatchState st1 fc))
          as [_ ->].
      * intros body' [= <-]. by rewrite Hone, !fmap_app.
    + split; [done|]. by intros body' [=].
  - unfold General.executeRequest.
    rewrite (bind_thrown _ _ _ _ _ H). by destruct Hs.
Qed.

Lemma one_header_object_per_call_witness :
  heap Scenario.plainState = ∅ ∧
  map_to_list
    (heap (General.executeRequest Cases.circular General.plain_toString
             Cases.postUser Scenario.plainState).2) =
    [ (0%nat, {[ "Content-Type" := "application/json" ]}) ] ∧
  heap (General.executeRequest General.plain_stringify Cases.symbolic
          Cases.searchUsers Scenario.plainState).2 = ∅.
Proof.
  split; [reflexivity|].
  pose proof (one_header_object_per_call Cases.circular
                General.plain_toString Cases.postUser Scenario.plainState)
    as [_ [H1 _]].
  pose proof (one_header_object_per_call General.plain_stringify
                Cases.symbolic Cases.searchUsers Scenario.plainState)
    as [_ H2].
  split; [by rewrite H1|exact H2].
Defined.

(** X18.  A client constructed from options that configure no interceptor
    (no [interceptors] key, or one with missing or empty lists) runs no
    hook.  When the preparation of the call returns, the one event of the
    call is the dispatch, however the call ends; when the preparation
    throws, the call rejects with that error and has no event at all. *)
Theorem client_without_interceptors_only_dispatches
    (JSON_stringify : Js.Value → Outcome Js.Value)
    (URLSearchParams_toString : list (string * Js.Value) → Outcome string)
    opts d new_Agent (config : RequestConfig.t) (st : State) :
  this st = Pool.constructWith opts d new_Agent →
  configuredRequest opts = [] →
  configuredResponse opts = [] →
  let run :=
    General.executeRequest JSON_stringify URLSearchParams_toString
                           config st in
  match General.prepared JSON_stringify URLSearchParams_toString st config
  with
  | Returned (url, o) => trace run.2 = trace st ++ [Dispatched url o]
  | Thrown e => run.1 = Thrown e ∧ trace run.2 = trace st
  end.
Proof.
  intros Hthis Hq Hr run. subst run.
  destruct (construct_fields opts (new_Agent (Pool.agentOptions opts d)))
    as (_ & _ & Hq' & Hr').
  fold (Pool.constructWith opts d new_Agent) in Hq', Hr'.
  rewrite <- Hthis, Hq in Hq'. rewrite <- Hthis, Hr in Hr'.
  assert (applyRequestInterceptors config st = (Returned config, st)) as H.
  { unfold applyRequestInterceptors, bind, gets. simpl. by rewrite Hq'. }
  destruct (General.prepared _ _ st config) as [[url o]|e] eqn:Hp.
  - rewrite (general_run _ _ _ _ _ _ H).
    unfold General.prepared in Hp |- *.
    destruct (General.preparedUrl _ _ config) as [u|e]; [|done].
    destruct (General.preparedBody _ config) as [body|e]; [|done].
    injection Hp as <- <-. by rewrite attempt_hookless.
  - exact (general_rejects _ _ _ _ _ _ _ H Hp).
Qed.

Lemma client_without_interceptors_only_dispatches_witness :
  this Cases.pooledState =
    Pool.constructWith Cases.zeroPipelining Cases.poolDefaults
                       Cases.failingPool ∧
  (General.executeRequest General.plain_stringify General.plain_toString
     Scenario.getUser Cases.pooledState).1 = Thrown Scenario.networkError ∧
  length
    (trace (General.executeRequest General.plain_stringify
              General.plain_toString Scenario.getUser
              Cases.pooledState).2) = 1%nat ∧
  (General.executeRequest Cases.circular General.plain_toString
     Cases.postUser Cases.pooledState).1 = Thrown Cases.circularError ∧
  trace (General.executeRequest Cases.circular General.plain_toString
           Cases.postUser Cases.pooledState).2 = [].
Proof.
  split; [reflexivity|]. split; [reflexivity|].
  pose proof (client_without_interceptors_only_dispatches
                General.plain_stringify General.plain_toString
                Cases.zeroPipelining Cases.poolDefaults Cases.failingPool
                Scenario.getUser Cases.pooledState
                eq_refl eq_refl eq_refl) as H1.
  pose proof (client_without_interceptors_only_dispatches
                Cases.circular General.plain_toString
                Cases.zeroPipelining Cases.poolDefaults Cases.failingPool
                Cases.postUser Cases.pooledState
                eq_refl eq_refl eq_refl) as H2.
  cbv zeta in H1. rewrite general_prepared_plain in H1.
  split; [by rewrite H1|]. exact H2.
Defined.

Lemma or_default_unset a d :
  Pool.or_default (Pool.unset_zero a) d = Pool.or_default a d.
Proof.
  unfold Pool.or_default, Pool.unset_zero.
  destruct a as [n|]; [|done]. destruct (n =? 0) eqn:Hn; [done|].
  by rewrite Hn.
Qed.

(** X19.  [createAgent]: an agent supplied in the options is the client's
    agent whatever the pool parameters say; otherwise the agent is built
    from the seven pool parameters, each being the configured value when
    that is given and not zero and the default otherwise.  So configuring
    a pool parameter as [0] is the same as leaving it out. *)
Theorem pool_parameters opts d new_Agent :
  (∀ a, HttpModuleOptions.agent opts = Some a →
        Pool.createAgentWith opts d new_Agent = a ∧
        agent (Pool.constructWith opts d new_Agent) = a) ∧
  (HttpModuleOptions.agent opts = None →
   agent (Pool.constructWith opts d new_Agent) =
     new_Agent (Pool.agentOptions opts d)) ∧
  (∀ i n, Pool.configured opts !! i = Some (Some n) → n ≠ 0 →
          Pool.chosen (Pool.agentOptions opts d) !! i = Some n) ∧
  (∀ i, Pool.configured opts !! i = Some None ∨
        Pool.configured opts !! i = Some (Some 0) →
        Pool.chosen (Pool.agentOptions opts d) !! i = Pool.defaults d !! i) ∧
  Pool.agentOptions (Pool.unsetZeros opts) d = Pool.agentOptions opts d.
Proof.
  assert (∀ a dflt n, a = Some n → n ≠ 0 → Pool.or_default a dflt = n) as Hset.
  { intros a dflt n -> Hn. unfold Pool.or_default.
    by apply Z.eqb_neq in Hn as ->. }
  assert (∀ a dflt, a = None ∨ a = Some 0 → Pool.or_default a dflt = dflt)
    as Hunset.
  { by intros a dflt [-> | ->]. }
  destruct (construct_fields opts (new_Agent (Pool.agentOptions opts d)))
    as (_ & Hagent & _).
  fold (Pool.constructWith opts d new_Agent) in Hagent.
  split; [|split; [|split; [|split]]].
  - intros a Ha. rewrite Hagent.
    unfold Pool.createAgentWith, createAgent. by rewrite Ha.
  - intros Ha. rewrite Hagent. unfold createAgent. by rewrite Ha.
  - intros i n Hi Hn.
    do 7 (destruct i as [|i];
          [simpl in Hi |- *; f_equal; apply Hset; congruence|]).
    done.
  - intros i Hi.
    do 7 (destruct i as [|i];
          [simpl in Hi |- *; f_equal; apply Hunset;
           destruct Hi as [Hi|Hi]; [left|right]; congruence|]).
    by destruct Hi.
  - unfold Pool.agentOptions, Pool.unsetZeros. simpl.
    by rewrite !or_default_unset.
Qed.

Lemma pool_parameters_witness :
  Pool.chosen (Pool.agentOptions Cases.zeroPipelining Cases.poolDefaults)
    !! 0%nat = Some 50 ∧
  Pool.chosen (Pool.agentOptions Cases.zeroPipelining Cases.poolDefaults)
    !! 1%nat = Some 10.
Proof.
  destruct (pool_parameters Cases.zeroPipelining Cases.poolDefaults
              Cases.failingPool) as (_ & _ & Hset & Hunset & _).
  split.
  - apply (Hset 0%nat 50); [reflexivity|lia].
  - rewrite (Hunset 1%nat); [reflexivity|right; reflexivity].
Defined.

(* ===================================================================== *)
(** ** The module: [http.module.ts] *)
(* ===================================================================== *)

Section Module.
Import Wiring.
Context (HTTP_MODULE_OPTIONS HTTP_MODULE_ID : Token).

Local Abbreviation createAsyncProviders := (createAsyncProviders HTTP_MODULE_OPTIONS).
Local Abbreviation build := (build HTTP_MODULE_OPTIONS HTTP_MODULE_ID).
Local Abbreviation optionsProvider := (optionsProvider HTTP_MODULE_OPTIONS).

(** X20.  Where an asynchronous registration takes the options from.  A
    given [useFactory] wins over [useExisting] and [useClass]: the options
    provider is the caller's factory with the caller's [inject] list (empty
    when missing).  Without it, a given [useExisting] wins over [useClass]:
    the options come from [createHttpOptions()] of the injected existing
    class.  In both cases the options provider is the only provider, so a
    [useClass] given too is not registered.  With only [useClass], the
    class is injected and registered as a provider of itself.  With none of
    the three, no error is raised: the injected token and the class
    provider are undefined. *)
Theorem async_options_source (options : AsyncOptions.t) :
  match AsyncOptions.useFactory options, AsyncOptions.useExisting options with
  | Some f, _ =>
      createAsyncProviders options =
      [ FactoryProvider HTTP_MODULE_OPTIONS (UserFactory f)
          (Some <$> default [] (AsyncOptions.inject options)) ]
  | None, Some existing =>
      createAsyncProviders options =
      [ FactoryProvider HTTP_MODULE_OPTIONS CreateHttpOptions
                        [Some existing] ]
  | None, None =>
      createAsyncProviders options =
      [ FactoryProvider HTTP_MODULE_OPTIONS CreateHttpOptions
                        [AsyncOptions.useClass options];
        ClassProvider (AsyncOptions.useClass options)
                      (AsyncOptions.useClass options) ]
  end.
Proof.
  unfold Wiring.createAsyncProviders, shouldUseOptionsProviderOnly,
    createAsyncOptionsProvider, createFactoryProvider, createClassProvider.
  destruct (AsyncOptions.useFactory options) as [f|],
    (AsyncOptions.useExisting options) as [existing|]; simpl;
    rewrite ?orb_true_r; reflexivity.
Qed.

Lemma createAsyncProviders_head options :
  ∃ rest, createAsyncProviders options =
          createAsyncOptionsProvider HTTP_MODULE_OPTIONS options :: rest ∧
          (rest = [] ∨
           rest = [ClassProvider (AsyncOptions.useClass options)
                                 (AsyncOptions.useClass options)]).
Proof.
  unfold Wiring.createAsyncProviders.
  destruct (shouldUseOptionsProviderOnly options); eauto.
Qed.

(** X21.  The shape of the module, for each of [register],
    [registerAsync], [forRoot] and [forRootAsync]: the module is
    [HttpModule], it exports [HttpService] and nothing else, the service
    and a module id are among its providers, the options provider comes
    first, and the caller's extra providers come last.  [forRoot] and
    [forRootAsync] give the module of [register] and [registerAsync] with
    [global] set, and only they set it. *)
Theorem module_shape (r : Registration) (id : string) :
  let m := build r id in
  DynamicModule.module m = HttpModuleClass ∧
  DynamicModule.exports m = [HttpServiceClass] ∧
  DynamicModule.providers m !! 0%nat = Some (optionsProvider r) ∧
  TypeProvider HttpServiceClass ∈ DynamicModule.providers m ∧
  ValueProvider HTTP_MODULE_ID (StringValue id) ∈ DynamicModule.providers m ∧
  (∀ options, asyncOptionsOf r = Some options →
     ∃ own, DynamicModule.providers m =
            own ++ default [] (AsyncOptions.extraProviders options)) ∧
  DynamicModule.global m = (if isRoot r then Some true else None) ∧
  DynamicModule.providers m = DynamicModule.providers (build (scoped r) id) ∧
  DynamicModule.imports m = DynamicModule.imports (build (scoped r) id).
Proof.
  assert (∀ options,
            (createAsyncProviders options ++
             [TypeProvider HttpServiceClass;
              ValueProvider HTTP_MODULE_ID (StringValue id)] ++
             default [] (AsyncOptions.extraProviders options)) !! 0%nat =
            Some (createAsyncOptionsProvider HTTP_MODULE_OPTIONS options))
    as Hhead.
  { intros options.
    by destruct (createAsyncProviders_head options) as (rest & -> & _). }
  assert (∀ (own extra : list Provider) p q,
            p ∈ own ++ [p; q] ++ extra ∧ q ∈ own ++ [p; q] ++ extra)
    as Hmid.
  { intros own extra p q. split; apply elem_of_app; right.
    - apply list_elem_of_here.
    - apply list_elem_of_further, list_elem_of_here. }
  destruct r as [options|options|options|options]; simpl;
    repeat split;
    try done;
    try apply Hhead;
    try apply Hmid;
    try (apply list_elem_of_further, list_elem_of_here);
    try (do 2 apply list_elem_of_further; apply list_elem_of_here).
  all: intros o [= <-];
    exists (createAsyncProviders options ++
            [TypeProvider HttpServiceClass;
             ValueProvider HTTP_MODULE_ID (StringValue id)]);
    by rewrite <- app_assoc.
Qed.

(** X22.  The options are provided once.  When the two tokens of the
    package differ from each other and from the class [HttpService], and
    neither the caller's [useClass] nor an extra provider provides the
    options token, exactly one provider of the module provides
    [HTTP_MODULE_OPTIONS]: the options provider. *)
Theorem options_provided_once (r : Registration) (id : string) :
  HTTP_MODULE_ID ≠ HTTP_MODULE_OPTIONS →
  HttpServiceClass ≠ HTTP_MODULE_OPTIONS →
  (∀ options, asyncOptionsOf r = Some options →
     AsyncOptions.useClass options ≠ Some HTTP_MODULE_OPTIONS ∧
     ∀ p, p ∈ default [] (AsyncOptions.extraProviders options) →
          provides p ≠ Some HTTP_MODULE_OPTIONS) →
  filter (λ p, provides p = Some HTTP_MODULE_OPTIONS)
         (DynamicModule.providers (build r id)) =
  [optionsProvider r].
Proof.
  intros Hid Hsvc Hasync.
  assert (∀ extra : list Provider,
            (∀ p, p ∈ extra → provides p ≠ Some HTTP_MODULE_OPTIONS) →
            filter (λ p, provides p = Some HTTP_MODULE_OPTIONS) extra = [])
    as Hnone.
  { induction extra as [|p extra IH]; intros H; [done|].
    rewrite filter_cons_False by (apply H; left).
    apply IH. intros q Hq. apply H. by right. }
  assert (∀ options,
            AsyncOptions.useClass options ≠ Some HTTP_MODULE_OPTIONS →
            (∀ p, p ∈ default [] (AsyncOptions.extraProviders options) →
                  provides p ≠ Some HTTP_MODULE_OPTIONS) →
            filter (λ p, provides p = Some HTTP_MODULE_OPTIONS)
                   (createAsyncProviders options ++
                    [TypeProvider HttpServiceClass;
                     ValueProvider HTTP_MODULE_ID (StringValue id)] ++
                    default [] (AsyncOptions.extraProviders options)) =
            [createAsyncOptionsProvider HTTP_MODULE_OPTIONS options])
    as Hlist.
  { intros options Hcls Hextra.
    rewrite !filter_app, (Hnone _ Hextra), app_nil_r.
    rewrite filter_cons_False by (simpl; congruence).
    rewrite filter_cons_False by (simpl; congruence).
    rewrite filter_nil, app_nil_r.
    assert (provides (createAsyncOptionsProvider HTTP_MODULE_OPTIONS options)
            = Some HTTP_MODULE_OPTIONS) as Hopt.
    { unfold createAsyncOptionsProvider.
      by destruct (AsyncOptions.useFactory options). }
    destruct (createAsyncProviders_head options) as (rest & -> & [-> | ->]).
    - by rewrite filter_cons_True.
    - rewrite filter_cons_True by done.
      by rewrite filter_cons_False. }
  destruct r as [options|options|options|options]; simpl.
  - unfold createProviders. rewrite filter_cons_True by done.
    rewrite filter_cons_False by (simpl; congruence).
    by rewrite filter_cons_False by (simpl; congruence).
  - destruct (Hasync options eq_refl). by apply (Hlist options).
  - unfold createProviders. rewrite filter_cons_True by done.
    rewrite filter_cons_False by (simpl; congruence).
    by rewrite filter_cons_False by (simpl; congruence).
  - destruct (Hasync options eq_refl). by apply (Hlist options).
Qed.

End Module.

Lemma options_provided_once_witness :
  Cases.ID ≠ Cases.OPTIONS ∧
  Wiring.HttpServiceClass ≠ Cases.OPTIONS ∧
  length (Wiring.DynamicModule.providers
            (Wiring.build Cases.OPTIONS Cases.ID
               (Wiring.ForRootAsync Cases.classOnly) "id")) = 5%nat ∧
  filter (λ p, Wiring.provides p = Some Cases.OPTIONS)
         (Wiring.DynamicModule.providers
            (Wiring.build Cases.OPTIONS Cases.ID
               (Wiring.ForRootAsync Cases.classOnly) "id")) =
  [ Wiring.FactoryProvider Cases.OPTIONS Wiring.CreateHttpOptions
      [Some (Wiring.Class "ConfigService")] ].
Proof.
  split; [done|]. split; [done|]. split; [reflexivity|].
  apply (options_provided_once Cases.OPTIONS Cases.ID
           (Wiring.ForRootAsync Cases.classOnly) "id"); [done|done|].
  intros options [= <-]. split; [done|].
  intros p Hp. simpl in Hp.
  apply elem_of_cons in Hp as [->|Hp]; [done|].
  by apply elem_of_nil in Hp.
Defined.

(** The general statement on a failing [onResponse] hook, at a client
    whose second response interceptor fails. *)
Lemma response_failure_general_witness :
  responseInterceptors (this Cases.failingSecond) =
    [Scenario.silentC] ++ Scenario.failingA :: [Scenario.observerB] ∧
  ∃ w',
    try_catch (applyResponseInterceptors Cases.envelope)
              (λ error, let* _ := handleRequestError error in throw error)
              Cases.failingSecond =
    (Thrown Scenario.hookError,
     mkState (this Cases.failingSecond) ∅ w'
       [ OnResponseCalled 0 Cases.envelope;
         OnResponseCalled 1 Cases.envelope;
         ResponseOnErrorCalled 1 Scenario.hookError;
         ResponseOnErrorCalled 1 Scenario.hookError;
         ResponseOnErrorCalled 2 Scenario.hookError ]).
Proof.
  split; [reflexivity|].
  assert (errorHooksReturn
            ([Scenario.silentC] ++ Scenario.failingA :: [Scenario.observerB])
            Scenario.hookError) as Hret.
  { intros ri hook w Hin Hhook. simpl in Hin.
    apply elem_of_cons in Hin as [->|Hin]; [by inversion Hhook|].
    apply elem_of_cons in Hin as [->|Hin]; [by inversion Hhook|].
    apply elem_of_cons in Hin as [->|Hin]; [by inversion Hhook|].
    by apply elem_of_nil in Hin. }
  destruct (response_failure_general
              [Scenario.silentC] Scenario.failingA [Scenario.observerB]
              (λ _ w, (Thrown Scenario.hookError, w))
              (Scenario.counting "A.onError")
              Cases.envelope Cases.failingSecond Cases.envelope
              (mkState (this Cases.failingSecond) ∅ ∅
                       [OnResponseCalled 0 Cases.envelope])
              Scenario.hookError ∅
              eq_refl eq_refl eq_refl eq_refl eq_refl Hret)
    as (_ & w' & H).
  exists w'. exact H.
Defined.
